(** * Azure Monitor token provider: the concurrent token cache

    A shallow embedding of [pkg/tsdb/azuremonitor/tokenprovider/token_cache.go]
    and the properties of its two-level cache: scope-key normalisation,
    lazy credential initialisation, the freshness test with its two-minute
    buffer, and the single-flight refresh protocol of a scope entry. *)

From Stdlib Require Import ZArith Lia Ascii String.
From stdpp Require Import base tactics option list sorting strings gmap.

Local Open Scope Z_scope.

(** ** Strings: [sort.Strings] and [strings.Join] *)

(** Go compares strings byte by byte; [String.leb] is the same lexicographic
    order on the 8-bit characters of a Rocq [string]. *)
Definition string_le (s1 s2 : string) : Prop := String.leb s1 s2 = true.

#[global] Instance string_le_dec : RelDecision string_le :=
  fun s1 s2 => decide (String.leb s1 s2 = true).

(** [sort.Strings(arr)]: sorts in increasing order.  The order is total and
    antisymmetric, so the result does not depend on the sorting algorithm
    (lemma [sort_Strings_unique] below). *)
Definition sort_Strings (arr : list string) : list string :=
  merge_sort string_le arr.

(** [strings.Join(elems, sep)]. *)
Fixpoint Join (elems : list string) (sep : string) : string :=
  match elems with
  | [] => ""
  | x :: rest =>
      match rest with
      | [] => x
      | _ :: _ => x +:+ sep +:+ Join rest sep
      end
  end.

(** [getKeyForScopes] (token_cache.go, lines 175-184). *)
Definition getKeyForScopes (scopes : list string) : string :=
  let scopes :=
    if decide (1 < length scopes)%nat then sort_Strings scopes else scopes in
  Join scopes " ".

(** ** Data model *)

(** [time.Time] instants and [time.Duration]s are counted in nanoseconds on
    one unbounded time line. *)
Definition Minute : Z := 60 * 1000000000.

(** [t.After(u)]. *)
Definition After (t u : Z) : bool := u <? t.

Record AccessToken := mkAccessToken {
  Token : string;
  ExpiresOn : Z
}.

(** What a call into a credential does: it returns, or it panics. *)
Inductive reply (A : Type) : Type :=
| Reply (a : A)
| Panic.
Arguments Reply {A} a.
Arguments Panic {A}.

(** What a call into the cache does: it returns, it panics, or it stays
    parked in [c.cond.Wait()]. *)
Inductive outcome (A : Type) : Type :=
| Returns (a : A)
| Panics
| Blocks.
Arguments Returns {A} a.
Arguments Panics {A}.
Arguments Blocks {A}.

Section Model.

(** [World] is everything a credential reads and writes outside the cache
    (network, identity provider, the caller's [context.Context]);
    [error] is Go's [error]. *)
Context {World error : Type}.

(** The interface [TokenCredential], for a credential that is not nil and
    whose [GetCacheKey] returns: line 59 calls it before the cache is
    touched, and the key a credential object reports is taken to be the
    same at every call, so it is a field.  A nil [*AccessToken] or a nil
    [error] is [None].  [GetAccessToken] is handed the scopes and reads
    them; it does not write to the slice. *)
Record TokenCredential := mkTokenCredential {
  GetCacheKey : string;
  Init : World -> World * reply (option error);
  GetAccessToken :
    list string -> World -> World * reply (option AccessToken * option error)
}.

(** The calls made into credentials, in the order they were made, each with
    the credential object called and what it answered. *)
Inductive Event :=
| EvInit (credential : TokenCredential) (r : reply (option error))
| EvGetAccessToken (credential : TokenCredential) (scopes : list string)
    (r : reply (option AccessToken * option error)).

Record Env := mkEnv {
  world : World;
  trace : list Event
}.

Definition is_EvInit (e : Event) : bool :=
  match e with EvInit _ _ => true | EvGetAccessToken _ _ _ => false end.

Definition is_EvGetAccessToken (e : Event) : bool :=
  match e with EvInit _ _ => false | EvGetAccessToken _ _ _ => true end.

(** How many times [GetAccessToken] was called on a credential. *)
Definition acquisitions (tr : list Event) : nat :=
  length (filter is_EvGetAccessToken tr).

Definition call_Init (credential : TokenCredential) (env : Env)
  : Env * reply (option error) :=
  let '(w, r) := Init credential (world env) in
  ({| world := w; trace := trace env ++ [EvInit credential r] |}, r).

Definition call_GetAccessToken (credential : TokenCredential)
    (scopes : list string) (env : Env)
  : Env * reply (option AccessToken * option error) :=
  let '(w, r) := GetAccessToken credential scopes (world env) in
  ({| world := w;
      trace := trace env ++ [EvGetAccessToken credential scopes r] |}, r).

(** [scopesCacheEntry] without [cond]: the mutex [cond.L] and the callers
    parked on [cond] belong to the pool of callers ([Pool] below).
    [sc_scopes] is the contents of the slice [scopes]; the slice itself is
    the one of the caller that created the entry (line 107 does not copy
    it), and no statement of the cache writes to it: a write by that caller
    is [write_shared_scopes] below. *)
Record scopesCacheEntry := mkScopesCacheEntry {
  sc_credential : TokenCredential;
  sc_scopes : list string;
  refreshing : bool;
  accessToken : option AccessToken
}.

(** [credInit] is a [uint32] that only ever holds 0 or 1. *)
Record credentialCacheEntry := mkCredentialCacheEntry {
  cc_credential : TokenCredential;
  credInit : Z;
  cc_cache : gmap string scopesCacheEntry
}.

Record tokenCacheImpl := mkTokenCacheImpl {
  tc_cache : gmap string credentialCacheEntry
}.

(** [NewConcurrentTokenCache]. *)
Definition NewConcurrentTokenCache : tokenCacheImpl := {| tc_cache := ∅ |}.

(** ** [sync.Map] *)

Definition Load {V : Type} (m : gmap string V) (key : string) : option V :=
  m !! key.

Definition LoadOrStore {V : Type} (m : gmap string V) (key : string) (value : V)
  : gmap string V * V * bool :=
  match m !! key with
  | Some actual => (m, actual, true)
  | None => (<[key := value]> m, value, false)
  end.

(** ** The scope entry: pieces shared by one caller and by many *)

(** Line 122: is the cached token there and not within two minutes of its
    expiry? *)
Definition still_fresh (now : Z) (tok : option AccessToken) : bool :=
  match tok with
  | Some a => After (ExpiresOn a) (now + 2 * Minute)
  | None => false
  end.

Inductive loop_exit :=
| UseCached (accessToken : option AccessToken)
| StartRefresh
| MustWait.

(** Lines 122-136, one pass through the loop with [cond.L] held and
    [time.Now()] = [now]: break with the cached token, break as the
    refresher, or go to [c.cond.Wait()]. *)
Definition loop_body (now : Z) (c : scopesCacheEntry)
  : scopesCacheEntry * loop_exit :=
  if still_fresh now (accessToken c) then (c, UseCached (accessToken c))
  else if negb (refreshing c) then
    ({| sc_credential := sc_credential c; sc_scopes := sc_scopes c;
        refreshing := true; accessToken := accessToken c |}, StartRefresh)
  else (c, MustWait).

(** Lines 167-172: from the credential's answer, the local [accessToken]
    when the function exits, and how it exits. *)
Definition refresh_body (r : reply (option AccessToken * option error))
  : option AccessToken * reply (option AccessToken * option error) :=
  match r with
  | Panic => (None, Panic)
  | Reply (token, Some err) => (None, Reply (None, Some err))
  | Reply (token, None) => (token, Reply (token, None))
  end.

(** Lines 155-164, the deferred function, on the entry's fields. *)
Definition refresh_deferred (c : scopesCacheEntry)
    (local : option AccessToken) : scopesCacheEntry :=
  {| sc_credential := sc_credential c; sc_scopes := sc_scopes c;
     refreshing := false;
     accessToken := match local with
                    | Some a => Some a
                    | None => accessToken c
                    end |}.

(** Line 147: [return accessToken.Token, nil]; a nil pointer panics. *)
Definition return_token (tok : option AccessToken)
  : outcome (string * option error) :=
  match tok with
  | Some a => Returns (Token a, None)
  | None => Panics
  end.

(** Lines 141-147, after [refreshAccessToken] has exited with [ret]. *)
Definition after_refresh (ret : reply (option AccessToken * option error))
  : outcome (string * option error) :=
  match ret with
  | Panic => Panics
  | Reply (_, Some err) => Returns (""%string, Some err)
  | Reply (tok, None) => return_token tok
  end.

(** ** One caller at a time *)

(** [scopesCacheEntry.refreshAccessToken] (lines 150-173). *)
Definition refreshAccessToken (c : scopesCacheEntry) (env : Env)
  : scopesCacheEntry * Env * reply (option AccessToken * option error) :=
  let '(env', r) := call_GetAccessToken (sc_credential c) (sc_scopes c) env in
  let '(local, ret) := refresh_body r in
  (refresh_deferred c local, env', ret).

(** [scopesCacheEntry.getAccessToken] (lines 115-148) with nobody else
    around: a caller that reaches [c.cond.Wait()] is never woken. *)
Definition scopesCacheEntry_getAccessToken (now : Z) (c : scopesCacheEntry)
    (env : Env)
  : scopesCacheEntry * Env * outcome (string * option error) :=
  match loop_body now c with
  | (c1, UseCached tok) => (c1, env, return_token tok)
  | (c1, StartRefresh) =>
      let '(c2, env', ret) := refreshAccessToken c1 env in
      (c2, env', after_refresh ret)
  | (c1, MustWait) => (c1, env, Blocks)
  end.

(** [credentialCacheEntry.ensureInitialized] (lines 79-96). *)
Definition ensureInitialized (c : credentialCacheEntry) (env : Env)
  : credentialCacheEntry * Env * reply (option error) :=
  if credInit c =? 0 then
    if credInit c =? 0 then
      let '(env', r) := call_Init (cc_credential c) env in
      match r with
      | Panic => (c, env', Panic)
      | Reply (Some err) => (c, env', Reply (Some err))
      | Reply None =>
          ({| cc_credential := cc_credential c; credInit := 1;
              cc_cache := cc_cache c |}, env', Reply None)
      end
    else (c, env, Reply None)
  else (c, env, Reply None).

(** [credentialCacheEntry.getEntryFor] (lines 98-113).  The entry pointer
    it returns is the key under which the entry sits in [cc_cache]. *)
Definition credentialCacheEntry_getEntryFor (c : credentialCacheEntry)
    (scopes : list string) : credentialCacheEntry * scopesCacheEntry :=
  let key := getKeyForScopes scopes in
  match Load (cc_cache c) key with
  | Some entry => (c, entry)
  | None =>
      let '(m, entry, _) :=
        LoadOrStore (cc_cache c) key
          {| sc_credential := cc_credential c; sc_scopes := scopes;
             refreshing := false; accessToken := None |} in
      ({| cc_credential := cc_credential c; credInit := credInit c;
          cc_cache := m |}, entry)
  end.

(** [credentialCacheEntry.getAccessToken] (lines 70-77).  What the call
    does to the scope entry behind the pointer is written back under the
    entry's key. *)
Definition credentialCacheEntry_getAccessToken (now : Z)
    (c : credentialCacheEntry) (env : Env) (scopes : list string)
  : credentialCacheEntry * Env * outcome (string * option error) :=
  match ensureInitialized c env with
  | (c1, env1, Panic) => (c1, env1, Panics)
  | (c1, env1, Reply (Some err)) => (c1, env1, Returns (""%string, Some err))
  | (c1, env1, Reply None) =>
      let '(c2, entry) := credentialCacheEntry_getEntryFor c1 scopes in
      let '(entry', env2, r) := scopesCacheEntry_getAccessToken now entry env1 in
      ({| cc_credential := cc_credential c2; credInit := credInit c2;
          cc_cache := <[getKeyForScopes scopes := entry']> (cc_cache c2) |},
       env2, r)
  end.

(** [tokenCacheImpl.getEntryFor] (lines 55-68). *)
Definition tokenCacheImpl_getEntryFor (c : tokenCacheImpl)
    (credential : TokenCredential) : tokenCacheImpl * credentialCacheEntry :=
  let key := GetCacheKey credential in
  match Load (tc_cache c) key with
  | Some entry => (c, entry)
  | None =>
      let '(m, entry, _) :=
        LoadOrStore (tc_cache c) key
          {| cc_credential := credential; credInit := 0; cc_cache := ∅ |} in
      ({| tc_cache := m |}, entry)
  end.

(** [tokenCacheImpl.GetAccessToken] (lines 51-53); [now] is what
    [time.Now()] answers at line 122. *)
Definition tokenCacheImpl_GetAccessToken (now : Z) (c : tokenCacheImpl)
    (env : Env) (credential : TokenCredential) (scopes : list string)
  : tokenCacheImpl * Env * outcome (string * option error) :=
  let '(c1, entry) := tokenCacheImpl_getEntryFor c credential in
  let '(entry', env', r) :=
    credentialCacheEntry_getAccessToken now entry env scopes in
  ({| tc_cache := <[GetCacheKey credential := entry']> (tc_cache c1) |},
   env', r).

(** ** Many callers on one scope entry *)

(** Where a caller of [scopesCacheEntry.getAccessToken] stands, with its
    local variables. *)
Inductive Thread :=
| AtLock        (* line 120, before c.cond.L.Lock() *)
| InLoop        (* line 122, top of the loop, holding cond.L *)
| Parked        (* line 136, inside c.cond.Wait(), cond.L released; Wait
                   returns only after a Broadcast *)
| Notified      (* line 136, woken, c.cond.Wait() re-acquiring cond.L *)
| AtUnlock (accessToken : option AccessToken) (shouldRefresh : bool)
                (* line 138, holding cond.L *)
| AtAcquire     (* line 167, before c.credential.GetAccessToken *)
| AtDeferLock (accessToken : option AccessToken)
    (ret : reply (option AccessToken * option error))
                (* line 155, refreshAccessToken exiting, before Lock() *)
| InDefer (accessToken : option AccessToken)
    (ret : reply (option AccessToken * option error))
                (* lines 157-164, holding cond.L *)
| Finished (r : outcome (string * option error)).

(** The callers of one scope entry.  [history] is a record kept for the
    proofs: who called the credential, in order, and what it answered. *)
Record Pool := mkPool {
  entry : scopesCacheEntry;
  lock : option nat;            (* who holds c.cond.L *)
  clock : Z;                    (* what time.Now() answers *)
  env : Env;
  threads : list Thread;
  history : list (nat * reply (option AccessToken * option error))
}.

(** [c.cond.Broadcast()]. *)
Definition wake (th : Thread) : Thread :=
  match th with
  | Parked => Notified
  | _ => th
  end.

Definition Broadcast (ths : list Thread) : list Thread := wake <$> ths.

(** One atomic step of caller [t]; [None] when [t] cannot move (it waits
    for the mutex, it is parked, it has finished, or there is no [t]). *)
Definition step (t : nat) (p : Pool) : option Pool :=
  match threads p !! t with
  | None => None
  | Some th =>
      match th with
      | AtLock | Notified =>
          match lock p with
          | None =>
              Some {| entry := entry p; lock := Some t; clock := clock p;
                      env := env p; threads := <[t := InLoop]> (threads p);
                      history := history p |}
          | Some _ => None
          end
      | InLoop =>
          match loop_body (clock p) (entry p) with
          | (c, UseCached tok) =>
              Some {| entry := c; lock := lock p; clock := clock p;
                      env := env p;
                      threads := <[t := AtUnlock tok false]> (threads p);
                      history := history p |}
          | (c, StartRefresh) =>
              Some {| entry := c; lock := lock p; clock := clock p;
                      env := env p;
                      threads := <[t := AtUnlock None true]> (threads p);
                      history := history p |}
          | (c, MustWait) =>
              Some {| entry := c; lock := None; clock := clock p;
                      env := env p; threads := <[t := Parked]> (threads p);
                      history := history p |}
          end
      | Parked => None
      | AtUnlock tok shouldRefresh =>
          Some {| entry := entry p; lock := None; clock := clock p;
                  env := env p;
                  threads :=
                    <[t := if shouldRefresh then AtAcquire
                           else Finished (return_token tok)]> (threads p);
                  history := history p |}
      | AtAcquire =>
          let '(env', r) :=
            call_GetAccessToken (sc_credential (entry p))
              (sc_scopes (entry p)) (env p) in
          let '(local, ret) := refresh_body r in
          Some {| entry := entry p; lock := lock p; clock := clock p;
                  env := env';
                  threads := <[t := AtDeferLock local ret]> (threads p);
                  history := history p ++ [(t, r)] |}
      | AtDeferLock local ret =>
          match lock p with
          | None =>
              Some {| entry := entry p; lock := Some t; clock := clock p;
                      env := env p;
                      threads := <[t := InDefer local ret]> (threads p);
                      history := history p |}
          | Some _ => None
          end
      | InDefer local ret =>
          Some {| entry := refresh_deferred (entry p) local; lock := None;
                  clock := clock p; env := env p;
                  threads :=
                    <[t := Finished (after_refresh ret)]>
                      (Broadcast (threads p));
                  history := history p |}
      | Finished _ => None
      end
  end.

(** What the scheduler chooses: let time pass, or let a caller move. *)
Inductive action :=
| Tick (d : Z)
| Run (t : nat).

Definition exec (a : action) (p : Pool) : option Pool :=
  match a with
  | Tick d =>
      if 0 <=? d then
        Some {| entry := entry p; lock := lock p; clock := clock p + d;
                env := env p; threads := threads p; history := history p |}
      else None
  | Run t => step t p
  end.

Fixpoint run (acts : list action) (p : Pool) : option Pool :=
  match acts with
  | [] => Some p
  | a :: rest =>
      match exec a p with
      | Some p' => run rest p'
      | None => None
      end
  end.

(** [n] callers enter [getAccessToken] on the entry [c]. *)
Definition start (c : scopesCacheEntry) (now : Z) (e : Env) (n : nat) : Pool :=
  {| entry := c; lock := None; clock := now; env := e;
     threads := replicate n AtLock; history := [] |}.

Definition holds_lock (th : Thread) : bool :=
  match th with
  | InLoop | AtUnlock _ _ | InDefer _ _ => true
  | _ => false
  end.

(** A caller is refreshing from the moment it sets [c.refreshing] to the
    end of the deferred function. *)
Definition in_refresh (th : Thread) : bool :=
  match th with
  | AtUnlock _ true | AtAcquire | AtDeferLock _ _ | InDefer _ _ => true
  | _ => false
  end.

(** ** What holds of every pool the callers can get into *)

(** Only the holder of [cond.L] is in a critical section; at most one
    caller is refreshing, and there is one exactly when [c.refreshing] is
    set. *)
Definition consistent (p : Pool) : Prop :=
  (forall t th, threads p !! t = Some th -> holds_lock th = true ->
     lock p = Some t)
  /\ (forall t, lock p = Some t ->
        exists th, threads p !! t = Some th /\ holds_lock th = true)
  /\ (forall t1 t2 th1 th2,
        threads p !! t1 = Some th1 -> threads p !! t2 = Some th2 ->
        in_refresh th1 = true -> in_refresh th2 = true -> t1 = t2)
  /\ (refreshing (entry p) = true
      <-> exists t th, threads p !! t = Some th /\ in_refresh th = true).

(** What a caller holds in its local variables comes from its own call to
    the credential. *)
Definition carries_own
    (h : list (nat * reply (option AccessToken * option error))) (t : nat)
    (th : Thread) : Prop :=
  match th with
  | AtDeferLock local ret | InDefer local ret =>
      exists rep, (t, rep) ∈ h /\ refresh_body rep = (local, ret)
  | Finished (Returns (s, Some err)) =>
      s = ""%string /\ exists tok, (t, Reply (tok, Some err)) ∈ h
  | _ => True
  end.

Definition attributed (p : Pool) : Prop :=
  forall t th, threads p !! t = Some th -> carries_own (history p) t th.

(** [ths'] is [ths] with caller [t] moved to [th'], and possibly with the
    parked callers woken. *)
Definition moved (ths ths' : list Thread) (t : nat) (th' : Thread) : Prop :=
  ths' = <[t := th']> ths \/ ths' = <[t := th']> (Broadcast ths).

(** The pool that started from entry [c0] at time [now0] in [env0]. *)
Definition tracks (c0 : scopesCacheEntry) (now0 : Z) (env0 : Env) (p : Pool)
  : Prop :=
  sc_credential (entry p) = sc_credential c0
  /\ sc_scopes (entry p) = sc_scopes c0
  /\ now0 <= clock p
  /\ trace (env p)
     = trace env0
       ++ ((fun h => EvGetAccessToken (sc_credential c0) (sc_scopes c0) h.2)
             <$> history p).

(** Every acquisition so far has answered with a token that is still more
    than two minutes from its expiry. *)
Definition all_fresh (p : Pool) : Prop :=
  forall t rep, (t, rep) ∈ history p ->
    exists tok, rep = Reply (Some tok, None)
                /\ still_fresh (clock p) (Some tok) = true.

(** The three stages of a single flight: nobody has called the credential;
    one caller has and is about to publish the token; the token is
    published. *)
Definition waits_or_acquires (th : Thread) : Prop :=
  match th with
  | AtLock | InLoop | Parked | Notified | AtAcquire | AtUnlock None true =>
      True
  | _ => False
  end.

Definition waits_or_publishes (tok : AccessToken) (th : Thread) : Prop :=
  match th with
  | AtLock | InLoop | Parked | Notified => True
  | AtDeferLock local ret | InDefer local ret =>
      local = Some tok /\ ret = Reply (Some tok, None)
  | _ => False
  end.

Definition waits_or_has (tok : AccessToken) (th : Thread) : Prop :=
  match th with
  | AtLock | InLoop | Parked | Notified => True
  | AtUnlock a shouldRefresh => a = Some tok /\ shouldRefresh = false
  | Finished r => r = Returns (Token tok, None)
  | _ => False
  end.

Definition single_flight (c0 : scopesCacheEntry) (p : Pool) : Prop :=
  (history p = [] /\ accessToken (entry p) = accessToken c0
   /\ Forall waits_or_acquires (threads p))
  \/ exists t0 tok,
      history p = [(t0, Reply (Some tok, None))]
      /\ (accessToken (entry p) = accessToken c0
          /\ refreshing (entry p) = true
          /\ Forall (waits_or_publishes tok) (threads p)
          \/ accessToken (entry p) = Some tok
             /\ refreshing (entry p) = false
             /\ Forall (waits_or_has tok) (threads p)).

(** ** A client, and what can be observed of a cache *)

(** A sequence of calls to [GetAccessToken], each with the time at which
    it is made; the results are dropped. *)
Fixpoint calls (cs : list (Z * TokenCredential * list string))
    (c : tokenCacheImpl) (env : Env) : tokenCacheImpl * Env :=
  match cs with
  | [] => (c, env)
  | (now, credential, scopes) :: rest =>
      let '(c', env', _) :=
        tokenCacheImpl_GetAccessToken now c env credential scopes in
      calls rest c' env'
  end.

(** The token cached for a credential key and a scope list, if any. *)
Definition cached_token (c : tokenCacheImpl) (key : string)
    (scopes : list string) : option AccessToken :=
  match tc_cache c !! key with
  | Some e =>
      match cc_cache e !! getKeyForScopes scopes with
      | Some se => accessToken se
      | None => None
      end
  | None => None
  end.

(** Every credential entry sits under the key of the credential it holds;
    its scope entries hold that same credential, and it has scope entries
    only once its credential is initialised. *)
Definition wf (c : tokenCacheImpl) : Prop :=
  forall k e, tc_cache c !! k = Some e ->
    GetCacheKey (cc_credential e) = k
    /\ forall ks se, cc_cache e !! ks = Some se ->
         sc_credential se = cc_credential e /\ credInit e <> 0.

(** The credential object an event is a call to, and the error the call
    returned, if it returned one. *)
Definition credential_of (ev : Event) : TokenCredential :=
  match ev with
  | EvInit credential _ => credential
  | EvGetAccessToken credential _ _ => credential
  end.

Definition failure (ev : Event) : option error :=
  match ev with
  | EvInit _ (Reply (Some err)) => Some err
  | EvGetAccessToken _ _ (Reply (_, Some err)) => Some err
  | _ => None
  end.

(** No scope entry is marked as being refreshed. *)
Definition idle (c : tokenCacheImpl) : Prop :=
  forall k e ks se, tc_cache c !! k = Some e -> cc_cache e !! ks = Some se ->
    refreshing se = false.

End Model.

Arguments TokenCredential : clear implicits.
Arguments Event : clear implicits.
Arguments Env : clear implicits.
Arguments scopesCacheEntry : clear implicits.
Arguments credentialCacheEntry : clear implicits.
Arguments tokenCacheImpl : clear implicits.
Arguments Thread : clear implicits.
Arguments Pool : clear implicits.
Arguments loop_exit : clear implicits.

(** ** Credentials to run the model on *)

(** A credential whose world is the number of calls made into it so far,
    and whose answers are a function of that number. *)
Definition scripted (key : string)
    (init : nat -> reply (option string))
    (acquire : nat -> list string
               -> reply (option AccessToken * option string))
  : TokenCredential nat string :=
  {| GetCacheKey := key;
     Init := fun w => (S w, init w);
     GetAccessToken := fun scopes w => (S w, acquire w scopes) |}.

Definition Hour : Z := 60 * Minute.

(** Initialises at once; every acquisition gives ["T1"], good for an
    hour from time 0. *)
Definition hourly : TokenCredential nat string :=
  scripted "azr1" (fun _ => Reply None)
    (fun _ _ => Reply (Some {| Token := "T1"; ExpiresOn := Hour |}, None)).

(** Same key as [hourly], another object: its tokens are ["B"]. *)
Definition impostor : TokenCredential nat string :=
  scripted "azr1" (fun _ => Reply None)
    (fun _ _ => Reply (Some {| Token := "B"; ExpiresOn := Hour |}, None)).

(** The first acquisition gives ["T1"], every later one ["T2"], each good
    for one minute from time 0 only: less than the two-minute buffer. *)
Definition short_lived : TokenCredential nat string :=
  scripted "azr1" (fun _ => Reply None)
    (fun w _ =>
       Reply (Some {| Token := match w with O => "T1" | S _ => "T2" end;
                      ExpiresOn := Minute |}, None)).

(** The first call into it fails, whichever it is; later calls succeed. *)
Definition flaky : TokenCredential nat string :=
  scripted "azr1"
    (fun w => match w with O => Reply (Some "no identity") | S _ => Reply None end)
    (fun w _ =>
       match w with
       | O => Reply (None, Some "timeout")
       | S _ => Reply (Some {| Token := "T1"; ExpiresOn := Hour |}, None)
       end).

(** Answers with an access token whose [Token] is the empty string. *)
Definition blank : TokenCredential nat string :=
  scripted "azr1" (fun _ => Reply None)
    (fun _ _ => Reply (Some {| Token := ""; ExpiresOn := Hour |}, None)).

(** A scope entry for [credential] and the scope ["s"], caching [tok]. *)
Definition entry_for (credential : TokenCredential nat string)
    (tok : option AccessToken) : scopesCacheEntry nat string :=
  {| sc_credential := credential; sc_scopes := ["s"%string];
     refreshing := false; accessToken := tok |}.

(** A credential entry for [credential], not initialised, no scopes yet. *)
Definition uninitialised (credential : TokenCredential nat string)
  : credentialCacheEntry nat string :=
  {| cc_credential := credential; credInit := 0; cc_cache := ∅ |}.

(** The world before any call. *)
Definition env0 : Env nat string := {| world := O; trace := [] |}.

(** Two callers, the second arriving while the first refreshes: caller 0
    becomes the refresher, caller 1 parks, caller 0 finishes its refresh,
    caller 1 wakes and goes round the loop again. *)
Definition second_waits : list action :=
  [Run 0; Run 0; Run 0; Run 1; Run 1; Run 0; Run 0; Run 0;
   Run 1; Run 1; Run 1; Run 1; Run 1; Run 1]%nat.

(** The same up to the moment caller 1 has gone round the loop again and
    found the token of caller 0. *)
Definition second_reuses : list action :=
  [Run 0; Run 0; Run 0; Run 1; Run 1; Run 0; Run 0; Run 0;
   Run 1; Run 1; Run 1]%nat.

(** ** More to observe *)

(** Does the string contain the separator of [getKeyForScopes]? *)
Fixpoint has_space (s : string) : bool :=
  match s with
  | EmptyString => false
  | String a s' => Ascii.eqb a " " || has_space s'
  end.

(** A scope that is not empty and contains no space. *)
Definition plain (s : string) : Prop :=
  s <> EmptyString /\ has_space s = false.

Section Observations.

Context {World error : Type}.

(** A successful [Init] of a credential with key [k]. *)
Definition succeeded_Init (k : string) (ev : Event World error) : bool :=
  match ev with
  | EvInit credential (Reply None) => String.eqb (GetCacheKey credential) k
  | _ => false
  end.

Definition successful_inits (k : string) (tr : list (Event World error))
  : nat :=
  length (filter (succeeded_Init k) tr).

(** A call into a credential after which the caller cannot go on: it
    panicked, or it answered with neither a token nor an error. *)
Definition panicking (ev : Event World error) : bool :=
  match ev with
  | EvInit _ Panic => true
  | EvGetAccessToken _ _ Panic => true
  | EvGetAccessToken _ _ (Reply (None, None)) => true
  | _ => false
  end.

(** Line 107 stores the caller's slice itself, not a copy of it, so the
    scope entry shares the elements with the caller that created it: when
    that caller later executes [scopes[i] = v] on its slice, the entry
    registered under the credential key [k] and the scopes key [ks] shows
    the write.  (Out of range the statement panics in the caller and
    nothing is written.) *)
Definition write_shared_scopes (c : tokenCacheImpl World error)
    (k ks : string) (i : nat) (v : string) : tokenCacheImpl World error :=
  match tc_cache c !! k with
  | Some e =>
      match cc_cache e !! ks with
      | Some se =>
          {| tc_cache :=
               <[k := {| cc_credential := cc_credential e;
                         credInit := credInit e;
                         cc_cache :=
                           <[ks := {| sc_credential := sc_credential se;
                                      sc_scopes := <[i := v]> (sc_scopes se);
                                      refreshing := refreshing se;
                                      accessToken := accessToken se |}]>
                             (cc_cache e) |}]> (tc_cache c) |}
      | None => c
      end
  | None => c
  end.
End Observations.

Section PoolObservations.

Context {World error : Type}.

(** A parked caller has somebody to wake it: a refresh is running. *)
Definition no_lost_wakeup (p : Pool World error) : Prop :=
  forall t, threads p !! t = Some Parked -> refreshing (entry p) = true.

Definition finished (th : Thread error) : bool :=
  match th with Finished _ => true | _ => false end.

(** The token was cached when the callers started, or a credential call of
    this run answered with it. *)
Definition from_run (c0 : scopesCacheEntry World error)
    (h : list (nat * reply (option AccessToken * option error)))
    (a : AccessToken) : Prop :=
  accessToken c0 = Some a \/ exists t, (t, Reply (Some a, None)) ∈ h.

Definition carries_known (c0 : scopesCacheEntry World error)
    (h : list (nat * reply (option AccessToken * option error)))
    (th : Thread error) : Prop :=
  match th with
  | AtUnlock (Some a) _ => from_run c0 h a
  | Finished (Returns (s, None)) => exists a, s = Token a /\ from_run c0 h a
  | _ => True
  end.

Definition provenance (c0 : scopesCacheEntry World error)
    (p : Pool World error) : Prop :=
  (forall a, accessToken (entry p) = Some a -> from_run c0 (history p) a)
  /\ forall t th, threads p !! t = Some th ->
       carries_known c0 (history p) th.

(** Past the call to the credential. *)
Definition has_acquired (th : Thread error) : bool :=
  match th with
  | AtDeferLock _ _ | InDefer _ _ | Finished _ => true
  | _ => false
  end.

(** No caller appears twice among those that called the credential, and
    each of them is past its call. *)
Definition acquired_once (p : Pool World error) : Prop :=
  NoDup (history p).*1
  /\ forall t, t ∈ (history p).*1 ->
       exists th, threads p !! t = Some th /\ has_acquired th = true.

(** Nobody has called the credential, entry and world are as they were,
    and whoever got past the loop holds the token [tok]. *)
Definition served_from_cache (c0 : scopesCacheEntry World error)
    (env0 : Env World error) (tok : AccessToken) (p : Pool World error)
  : Prop :=
  history p = [] /\ env p = env0 /\ entry p = c0
  /\ Forall (waits_or_has tok) (threads p).

End PoolObservations.

(** Initialises at once; answers every acquisition with neither a token nor
    an error. *)
Definition silent : TokenCredential nat string :=
  scripted "azr1" (fun _ => Reply None) (fun _ _ => Reply (None, None)).

(** Initialises at once; its first acquisition (the second call into it)
    times out, the later ones give ["T1"], good for an hour from time 0. *)
Definition slow_start : TokenCredential nat string :=
  scripted "azr1" (fun _ => Reply None)
    (fun w _ =>
       match w with
       | O | S O => Reply (None, Some "timeout")
       | _ => Reply (Some {| Token := "T1"; ExpiresOn := Hour |}, None)
       end).

(** * Properties *)

(** ** Properties of the string order *)

Lemma ascii_compare_refl (a : ascii) : Ascii.compare a a = Eq.
Proof. unfold Ascii.compare. apply N.compare_refl. Qed.

Lemma string_compare_refl (s : string) : String.compare s s = Eq.
Proof.
  induction s as [|a s IH]; simpl; [done|].
  by rewrite ascii_compare_refl.
Qed.

Lemma string_compare_lt_trans (s1 s2 s3 : string) :
  String.compare s1 s2 = Lt -> String.compare s2 s3 = Lt ->
  String.compare s1 s3 = Lt.
Proof.
  revert s2 s3.
  induction s1 as [|a1 s1 IH]; intros [|a2 s2] [|a3 s3]; simpl; try done.
  unfold Ascii.compare.
  destruct (N_of_ascii a1 ?= N_of_ascii a2)%N eqn:E12; try done;
    destruct (N_of_ascii a2 ?= N_of_ascii a3)%N eqn:E23; try done;
    intros H12 H23.
  - apply N.compare_eq_iff in E12, E23. rewrite E12, E23, N.compare_refl.
    by eapply IH.
  - apply N.compare_eq_iff in E12. by rewrite E12, E23.
  - apply N.compare_eq_iff in E23. by rewrite <- E23, E12.
  - apply N.compare_lt_iff in E12. apply N.compare_lt_iff in E23.
    pose proof (N.lt_trans _ _ _ E12 E23) as L.
    apply N.compare_lt_iff in L. by rewrite L.
Qed.

#[global] Instance string_le_total : Total string_le.
Proof. intros s1 s2. apply String.leb_total. Qed.

#[global] Instance string_le_antisymm : AntiSymm (=) string_le.
Proof. intros s1 s2. apply String.leb_antisym. Qed.

#[global] Instance string_le_trans : Transitive string_le.
Proof.
  intros s1 s2 s3. unfold string_le, String.leb.
  destruct (String.compare s1 s2) eqn:E12; try done;
    destruct (String.compare s2 s3) eqn:E23; try done; intros _ _.
  - apply String.compare_eq_iff in E12, E23. subst.
    by rewrite string_compare_refl.
  - apply String.compare_eq_iff in E12. subst. by rewrite E23.
  - apply String.compare_eq_iff in E23. subst. by rewrite E12.
  - by rewrite (string_compare_lt_trans _ _ _ E12 E23).
Qed.

Lemma sort_Strings_Permutation (l : list string) : sort_Strings l ≡ₚ l.
Proof. apply merge_sort_Permutation. Qed.

Lemma sort_Strings_Sorted (l : list string) : Sorted string_le (sort_Strings l).
Proof. apply Sorted_merge_sort, _. Qed.

(** Any sorted rearrangement of [l] is the one [sort_Strings] computes. *)
Lemma sort_Strings_unique (l l' : list string) :
  l' ≡ₚ l -> Sorted string_le l' -> sort_Strings l = l'.
Proof.
  intros Hp Hs. apply (Sorted_unique string_le); [apply sort_Strings_Sorted|done|].
  by rewrite sort_Strings_Permutation, Hp.
Qed.

Lemma sort_Strings_perm_eq (l1 l2 : list string) :
  l1 ≡ₚ l2 -> sort_Strings l1 = sort_Strings l2.
Proof.
  intros Hp. apply sort_Strings_unique; [|apply sort_Strings_Sorted].
  by rewrite sort_Strings_Permutation, Hp.
Qed.

Lemma sort_Strings_short (l : list string) :
  (length l <= 1)%nat -> sort_Strings l = l.
Proof.
  intros Hl. apply sort_Strings_unique; [done|].
  destruct l as [|x [|y l]]; simpl in Hl; try lia; repeat constructor.
Qed.

(** [getKeyForScopes] always joins the sorted list: the guard
    [len(scopes) > 1] only skips a sort that would change nothing. *)
Lemma getKeyForScopes_sorted (scopes : list string) :
  getKeyForScopes scopes = Join (sort_Strings scopes) " ".
Proof.
  unfold getKeyForScopes. case_decide; [done|].
  rewrite sort_Strings_short; [done|lia].
Qed.

(** ** Scope keys *)

Section Properties.

Context {World error : Type}.

Local Abbreviation TokenCredential := (TokenCredential World error).
Local Abbreviation Env := (Env World error).
Local Abbreviation scopesCacheEntry := (scopesCacheEntry World error).
Local Abbreviation credentialCacheEntry := (credentialCacheEntry World error).
Local Abbreviation tokenCacheImpl := (tokenCacheImpl World error).
Local Abbreviation Pool := (Pool World error).
Local Abbreviation Thread := (Thread error).

(** Two scope lists with the same key resolve to the same scope entry. *)
Lemma getEntryFor_same_key (c : credentialCacheEntry) (l1 l2 : list string) :
  getKeyForScopes l1 = getKeyForScopes l2 ->
  credentialCacheEntry_getEntryFor
    (credentialCacheEntry_getEntryFor c l1).1 l2
  = credentialCacheEntry_getEntryFor c l1.
Proof.
  intros Hk. unfold credentialCacheEntry_getEntryFor, Load, LoadOrStore.
  rewrite <- Hk.
  destruct (cc_cache c !! getKeyForScopes l1) as [e|] eqn:E; simpl.
  - by rewrite E.
  - by rewrite lookup_insert_eq.
Qed.

(** C6: [getKeyForScopes] joins the sorted scopes with single spaces when
    there is more than one, returns a single scope unchanged and the empty
    string for no scope; two scope lists that are permutations of each
    other get the same key and resolve to the same scope entry. *)
Theorem getKeyForScopes_normalises :
  (forall scopes : list string,
      (1 < length scopes)%nat ->
      getKeyForScopes scopes = Join (sort_Strings scopes) " "
      /\ Sorted string_le (sort_Strings scopes)
      /\ sort_Strings scopes ≡ₚ scopes)
  /\ (forall s : string, getKeyForScopes [s] = s)
  /\ getKeyForScopes [] = ""%string
  /\ (forall l1 l2 : list string,
        l1 ≡ₚ l2 ->
        getKeyForScopes l1 = getKeyForScopes l2
        /\ forall c : credentialCacheEntry,
            credentialCacheEntry_getEntryFor
              (credentialCacheEntry_getEntryFor c l1).1 l2
            = credentialCacheEntry_getEntryFor c l1).
Proof.
  split; [|split; [|split]].
  - intros scopes Hl. split; [apply getKeyForScopes_sorted|].
    split; [apply sort_Strings_Sorted|apply sort_Strings_Permutation].
  - done.
  - done.
  - intros l1 l2 Hp.
    assert (getKeyForScopes l1 = getKeyForScopes l2) as Hk.
    { rewrite !getKeyForScopes_sorted. by rewrite (sort_Strings_perm_eq l1 l2). }
    split; [done|]. intros c. by apply getEntryFor_same_key.
Qed.

(** C9: the key does not determine the scope set: [["a b"]] and
    [["a"; "b"]] are not permutations of each other, get the same key, and
    so resolve to one scope entry (the one created for whichever came
    first). *)
Theorem getKeyForScopes_not_injective :
  ~ (["a b"]%string ≡ₚ ["a"; "b"]%string)
  /\ getKeyForScopes ["a b"]%string = getKeyForScopes ["a"; "b"]%string
  /\ forall c : credentialCacheEntry,
      credentialCacheEntry_getEntryFor
        (credentialCacheEntry_getEntryFor c ["a b"]%string).1
        ["a"; "b"]%string
      = credentialCacheEntry_getEntryFor c ["a b"]%string.
Proof.
  split; [|split].
  - intros Hp. apply Permutation_length in Hp. done.
  - done.
  - intros c. by apply getEntryFor_same_key.
Qed.

(** ** The freshness test *)

Lemma still_fresh_Some (now : Z) (tok : AccessToken) :
  still_fresh now (Some tok) = true <-> now + 2 * Minute < ExpiresOn tok.
Proof. unfold still_fresh, After. apply Z.ltb_lt. Qed.

Lemma still_fresh_mono (now now' : Z) (tok : option AccessToken) :
  now <= now' -> still_fresh now' tok = true -> still_fresh now tok = true.
Proof.
  destruct tok as [a|]; [|done]. rewrite !still_fresh_Some. lia.
Qed.

Lemma loop_body_fresh (now : Z) (c : scopesCacheEntry) :
  still_fresh now (accessToken c) = true ->
  loop_body now c = (c, UseCached (accessToken c)).
Proof. intros H. unfold loop_body. by rewrite H. Qed.

Lemma loop_body_claim (now : Z) (c : scopesCacheEntry) :
  still_fresh now (accessToken c) = false -> refreshing c = false ->
  loop_body now c =
    ({| sc_credential := sc_credential c; sc_scopes := sc_scopes c;
        refreshing := true; accessToken := accessToken c |}, StartRefresh).
Proof. intros H1 H2. unfold loop_body. by rewrite H1, H2. Qed.

Lemma loop_body_wait (now : Z) (c : scopesCacheEntry) :
  still_fresh now (accessToken c) = false -> refreshing c = true ->
  loop_body now c = (c, MustWait).
Proof. intros H1 H2. unfold loop_body. by rewrite H1, H2. Qed.

(** A refresh calls the credential exactly once. *)
Lemma refreshAccessToken_trace (c : scopesCacheEntry) (env : Env) :
  exists r,
    trace (refreshAccessToken c env).1.2
    = trace env ++ [EvGetAccessToken (sc_credential c) (sc_scopes c) r].
Proof.
  unfold refreshAccessToken, call_GetAccessToken.
  destruct (GetAccessToken _ _ _) as [w r].
  exists r. by destruct (refresh_body r).
Qed.

(** C5: a cached token that expires one nanosecond less than two minutes
    from now is not served.  With no refresh running the caller makes one
    acquisition, and what it returns is read off the credential's answer
    and not off the cached token: the new token's string, which is then the
    cached one, or the credential's error with the empty string, or a
    panic, the cached token staying in the last two cases; with a refresh
    already running the caller goes to wait.  A cached token that expires
    one nanosecond more than two minutes from now is served without a
    refresh. *)
Theorem freshness_boundary (now : Z) (c : scopesCacheEntry) (env : Env)
    (tok : AccessToken) :
  accessToken c = Some tok ->
  (ExpiresOn tok = now + 2 * Minute - 1 ->
     still_fresh now (accessToken c) = false
     /\ (refreshing c = false ->
         exists w rep,
           GetAccessToken (sc_credential c) (sc_scopes c) (world env)
           = (w, rep)
           /\ scopesCacheEntry_getAccessToken now c env
              = ({| sc_credential := sc_credential c;
                    sc_scopes := sc_scopes c;
                    refreshing := false;
                    accessToken := match rep with
                                   | Reply (Some tok', None) => Some tok'
                                   | _ => Some tok
                                   end |},
                 {| world := w;
                    trace := trace env
                             ++ [EvGetAccessToken (sc_credential c)
                                   (sc_scopes c) rep] |},
                 match rep with
                 | Reply (Some tok', None) => Returns (Token tok', None)
                 | Reply (_, Some err) => Returns (""%string, Some err)
                 | _ => Panics
                 end))
     /\ (refreshing c = true ->
         scopesCacheEntry_getAccessToken now c env = (c, env, Blocks)))
  /\ (ExpiresOn tok = now + 2 * Minute + 1 ->
      scopesCacheEntry_getAccessToken now c env
      = (c, env, Returns (Token tok, None))).
Proof.
  intros Htok. split.
  - intros Hexp.
    assert (still_fresh now (accessToken c) = false) as Hf.
    { rewrite Htok. apply not_true_is_false. rewrite still_fresh_Some. lia. }
    split; [done|]. split; intros Hr; unfold scopesCacheEntry_getAccessToken.
    + rewrite loop_body_claim by done.
      unfold refreshAccessToken, call_GetAccessToken. simpl.
      destruct (GetAccessToken (sc_credential c) (sc_scopes c) (world env))
        as [w rep] eqn:Hcall.
      exists w, rep. split; [done|].
      rewrite Htok.
      by destruct rep as [[[tok'|] [err|]]|].
    + by rewrite loop_body_wait.
  - intros Hexp. unfold scopesCacheEntry_getAccessToken.
    rewrite loop_body_fresh; [by rewrite Htok|].
    rewrite Htok. apply still_fresh_Some. lia.
Qed.

(** ** One caller at a time: the scope entry *)

(** The three ways through [scopesCacheEntry.getAccessToken]. *)
Lemma scopesCacheEntry_getAccessToken_cases (now : Z) (c : scopesCacheEntry)
    (env : Env) :
  (still_fresh now (accessToken c) = true
   /\ scopesCacheEntry_getAccessToken now c env
      = (c, env, return_token (accessToken c)))
  \/ (still_fresh now (accessToken c) = false /\ refreshing c = true
      /\ scopesCacheEntry_getAccessToken now c env = (c, env, Blocks))
  \/ (still_fresh now (accessToken c) = false /\ refreshing c = false
      /\ exists w rep,
          GetAccessToken (sc_credential c) (sc_scopes c) (world env) = (w, rep)
          /\ scopesCacheEntry_getAccessToken now c env
             = (refresh_deferred c (refresh_body rep).1,
                {| world := w;
                   trace := trace env
                            ++ [EvGetAccessToken (sc_credential c)
                                  (sc_scopes c) rep] |},
                after_refresh (refresh_body rep).2)).
Proof.
  unfold scopesCacheEntry_getAccessToken.
  destruct (still_fresh now (accessToken c)) eqn:Hf.
  - left. by rewrite loop_body_fresh.
  - right. destruct (refreshing c) eqn:Hr.
    + left. by rewrite loop_body_wait.
    + right. rewrite loop_body_claim by done.
      do 2 (split; [done|]).
      unfold refreshAccessToken, call_GetAccessToken. simpl.
      destruct (GetAccessToken _ _ _) as [w rep]. exists w, rep.
      split; [done|]. by destruct (refresh_body rep).
Qed.

Lemma return_token_Returns (tok : option AccessToken) (s : string)
    (e : option error) :
  return_token tok = Returns (s, e) ->
  e = None /\ exists a, tok = Some a /\ s = Token a.
Proof. destruct tok as [a|]; [|done]. intros [= <- <-]. eauto. Qed.

(** How a refresh that has exited shows in the result of the caller. *)
Lemma after_refresh_Returns
    (rep : reply (option AccessToken * option error)) (s : string)
    (e : option error) :
  after_refresh (refresh_body rep).2 = Returns (s, e) ->
  match e with
  | Some err =>
      s = ""%string /\ (refresh_body rep).1 = None
      /\ exists tok, rep = Reply (tok, Some err)
  | None =>
      exists a, rep = Reply (Some a, None) /\ (refresh_body rep).1 = Some a
                /\ s = Token a
  end.
Proof.
  destruct rep as [[tok [err|]]|]; simpl; [| |done].
  - intros [= <- <-]. eauto.
  - destruct tok as [a|]; [|done]. intros [= <- <-]. eauto.
Qed.

Lemma after_refresh_not_Blocks
    (ret : reply (option AccessToken * option error)) :
  after_refresh ret <> Blocks.
Proof. by destruct ret as [[[?|] [?|]]|]. Qed.

(** A call that returns a token string without an error returns the
    [Token] of the access token that the entry caches afterwards. *)
Lemma scopesCacheEntry_getAccessToken_success (now : Z)
    (c c' : scopesCacheEntry) (env env' : Env) (s : string) :
  scopesCacheEntry_getAccessToken now c env = (c', env', Returns (s, None)) ->
  exists tok, accessToken c' = Some tok /\ s = Token tok.
Proof.
  destruct (scopesCacheEntry_getAccessToken_cases now c env)
    as [[_ ->]|[(_ & _ & ->)|(_ & _ & w & rep & _ & ->)]]; intros [= <- <- H].
  - apply return_token_Returns in H as (_ & a & -> & ->). eauto.
  - apply after_refresh_Returns in H as (a & -> & Hl & ->). simpl. eauto.
Qed.

(** A call that returns an error returns it with the empty string, has made
    the acquisition that failed with this error, and leaves the cached
    token as it was. *)
Lemma scopesCacheEntry_getAccessToken_error (now : Z)
    (c c' : scopesCacheEntry) (env env' : Env) (s : string) (err : error) :
  scopesCacheEntry_getAccessToken now c env
  = (c', env', Returns (s, Some err)) ->
  s = ""%string /\ accessToken c' = accessToken c
  /\ exists tok,
      trace env' = trace env
                   ++ [EvGetAccessToken (sc_credential c) (sc_scopes c)
                         (Reply (tok, Some err))].
Proof.
  destruct (scopesCacheEntry_getAccessToken_cases now c env)
    as [[_ ->]|[(_ & _ & ->)|(_ & _ & w & rep & _ & ->)]]; intros [= <- <- H].
  - by apply return_token_Returns in H as [? _].
  - apply after_refresh_Returns in H as (-> & Hl & tok & ->). simpl. eauto.
Qed.

(** What a call never touches, what it adds to the trace, and that it
    leaves no refresh marked as running. *)
Lemma scopesCacheEntry_getAccessToken_frame (now : Z)
    (c c' : scopesCacheEntry) (env env' : Env)
    (r : outcome (string * option error)) :
  scopesCacheEntry_getAccessToken now c env = (c', env', r) ->
  sc_credential c' = sc_credential c /\ sc_scopes c' = sc_scopes c
  /\ (refreshing c = false -> refreshing c' = false /\ r <> Blocks)
  /\ (trace env' = trace env
      \/ exists rep,
          trace env' = trace env
                       ++ [EvGetAccessToken (sc_credential c) (sc_scopes c)
                             rep]
          /\ r = after_refresh (refresh_body rep).2).
Proof.
  destruct (scopesCacheEntry_getAccessToken_cases now c env)
    as [[Hf ->]|[(_ & Hr & ->)|(_ & _ & w & rep & _ & ->)]]; intros [= <- <- <-].
  - do 2 (split; [done|]). split; [|by left]. intros Hr. split; [done|].
    destruct (accessToken c); [done|]. by simpl in Hf.
  - do 2 (split; [done|]). split; [|by left]. congruence.
  - do 2 (split; [done|]). split; [|right; eauto].
    intros _. split; [done|]. apply after_refresh_not_Blocks.
Qed.

(** ** One caller at a time: the credential entry *)

Lemma ensureInitialized_done (c : credentialCacheEntry) (env : Env) :
  credInit c <> 0 -> ensureInitialized c env = (c, env, Reply None).
Proof.
  intros Hi. unfold ensureInitialized. apply Z.eqb_neq in Hi. by rewrite Hi.
Qed.

Lemma ensureInitialized_todo (c : credentialCacheEntry) (env : Env) :
  credInit c = 0 ->
  exists w rep,
    Init (cc_credential c) (world env) = (w, rep)
    /\ ensureInitialized c env
       = (match rep with
          | Reply None =>
              {| cc_credential := cc_credential c; credInit := 1;
                 cc_cache := cc_cache c |}
          | _ => c
          end,
          {| world := w;
             trace := trace env ++ [EvInit (cc_credential c) rep] |},
          rep).
Proof.
  intros Hi. unfold ensureInitialized, call_Init. rewrite Hi. simpl.
  destruct (Init _ _) as [w rep]. exists w, rep. split; [done|].
  by destruct rep as [[err|]|].
Qed.

(** [credentialCacheEntry.getAccessToken] once the credential is
    initialised: the scope entry is looked up or created, and written back
    after the call. *)
Lemma credentialCacheEntry_getAccessToken_eq (now : Z)
    (c : credentialCacheEntry) (env : Env) (scopes : list string) :
  credInit c <> 0 ->
  credentialCacheEntry_getAccessToken now c env scopes
  = let se := default {| sc_credential := cc_credential c; sc_scopes := scopes;
                         refreshing := false; accessToken := None |}
                (cc_cache c !! getKeyForScopes scopes) in
    let '(se', env', r) := scopesCacheEntry_getAccessToken now se env in
    ({| cc_credential := cc_credential c; credInit := credInit c;
        cc_cache := <[getKeyForScopes scopes := se']> (cc_cache c) |}, env', r).
Proof.
  intros Hi.
  unfold credentialCacheEntry_getAccessToken.
  rewrite ensureInitialized_done by done.
  unfold credentialCacheEntry_getEntryFor, Load, LoadOrStore.
  destruct (cc_cache c !! getKeyForScopes scopes) as [se|] eqn:E; simpl; [done|].
  destruct (scopesCacheEntry_getAccessToken _ _ _) as [[se' env'] r].
  by rewrite insert_insert_eq.
Qed.

(** The same, for a credential that is not initialised yet. *)
Lemma credentialCacheEntry_getAccessToken_init (now : Z)
    (c : credentialCacheEntry) (env : Env) (scopes : list string) :
  credInit c = 0 ->
  exists w rep,
    Init (cc_credential c) (world env) = (w, rep)
    /\ credentialCacheEntry_getAccessToken now c env scopes
       = let env1 := {| world := w;
                        trace := trace env ++ [EvInit (cc_credential c) rep] |}
         in
         match rep with
         | Panic => (c, env1, Panics)
         | Reply (Some err) => (c, env1, Returns (""%string, Some err))
         | Reply None =>
             credentialCacheEntry_getAccessToken now
               {| cc_credential := cc_credential c; credInit := 1;
                  cc_cache := cc_cache c |} env1 scopes
         end.
Proof.
  intros Hi. destruct (ensureInitialized_todo c env Hi) as (w & rep & HI & He).
  exists w, rep. split; [done|].
  unfold credentialCacheEntry_getAccessToken at 1. rewrite He.
  destruct rep as [[err|]|]; [done| |done].
  unfold credentialCacheEntry_getAccessToken.
  by rewrite ensureInitialized_done.
Qed.

(** Every way through [credentialCacheEntry.getAccessToken]: either [Init]
    did not succeed and nothing but the trace changed, or the scope entry
    for [scopes] was called (after a successful [Init], if one was due). *)
Lemma credentialCacheEntry_getAccessToken_inv (now : Z)
    (c c' : credentialCacheEntry) (env env' : Env) (scopes : list string)
    (r : outcome (string * option error)) :
  credentialCacheEntry_getAccessToken now c env scopes = (c', env', r) ->
  (credInit c = 0 /\ c' = c
   /\ exists w rep,
       Init (cc_credential c) (world env) = (w, rep)
       /\ env' = {| world := w;
                    trace := trace env ++ [EvInit (cc_credential c) rep] |}
       /\ (rep = Panic /\ r = Panics
           \/ exists err, rep = Reply (Some err)
                          /\ r = Returns (""%string, Some err)))
  \/ exists env1 se',
      (credInit c <> 0 /\ env1 = env
       \/ credInit c = 0
          /\ exists w,
              Init (cc_credential c) (world env) = (w, Reply None)
              /\ env1 = {| world := w;
                           trace := trace env
                                    ++ [EvInit (cc_credential c) (Reply None)]
                        |})
      /\ scopesCacheEntry_getAccessToken now
           (default {| sc_credential := cc_credential c; sc_scopes := scopes;
                       refreshing := false; accessToken := None |}
              (cc_cache c !! getKeyForScopes scopes)) env1
         = (se', env', r)
      /\ c' = {| cc_credential := cc_credential c;
                 credInit := if decide (credInit c = 0) then 1 else credInit c;
                 cc_cache := <[getKeyForScopes scopes := se']> (cc_cache c) |}.
Proof.
  destruct (decide (credInit c = 0)) as [Hi|Hi].
  - destruct (credentialCacheEntry_getAccessToken_init now c env scopes Hi)
      as (w & rep & HI & ->).
    destruct rep as [[err|]|]; simpl.
    + intros [= <- <- <-]. left. do 2 (split; [done|]).
      exists w, (Reply (Some err)). do 2 (split; [done|]). right. eauto.
    + rewrite credentialCacheEntry_getAccessToken_eq by done. simpl.
      destruct (scopesCacheEntry_getAccessToken _ _ _) as [[se' env2] r2] eqn:E.
      intros [= <- <- <-]. right. eexists _, se'.
      split; [right; split; [done|]; by exists w|]. by split.
    + intros [= <- <- <-]. left. do 2 (split; [done|]).
      exists w, Panic. do 2 (split; [done|]). by left.
  - rewrite credentialCacheEntry_getAccessToken_eq by done. simpl.
    destruct (scopesCacheEntry_getAccessToken _ _ _) as [[se' env2] r2] eqn:E.
    intros [= <- <- <-]. right. exists env, se'.
    split; [by left|]. by split.
Qed.

(** The held credential never changes, and neither does a set flag. *)
Lemma credentialCacheEntry_getAccessToken_keeps (now : Z)
    (c c' : credentialCacheEntry) (env env' : Env) (scopes : list string)
    (r : outcome (string * option error)) :
  credentialCacheEntry_getAccessToken now c env scopes = (c', env', r) ->
  cc_credential c' = cc_credential c
  /\ (credInit c <> 0 -> credInit c' = credInit c).
Proof.
  intros H. apply credentialCacheEntry_getAccessToken_inv in H
    as [(_ & -> & _)|(env1 & se' & _ & _ & ->)]; [done|]. simpl.
  split; [done|]. intros Hi. by rewrite decide_False.
Qed.

Lemma credentialCacheEntry_getAccessToken_success (now : Z)
    (c c' : credentialCacheEntry) (env env' : Env) (scopes : list string)
    (s : string) :
  credentialCacheEntry_getAccessToken now c env scopes
  = (c', env', Returns (s, None)) ->
  credInit c' <> 0
  /\ exists se' tok,
      cc_cache c' !! getKeyForScopes scopes = Some se'
      /\ accessToken se' = Some tok /\ s = Token tok.
Proof.
  intros H. apply credentialCacheEntry_getAccessToken_inv in H
    as [(_ & _ & w & rep & _ & _ & [[_ [=]]|(err & _ & [=])])
       |(env1 & se' & _ & Hs & ->)].
  simpl. split; [by case_decide|].
  apply scopesCacheEntry_getAccessToken_success in Hs as (tok & Ht & ->).
  exists se', tok. by rewrite lookup_insert_eq.
Qed.

Lemma credentialCacheEntry_getAccessToken_error (now : Z)
    (c c' : credentialCacheEntry) (env env' : Env) (scopes : list string)
    (s : string) (err : error) :
  credentialCacheEntry_getAccessToken now c env scopes
  = (c', env', Returns (s, Some err)) ->
  s = ""%string.
Proof.
  intros H. apply credentialCacheEntry_getAccessToken_inv in H
    as [(_ & _ & w & rep & _ & _ & [[_ [=]]|(err' & _ & [= -> _])])
       |(env1 & se' & _ & Hs & _)]; [done|].
  by apply scopesCacheEntry_getAccessToken_error in Hs as [-> _].
Qed.

(** The scope store stays well formed and, when no refresh was marked as
    running, none is afterwards and the call has not blocked. *)
Lemma credentialCacheEntry_getAccessToken_store (now : Z)
    (c c' : credentialCacheEntry) (env env' : Env) (scopes : list string)
    (r : outcome (string * option error)) :
  credentialCacheEntry_getAccessToken now c env scopes = (c', env', r) ->
  ((forall ks se, cc_cache c !! ks = Some se ->
      sc_credential se = cc_credential c /\ credInit c <> 0) ->
   forall ks se, cc_cache c' !! ks = Some se ->
      sc_credential se = cc_credential c' /\ credInit c' <> 0)
  /\ ((forall ks se, cc_cache c !! ks = Some se -> refreshing se = false) ->
      (forall ks se, cc_cache c' !! ks = Some se -> refreshing se = false)
      /\ r <> Blocks).
Proof.
  intros H. apply credentialCacheEntry_getAccessToken_inv in H
    as [(_ & -> & w & rep & _ & _ & Hr)|(env1 & se' & _ & Hs & ->)].
  { split; [done|]. intros Hidle. split; [done|].
    by destruct Hr as [[_ ->]|(err & _ & ->)]. }
  apply scopesCacheEntry_getAccessToken_frame in Hs as (Hc & _ & Hfl & _).
  simpl. split.
  - intros Hwf ks se. destruct (decide (getKeyForScopes scopes = ks)) as [<-|Hne].
    + rewrite lookup_insert_eq. intros [= <-]. rewrite Hc.
      split; [|by case_decide].
      destruct (cc_cache c !! getKeyForScopes scopes) as [se0|] eqn:E; [|done].
      by apply (Hwf _ _ E).
    + rewrite lookup_insert_ne by done. intros E.
      destruct (Hwf _ _ E) as [? ?]. split; [done|]. by rewrite decide_False.
  - intros Hidle.
    assert (refreshing
              (default {| sc_credential := cc_credential c;
                          sc_scopes := scopes; refreshing := false;
                          accessToken := None |}
                 (cc_cache c !! getKeyForScopes scopes)) = false) as H0.
    { destruct (cc_cache c !! getKeyForScopes scopes) as [se0|] eqn:E; [|done].
      by apply (Hidle _ _ E). }
    destruct (Hfl H0) as [Hr' Hnb]. split; [|done].
    intros ks se. destruct (decide (getKeyForScopes scopes = ks)) as [<-|Hne].
    + rewrite lookup_insert_eq. by intros [= <-].
    + rewrite lookup_insert_ne by done. apply Hidle.
Qed.

Lemma acquisitions_app (tr1 tr2 : list (Event World error)) :
  acquisitions (tr1 ++ tr2) = (acquisitions tr1 + acquisitions tr2)%nat.
Proof. unfold acquisitions. by rewrite filter_app, length_app. Qed.

(** The calls a [credentialCacheEntry.getAccessToken] makes: all of them
    into the credential the entry holds, no [Init] once the flag is set,
    at most one acquisition, and an error from any of them is the error
    the caller gets. *)
Lemma credentialCacheEntry_getAccessToken_events (now : Z)
    (c c' : credentialCacheEntry) (env env' : Env) (scopes : list string)
    (r : outcome (string * option error)) :
  credentialCacheEntry_getAccessToken now c env scopes = (c', env', r) ->
  exists new,
    trace env' = trace env ++ new
    /\ ((forall ks se, cc_cache c !! ks = Some se ->
           sc_credential se = cc_credential c) ->
        forall ev, ev ∈ new -> credential_of ev = cc_credential c)
    /\ (credInit c <> 0 -> forall ev, ev ∈ new -> is_EvInit ev = false)
    /\ (forall ev err, ev ∈ new -> failure ev = Some err ->
          r = Returns (""%string, Some err))
    /\ (acquisitions new <= 1)%nat.
Proof.
  intros H. apply credentialCacheEntry_getAccessToken_inv in H
    as [(Hi & _ & w & rep & _ & -> & Hr)|(env1 & se' & He1 & Hs & _)].
  { eexists [_]. simpl. split; [done|].
    split; [|split; [done|split; [|compute; lia]]].
    - by intros _ ev ->%list_elem_of_singleton.
    - intros ev err ->%list_elem_of_singleton.
      destruct Hr as [[-> _]|(err' & -> & ->)]; [done|]. by intros [= ->]. }
  apply scopesCacheEntry_getAccessToken_frame in Hs as (_ & _ & _ & Htr).
  set (se0 := default _ _) in Htr.
  assert ((forall ks se, cc_cache c !! ks = Some se ->
             sc_credential se = cc_credential c) ->
          sc_credential se0 = cc_credential c) as Hc0.
  { intros Hwf. subst se0.
    destruct (cc_cache c !! getKeyForScopes scopes) as [x|] eqn:E;
      [by apply (Hwf _ _ E)|done]. }
  assert (exists new1,
    trace env' = trace env1 ++ new1
    /\ (forall ev, ev ∈ new1 ->
          credential_of ev = sc_credential se0 /\ is_EvInit ev = false)
    /\ (forall ev err, ev ∈ new1 -> failure ev = Some err ->
          r = Returns (""%string, Some err))
    /\ (acquisitions new1 <= 1)%nat) as (new1 & -> & Hc1 & Hf1 & Ha1).
  { destruct Htr as [->|(rep & -> & ->)].
    - exists []. rewrite app_nil_r. split; [done|].
      split; [by intros ev ?%elem_of_nil|].
      split; [by intros ev err ?%elem_of_nil|]. compute; lia.
    - eexists [_]. split; [done|].
      split; [by intros ev ->%list_elem_of_singleton|].
      split; [|compute; lia].
      intros ev err ->%list_elem_of_singleton.
      destruct rep as [[tok [err'|]]|]; simpl; [|done..]. by intros [= ->]. }
  destruct He1 as [[Hi ->]|(Hi & w & _ & ->)].
  - exists new1. split; [done|].
    split; [intros Hwf ev [-> ?]%Hc1; by apply Hc0|].
    split; [by intros _ ev [? ?]%Hc1|]. done.
  - simpl. eexists (_ :: new1). rewrite <- app_assoc. split; [done|].
    split; [|split; [done|split]].
    + intros Hwf ev [->|[-> ?]%Hc1]%elem_of_cons; [done|by apply Hc0].
    + intros ev err [->|?]%elem_of_cons; [done|by eapply Hf1].
    + done.
Qed.

(** ** One caller at a time: the facade *)

(** The entry a call works on: the registered one, or a new one. *)
Lemma tokenCacheImpl_GetAccessToken_eq (now : Z) (c : tokenCacheImpl)
    (env : Env) (credential : TokenCredential) (scopes : list string) :
  tokenCacheImpl_GetAccessToken now c env credential scopes
  = let e := default {| cc_credential := credential; credInit := 0;
                        cc_cache := ∅ |}
               (tc_cache c !! GetCacheKey credential) in
    let '(e', env', r) := credentialCacheEntry_getAccessToken now e env scopes in
    ({| tc_cache := <[GetCacheKey credential := e']> (tc_cache c) |}, env', r).
Proof.
  unfold tokenCacheImpl_GetAccessToken, tokenCacheImpl_getEntryFor, Load,
    LoadOrStore.
  destruct (tc_cache c !! GetCacheKey credential) as [e|] eqn:E; simpl; [done|].
  destruct (credentialCacheEntry_getAccessToken _ _ _ _) as [[e' env'] r].
  by rewrite insert_insert_eq.
Qed.

(** A fresh cached token is handed out as it is; neither the cache nor the
    world changes and no credential is called. *)
Lemma fresh_token_served (now : Z) (c : tokenCacheImpl) (env : Env)
    (credential : TokenCredential) (scopes : list string)
    (e : credentialCacheEntry) (se : scopesCacheEntry) (tok : AccessToken) :
  tc_cache c !! GetCacheKey credential = Some e ->
  credInit e <> 0 ->
  cc_cache e !! getKeyForScopes scopes = Some se ->
  accessToken se = Some tok ->
  now + 2 * Minute < ExpiresOn tok ->
  tokenCacheImpl_GetAccessToken now c env credential scopes
  = (c, env, Returns (Token tok, None)).
Proof.
  intros Hc Hi Hs Ht Hf.
  rewrite tokenCacheImpl_GetAccessToken_eq, Hc. simpl.
  rewrite credentialCacheEntry_getAccessToken_eq, Hs by done. simpl.
  unfold scopesCacheEntry_getAccessToken.
  rewrite loop_body_fresh by (rewrite Ht; by apply still_fresh_Some).
  rewrite Ht. simpl. rewrite (insert_id (cc_cache e)) by done.
  destruct c as [m], e as [cr ci cm]; simpl in *.
  by rewrite insert_id.
Qed.

Lemma tokenCacheImpl_GetAccessToken_inv (now : Z) (c c' : tokenCacheImpl)
    (env env' : Env) (credential : TokenCredential) (scopes : list string)
    (r : outcome (string * option error)) :
  tokenCacheImpl_GetAccessToken now c env credential scopes = (c', env', r) ->
  exists e',
    credentialCacheEntry_getAccessToken now
      (default {| cc_credential := credential; credInit := 0; cc_cache := ∅ |}
         (tc_cache c !! GetCacheKey credential)) env scopes
    = (e', env', r)
    /\ tc_cache c' = <[GetCacheKey credential := e']> (tc_cache c).
Proof.
  rewrite tokenCacheImpl_GetAccessToken_eq. simpl.
  destruct (credentialCacheEntry_getAccessToken _ _ _ _) as [[e' env2] r2].
  intros [= <- <- <-]. by exists e'.
Qed.

(** A call keeps every registered entry registered, with the credential
    it holds and with its flag once set. *)
Lemma tokenCacheImpl_GetAccessToken_keeps (now : Z) (c c' : tokenCacheImpl)
    (env env' : Env) (credential : TokenCredential) (scopes : list string)
    (r : outcome (string * option error)) (k : string)
    (e : credentialCacheEntry) :
  tokenCacheImpl_GetAccessToken now c env credential scopes = (c', env', r) ->
  tc_cache c !! k = Some e ->
  exists e', tc_cache c' !! k = Some e'
             /\ cc_credential e' = cc_credential e
             /\ (credInit e <> 0 -> credInit e' = credInit e).
Proof.
  intros (e' & He & ->)%tokenCacheImpl_GetAccessToken_inv Hk.
  destruct (decide (GetCacheKey credential = k)) as [<-|Hne].
  - rewrite Hk in He. simpl in He. exists e'. rewrite lookup_insert_eq.
    split; [done|]. by eapply credentialCacheEntry_getAccessToken_keeps.
  - exists e. by rewrite lookup_insert_ne.
Qed.

Lemma wf_empty : wf (NewConcurrentTokenCache (World := World) (error := error)).
Proof. intros k e. unfold NewConcurrentTokenCache. simpl. by rewrite lookup_empty. Qed.

Lemma idle_empty :
  idle (NewConcurrentTokenCache (World := World) (error := error)).
Proof. intros k e ks se. unfold NewConcurrentTokenCache. simpl. by rewrite lookup_empty. Qed.

Lemma tokenCacheImpl_GetAccessToken_wf (now : Z) (c c' : tokenCacheImpl)
    (env env' : Env) (credential : TokenCredential) (scopes : list string)
    (r : outcome (string * option error)) :
  tokenCacheImpl_GetAccessToken now c env credential scopes = (c', env', r) ->
  wf c -> wf c'.
Proof.
  intros (e' & He & Hc')%tokenCacheImpl_GetAccessToken_inv Hwf k e.
  rewrite Hc'. destruct (decide (GetCacheKey credential = k)) as [<-|Hne].
  - rewrite lookup_insert_eq. intros [= <-].
    pose proof (credentialCacheEntry_getAccessToken_keeps _ _ _ _ _ _ _ He)
      as [Hcr _].
    pose proof (credentialCacheEntry_getAccessToken_store _ _ _ _ _ _ _ He)
      as [Hst _].
    destruct (tc_cache c !! GetCacheKey credential) as [e0|] eqn:E;
      simpl in *.
    + destruct (Hwf _ _ E) as [Hk Hs]. split; [by rewrite Hcr|by apply Hst].
    + split; [by rewrite Hcr|]. apply Hst. intros ks se.
      by rewrite lookup_empty.
  - rewrite lookup_insert_ne by done. apply Hwf.
Qed.

Lemma tokenCacheImpl_GetAccessToken_idle (now : Z) (c c' : tokenCacheImpl)
    (env env' : Env) (credential : TokenCredential) (scopes : list string)
    (r : outcome (string * option error)) :
  tokenCacheImpl_GetAccessToken now c env credential scopes = (c', env', r) ->
  idle c -> idle c' /\ r <> Blocks.
Proof.
  intros (e' & He & Hc')%tokenCacheImpl_GetAccessToken_inv Hidle.
  pose proof (credentialCacheEntry_getAccessToken_store _ _ _ _ _ _ _ He)
    as [_ Hst].
  destruct Hst as [Hst Hnb].
  { destruct (tc_cache c !! GetCacheKey credential) as [e0|] eqn:E; simpl.
    - intros ks se. by apply (Hidle _ _ _ _ E).
    - intros ks se. by rewrite lookup_empty. }
  split; [|done]. intros k e ks se. rewrite Hc'.
  destruct (decide (GetCacheKey credential = k)) as [<-|Hne].
  - rewrite lookup_insert_eq. intros [= <-]. apply Hst.
  - rewrite lookup_insert_ne by done. apply Hidle.
Qed.

Lemma tokenCacheImpl_GetAccessToken_success (now : Z) (c c' : tokenCacheImpl)
    (env env' : Env) (credential : TokenCredential) (scopes : list string)
    (s : string) :
  tokenCacheImpl_GetAccessToken now c env credential scopes
  = (c', env', Returns (s, None)) ->
  exists e' se' tok,
    tc_cache c' !! GetCacheKey credential = Some e' /\ credInit e' <> 0
    /\ cc_cache e' !! getKeyForScopes scopes = Some se'
    /\ accessToken se' = Some tok /\ s = Token tok.
Proof.
  intros (e' & He & Hc')%tokenCacheImpl_GetAccessToken_inv.
  apply credentialCacheEntry_getAccessToken_success in He
    as (Hi & se' & tok & Hs & Ht & ->).
  exists e', se', tok. by rewrite Hc', lookup_insert_eq.
Qed.

(** The calls a [GetAccessToken] makes into credentials. *)
Lemma tokenCacheImpl_GetAccessToken_events (now : Z) (c c' : tokenCacheImpl)
    (env env' : Env) (credential : TokenCredential) (scopes : list string)
    (r : outcome (string * option error)) :
  tokenCacheImpl_GetAccessToken now c env credential scopes = (c', env', r) ->
  exists new,
    trace env' = trace env ++ new
    /\ (wf c ->
        forall ev, ev ∈ new ->
          credential_of ev
          = cc_credential
              (default {| cc_credential := credential; credInit := 0;
                          cc_cache := ∅ |}
                 (tc_cache c !! GetCacheKey credential))
          /\ GetCacheKey (credential_of ev) = GetCacheKey credential)
    /\ (forall e, tc_cache c !! GetCacheKey credential = Some e ->
          credInit e <> 0 -> forall ev, ev ∈ new -> is_EvInit ev = false)
    /\ (forall ev err, ev ∈ new -> failure ev = Some err ->
          r = Returns (""%string, Some err))
    /\ (acquisitions new <= 1)%nat.
Proof.
  intros (e' & He & Hc')%tokenCacheImpl_GetAccessToken_inv.
  apply credentialCacheEntry_getAccessToken_events in He
    as (new & Htr & Hcr & Hni & Hf & Ha).
  exists new. split; [done|]. split; [|split; [|done]].
  - intros Hwf ev Hev.
    destruct (tc_cache c !! GetCacheKey credential) as [e0|] eqn:E;
      simpl in *.
    + destruct (Hwf _ _ E) as [Hk Hs]. rewrite Hcr; [done| |done].
      intros ks se Hse. by apply (Hs _ _ Hse).
    + rewrite Hcr; [done| |done]. intros ks se. by rewrite lookup_empty.
  - intros e E Hi. rewrite E in Hni. by apply Hni.
Qed.

(** ** Sequences of calls *)

Lemma calls_cons (now : Z) (credential : TokenCredential)
    (scopes : list string) (cs : list (Z * TokenCredential * list string))
    (c : tokenCacheImpl) (env : Env) :
  calls ((now, credential, scopes) :: cs) c env
  = calls cs (tokenCacheImpl_GetAccessToken now c env credential scopes).1.1
      (tokenCacheImpl_GetAccessToken now c env credential scopes).1.2.
Proof.
  simpl. by destruct (tokenCacheImpl_GetAccessToken _ _ _ _ _) as [[c' env'] r].
Qed.

Lemma calls_wf (cs : list (Z * TokenCredential * list string))
    (c : tokenCacheImpl) (env : Env) :
  wf c -> wf (calls cs c env).1.
Proof.
  revert c env. induction cs as [|[[now cr] sc] cs IH]; intros c env Hwf;
    [done|].
  rewrite calls_cons.
  destruct (tokenCacheImpl_GetAccessToken now c env cr sc) as [[c' env'] r] eqn:E.
  simpl. apply IH. by eapply tokenCacheImpl_GetAccessToken_wf.
Qed.

Lemma calls_keeps (cs : list (Z * TokenCredential * list string))
    (c : tokenCacheImpl) (env : Env) (k : string) (e : credentialCacheEntry) :
  tc_cache c !! k = Some e ->
  exists e', tc_cache (calls cs c env).1 !! k = Some e'
             /\ cc_credential e' = cc_credential e
             /\ (credInit e <> 0 -> credInit e' = credInit e).
Proof.
  revert c env e. induction cs as [|[[now cr] sc] cs IH]; intros c env e Hk.
  { by exists e. }
  rewrite calls_cons.
  destruct (tokenCacheImpl_GetAccessToken now c env cr sc) as [[c' env'] r] eqn:E.
  simpl.
  destruct (tokenCacheImpl_GetAccessToken_keeps _ _ _ _ _ _ _ _ _ _ E Hk)
    as (e1 & Hk1 & Hc1 & Hi1).
  destruct (IH c' env' e1 Hk1) as (e2 & Hk2 & Hc2 & Hi2).
  exists e2. split; [done|]. split; [congruence|].
  intros Hi. rewrite Hi2; [by apply Hi1|]. by rewrite Hi1.
Qed.

(** Once the flag of an entry is set, no later call calls [Init] on the
    credential the entry holds. *)
Lemma calls_no_Init (cs : list (Z * TokenCredential * list string))
    (c : tokenCacheImpl) (env : Env) (k : string) (e : credentialCacheEntry) :
  wf c -> tc_cache c !! k = Some e -> credInit e <> 0 ->
  exists new,
    trace (calls cs c env).2 = trace env ++ new
    /\ forall ev, ev ∈ new -> is_EvInit ev = true ->
         credential_of ev <> cc_credential e.
Proof.
  revert c env e. induction cs as [|[[now cr] sc] cs IH];
    intros c env e Hwf Hk Hi.
  { exists []. rewrite app_nil_r. split; [done|]. by intros ev ?%elem_of_nil. }
  rewrite calls_cons.
  destruct (tokenCacheImpl_GetAccessToken now c env cr sc) as [[c' env'] r] eqn:E.
  simpl.
  destruct (tokenCacheImpl_GetAccessToken_keeps _ _ _ _ _ _ _ _ _ _ E Hk)
    as (e1 & Hk1 & Hc1 & Hi1).
  pose proof (tokenCacheImpl_GetAccessToken_wf _ _ _ _ _ _ _ _ E Hwf) as Hwf1.
  destruct (IH c' env' e1 Hwf1 Hk1) as (new2 & Htr2 & Hn2).
  { by rewrite Hi1. }
  destruct (tokenCacheImpl_GetAccessToken_events _ _ _ _ _ _ _ _ E)
    as (new1 & Htr1 & Hcr1 & Hni1 & _).
  exists (new1 ++ new2). rewrite Htr2, Htr1, app_assoc. split; [done|].
  intros ev [Hev|Hev]%elem_of_app Hinit.
  - destruct (decide (GetCacheKey cr = k)) as [<-|Hne].
    + rewrite (Hni1 _ Hk Hi _ Hev) in Hinit. done.
    + destruct (Hcr1 Hwf _ Hev) as [_ Hkey]. intros Heq.
      rewrite Heq in Hkey. destruct (Hwf _ _ Hk) as [Hkk _]. congruence.
  - rewrite <- Hc1. by apply Hn2.
Qed.

(** C4: a call made while the scope entry caches a token that expires more
    than two minutes later returns that token and calls no credential; and
    when a call has returned a token and the token cached afterwards is
    still more than two minutes from its expiry at the time of the next
    call, that call returns the same token string, with at most one
    acquisition made by the two calls together. *)
Theorem cached_token_reused (now now2 : Z) (c c1 : tokenCacheImpl)
    (env env1 : Env) (credential : TokenCredential) (scopes : list string)
    (tok : AccessToken) (s : string) :
  (wf c ->
   cached_token c (GetCacheKey credential) scopes = Some tok ->
   now + 2 * Minute < ExpiresOn tok ->
   tokenCacheImpl_GetAccessToken now c env credential scopes
   = (c, env, Returns (Token tok, None)))
  /\ (tokenCacheImpl_GetAccessToken now c env credential scopes
      = (c1, env1, Returns (s, None)) ->
      still_fresh now2 (cached_token c1 (GetCacheKey credential) scopes) = true ->
      tokenCacheImpl_GetAccessToken now2 c1 env1 credential scopes
      = (c1, env1, Returns (s, None))
      /\ (acquisitions (trace env1) <= S (acquisitions (trace env)))%nat).
Proof.
  split.
  - intros Hwf Hct Hf. unfold cached_token in Hct.
    destruct (tc_cache c !! GetCacheKey credential) as [e|] eqn:E; [|done].
    destruct (cc_cache e !! getKeyForScopes scopes) as [se|] eqn:Es; [|done].
    destruct (Hwf _ _ E) as [_ Hs]. destruct (Hs _ _ Es) as [_ Hi].
    by eapply fresh_token_served.
  - intros H1 Hf.
    destruct (tokenCacheImpl_GetAccessToken_success _ _ _ _ _ _ _ _ H1)
      as (e' & se' & tok' & E & Hi & Es & Ht & ->).
    unfold cached_token in Hf. rewrite E, Es, Ht in Hf.
    apply still_fresh_Some in Hf. split.
    + by eapply fresh_token_served.
    + destruct (tokenCacheImpl_GetAccessToken_events _ _ _ _ _ _ _ _ H1)
        as (new & -> & _ & _ & _ & Ha).
      rewrite acquisitions_app. lia.
Qed.

(** C7: while the flag is unset, a failing [Init] makes [ensureInitialized]
    return the error and leave the entry as it was, so the next call on it
    calls [Init] again; a successful [Init] sets the flag; with the flag
    set [ensureInitialized] calls nothing and changes nothing; and through
    any later sequence of calls to the cache the flag stays set and [Init]
    is not called again on the credential of that entry. *)
Theorem ensureInitialized_retries_until_success :
  (forall (c : credentialCacheEntry) (env : Env) (w : World) (err : error),
      credInit c = 0 ->
      Init (cc_credential c) (world env) = (w, Reply (Some err)) ->
      ensureInitialized c env
      = (c, {| world := w;
               trace := trace env
                        ++ [EvInit (cc_credential c) (Reply (Some err))] |},
         Reply (Some err))
      /\ forall env2 : Env,
          exists rep,
            trace (ensureInitialized (ensureInitialized c env).1.1 env2).1.2
            = trace env2 ++ [EvInit (cc_credential c) rep])
  /\ (forall (c : credentialCacheEntry) (env : Env) (w : World),
        credInit c = 0 ->
        Init (cc_credential c) (world env) = (w, Reply None) ->
        ensureInitialized c env
        = ({| cc_credential := cc_credential c; credInit := 1;
              cc_cache := cc_cache c |},
           {| world := w;
              trace := trace env ++ [EvInit (cc_credential c) (Reply None)] |},
           Reply None))
  /\ (forall (c : credentialCacheEntry) (env : Env),
        credInit c <> 0 -> ensureInitialized c env = (c, env, Reply None))
  /\ (forall (cs : list (Z * TokenCredential * list string))
             (c : tokenCacheImpl) (env : Env) (k : string)
             (e : credentialCacheEntry),
        wf c -> tc_cache c !! k = Some e -> credInit e <> 0 ->
        (exists e', tc_cache (calls cs c env).1 !! k = Some e'
                    /\ credInit e' = credInit e
                    /\ cc_credential e' = cc_credential e)
        /\ exists new,
            trace (calls cs c env).2 = trace env ++ new
            /\ forall ev, ev ∈ new -> is_EvInit ev = true ->
                 credential_of ev <> cc_credential e).
Proof.
  split; [|split; [|split]].
  - intros c env w err Hi HI.
    destruct (ensureInitialized_todo c env Hi) as (w' & rep & HI' & He).
    rewrite HI in HI'. injection HI' as <- <-. rewrite He. split; [done|].
    intros env2. simpl.
    destruct (ensureInitialized_todo c env2 Hi) as (w2 & rep2 & _ & ->).
    by exists rep2.
  - intros c env w Hi HI.
    destruct (ensureInitialized_todo c env Hi) as (w' & rep & HI' & He).
    rewrite HI in HI'. injection HI' as <- <-. by rewrite He.
  - intros c env. apply ensureInitialized_done.
  - intros cs c env k e Hwf Hk Hi. split.
    + destruct (calls_keeps cs c env k e Hk) as (e' & Hk' & Hc' & Hi').
      exists e'. split; [done|]. split; [by apply Hi'|done].
    + by apply (calls_no_Init cs c env k e).
Qed.

(** C10: the first call for a credential key registers the credential
    object it is given; a later call that passes another credential object
    with the same key does exactly what a call passing the registered
    object does, every call it makes goes to the registered object, and
    the registered object stays registered through any sequence of
    calls. *)
Theorem first_registered_credential_wins (now : Z) (c : tokenCacheImpl)
    (env : Env) (credential : TokenCredential) (scopes : list string) :
  (tc_cache c !! GetCacheKey credential = None ->
   exists e',
     tc_cache (tokenCacheImpl_GetAccessToken now c env credential scopes).1.1
       !! GetCacheKey credential = Some e'
     /\ cc_credential e' = credential)
  /\ (forall e : credentialCacheEntry,
        wf c -> tc_cache c !! GetCacheKey credential = Some e ->
        tokenCacheImpl_GetAccessToken now c env credential scopes
        = tokenCacheImpl_GetAccessToken now c env (cc_credential e) scopes
        /\ (exists new,
              trace (tokenCacheImpl_GetAccessToken now c env credential
                       scopes).1.2
              = trace env ++ new
              /\ forall ev, ev ∈ new -> credential_of ev = cc_credential e)
        /\ forall (cs : list (Z * TokenCredential * list string)) (env0 : Env),
            exists e',
              tc_cache (calls cs c env0).1 !! GetCacheKey credential = Some e'
              /\ cc_credential e' = cc_credential e).
Proof.
  split.
  - intros Hk.
    destruct (tokenCacheImpl_GetAccessToken now c env credential scopes)
      as [[c' env'] r] eqn:E. simpl.
    apply tokenCacheImpl_GetAccessToken_inv in E as (e' & He & ->).
    rewrite Hk in He. simpl in He.
    apply credentialCacheEntry_getAccessToken_keeps in He as [Hc _].
    exists e'. by rewrite lookup_insert_eq.
  - intros e Hwf Hk. destruct (Hwf _ _ Hk) as [Hkey _]. split; [|split].
    + rewrite !tokenCacheImpl_GetAccessToken_eq. by rewrite Hkey, Hk.
    + destruct (tokenCacheImpl_GetAccessToken now c env credential scopes)
        as [[c' env'] r] eqn:E. simpl.
      destruct (tokenCacheImpl_GetAccessToken_events _ _ _ _ _ _ _ _ E)
        as (new & Htr & Hcr & _).
      exists new. split; [done|]. intros ev Hev.
      destruct (Hcr Hwf _ Hev) as [-> _]. by rewrite Hk.
    + intros cs env0.
      destruct (calls_keeps cs c env0 _ e Hk) as (e' & Hk' & Hc' & _).
      by exists e'.
Qed.

(** Everything a call to the facade does, in terms of the credential entry
    and the scope entry it resolves to. *)
Lemma tokenCacheImpl_GetAccessToken_full (now : Z) (c c' : tokenCacheImpl)
    (env env' : Env) (credential : TokenCredential) (scopes : list string)
    (r : outcome (string * option error)) :
  tokenCacheImpl_GetAccessToken now c env credential scopes = (c', env', r) ->
  let e0 := default {| cc_credential := credential; credInit := 0;
                       cc_cache := ∅ |}
              (tc_cache c !! GetCacheKey credential) in
  let se0 := default {| sc_credential := cc_credential e0;
                        sc_scopes := scopes; refreshing := false;
                        accessToken := None |}
               (cc_cache e0 !! getKeyForScopes scopes) in
  cached_token c (GetCacheKey credential) scopes = accessToken se0
  /\ ((credInit e0 = 0
       /\ tc_cache c' = <[GetCacheKey credential := e0]> (tc_cache c)
       /\ exists w rep,
           Init (cc_credential e0) (world env) = (w, rep)
           /\ env' = {| world := w;
                        trace := trace env ++ [EvInit (cc_credential e0) rep] |}
           /\ (rep = Panic /\ r = Panics
               \/ exists err, rep = Reply (Some err)
                              /\ r = Returns (EmptyString, Some err)))
      \/ exists env1 se' e',
          (credInit e0 <> 0 /\ env1 = env
           \/ credInit e0 = 0
              /\ exists w,
                  Init (cc_credential e0) (world env) = (w, Reply None)
                  /\ env1 = {| world := w;
                               trace := trace env
                                        ++ [EvInit (cc_credential e0)
                                              (Reply None)] |})
          /\ scopesCacheEntry_getAccessToken now se0 env1 = (se', env', r)
          /\ tc_cache c' !! GetCacheKey credential = Some e'
          /\ credInit e' <> 0
          /\ cc_credential e' = cc_credential e0
          /\ cc_cache e' !! getKeyForScopes scopes = Some se').
Proof.
  intros (e' & He & Hc')%tokenCacheImpl_GetAccessToken_inv e0 se0.
  fold e0 in He. split.
  - unfold cached_token. subst se0 e0.
    destruct (tc_cache c !! GetCacheKey credential) as [e|]; simpl.
    + by destruct (cc_cache e !! getKeyForScopes scopes).
    + by rewrite lookup_empty.
  - apply credentialCacheEntry_getAccessToken_inv in He
      as [(Hi & -> & w & rep & HI & -> & Hr)|(env1 & se' & He1 & Hs & ->)].
    + left. split; [done|]. split; [done|]. by exists w, rep.
    + right. exists env1, se'. eexists. split; [done|]. split; [done|].
      rewrite Hc', lookup_insert_eq. split; [done|]. simpl.
      split; [by case_decide|]. split; [done|]. by rewrite lookup_insert_eq.
Qed.

Lemma cached_token_after (c : tokenCacheImpl) (k : string)
    (scopes : list string) (e : credentialCacheEntry) (se : scopesCacheEntry) :
  tc_cache c !! k = Some e -> cc_cache e !! getKeyForScopes scopes = Some se ->
  cached_token c k scopes = accessToken se.
Proof. intros Hk Hs. unfold cached_token. by rewrite Hk, Hs. Qed.

(** Where the token of a successful call comes from: it is the token
    cached for the scopes before the call, or the one the credential gave
    in answer to the acquisition this call made. *)
Lemma tokenCacheImpl_GetAccessToken_source (now : Z) (c c' : tokenCacheImpl)
    (env env' : Env) (credential : TokenCredential) (scopes : list string)
    (s : string) (new : list (Event World error)) :
  tokenCacheImpl_GetAccessToken now c env credential scopes
  = (c', env', Returns (s, None)) ->
  trace env' = trace env ++ new ->
  exists tok,
    cached_token c' (GetCacheKey credential) scopes = Some tok
    /\ s = Token tok
    /\ (cached_token c (GetCacheKey credential) scopes = Some tok
        \/ exists cr sc,
            EvGetAccessToken cr sc (Reply (Some tok, None)) ∈ new).
Proof.
  intros H Htr.
  destruct (tokenCacheImpl_GetAccessToken_full _ _ _ _ _ _ _ _ H)
    as (Hc & [(_ & _ & w & rep & _ & _ & [[_ ?]|(err & _ & ?)])
             |(env1 & se' & e' & He1 & Hs & Hk & _ & _ & Hse)]);
    [done|done|].
  rewrite (cached_token_after _ _ _ _ _ Hk Hse), Hc.
  set (se0 := default _ _) in *. clearbody se0.
  assert (exists pre, trace env1 = trace env ++ pre) as [pre Hpre].
  { destruct He1 as [[_ ->]|(_ & w & _ & ->)]; simpl.
    - exists []. by rewrite app_nil_r.
    - by eexists. }
  destruct (scopesCacheEntry_getAccessToken_cases now se0 env1)
    as [[Hf E]|[(_ & _ & E)|(_ & _ & w & rep & _ & E)]];
    rewrite E in Hs.
  - injection Hs as <- <- Hr.
    apply return_token_Returns in Hr as (_ & a & Ha & ->).
    exists a. split; [done|]. split; [done|]. by left.
  - done.
  - injection Hs as <- <- Hr.
    apply after_refresh_Returns in Hr as (a & -> & Hl & ->).
    simpl. exists a. split; [done|]. split; [done|]. right.
    exists (sc_credential se0), (sc_scopes se0).
    simpl in Htr. rewrite Hpre, <- app_assoc in Htr.
    apply app_inv_head in Htr as <-.
    apply elem_of_app. right. by apply list_elem_of_singleton.
Qed.

(** C8 as the code has it: a call that returns without an error returns the
    [Token] string of the access token then cached for these scopes, which
    is the token cached before the call or the one the credential gave this
    call, so the string is not empty provided those tokens' strings are
    not; a call that returns an error returns it with the empty string; when
    [Init] or the acquisition returns an error the call returns that error;
    and the cache stays well formed with no refresh marked as running, so
    the next call does not block. *)
Theorem GetAccessToken_result (now : Z) (c c' : tokenCacheImpl)
    (env env' : Env) (credential : TokenCredential) (scopes : list string)
    (r : outcome (string * option error)) :
  tokenCacheImpl_GetAccessToken now c env credential scopes = (c', env', r) ->
  (forall s, r = Returns (s, None) ->
     exists tok, cached_token c' (GetCacheKey credential) scopes = Some tok
                 /\ s = Token tok)
  /\ (forall s new, r = Returns (s, None) -> trace env' = trace env ++ new ->
        (forall tok, cached_token c (GetCacheKey credential) scopes = Some tok ->
           Token tok <> ""%string) ->
        (forall cr sc tok,
           EvGetAccessToken cr sc (Reply (Some tok, None)) ∈ new ->
           Token tok <> ""%string) ->
        s <> ""%string)
  /\ (forall s err, r = Returns (s, Some err) -> s = ""%string)
  /\ (exists new,
        trace env' = trace env ++ new
        /\ forall ev err, ev ∈ new -> failure ev = Some err ->
             r = Returns (""%string, Some err))
  /\ (wf c -> wf c')
  /\ (idle c -> idle c' /\ r <> Blocks).
Proof.
  intros H. split; [|split; [|split; [|split; [|split]]]].
  - intros s ->.
    destruct (tokenCacheImpl_GetAccessToken_success _ _ _ _ _ _ _ _ H)
      as (e' & se' & tok & E & _ & Es & Ht & ->).
    exists tok. unfold cached_token. by rewrite E, Es.
  - intros s new -> Htr Hold Hnew.
    destruct (tokenCacheImpl_GetAccessToken_source _ _ _ _ _ _ _ _ _ H Htr)
      as (tok & _ & -> & [Hc|(cr & sc & Hev)]).
    + by apply Hold.
    + by apply (Hnew cr sc).
  - intros s err ->.
    apply tokenCacheImpl_GetAccessToken_inv in H as (e' & He & _).
    by eapply credentialCacheEntry_getAccessToken_error.
  - destruct (tokenCacheImpl_GetAccessToken_events _ _ _ _ _ _ _ _ H)
      as (new & Htr & _ & _ & Hf & _).
    by exists new.
  - by eapply tokenCacheImpl_GetAccessToken_wf.
  - by eapply tokenCacheImpl_GetAccessToken_idle.
Qed.

(** ** Many callers on one scope entry *)

Lemma wake_flags (th : Thread) :
  holds_lock (wake th) = holds_lock th /\ in_refresh (wake th) = in_refresh th.
Proof. by destruct th. Qed.

Lemma moved_lookup_eq (ths ths' : list Thread) (t : nat) (th th' : Thread) :
  moved ths ths' t th' -> ths !! t = Some th -> ths' !! t = Some th'.
Proof.
  intros [->| ->] Ht; apply list_lookup_insert_eq.
  - by eapply lookup_lt_Some.
  - unfold Broadcast. rewrite length_fmap. by eapply lookup_lt_Some.
Qed.

Lemma moved_lookup_ne (ths ths' : list Thread) (t i : nat) (th' : Thread) :
  moved ths ths' t th' -> i <> t ->
  ths' !! i = ths !! i \/ ths' !! i = wake <$> ths !! i.
Proof.
  intros [->| ->] Hne; rewrite list_lookup_insert_ne by done; [by left|].
  right. apply list_lookup_fmap.
Qed.

Lemma moved_lookup (ths ths' : list Thread) (t i : nat) (th th' y : Thread) :
  moved ths ths' t th' -> ths !! t = Some th -> ths' !! i = Some y ->
  i = t /\ y = th'
  \/ i <> t /\ exists x, ths !! i = Some x /\ (y = x \/ y = wake x).
Proof.
  intros Hm Ht Hi. destruct (decide (i = t)) as [->|Hne].
  - left. rewrite (moved_lookup_eq _ _ _ _ _ Hm Ht) in Hi. by injection Hi.
  - right. split; [done|].
    destruct (moved_lookup_ne _ _ _ _ _ Hm Hne) as [E|E]; rewrite E in Hi.
    + eauto.
    + destruct (ths !! i) as [x|]; [|done]. injection Hi as <-. eauto.
Qed.

Lemma moved_lookup_old (ths ths' : list Thread) (t i : nat) (th' x : Thread) :
  moved ths ths' t th' -> i <> t -> ths !! i = Some x ->
  exists y, ths' !! i = Some y /\ (y = x \/ y = wake x).
Proof.
  intros Hm Hne Hi.
  destruct (moved_lookup_ne _ _ _ _ _ Hm Hne) as [E|E]; rewrite E, Hi; eauto.
Qed.

Lemma consistent_moved (p : Pool) (t : nat) (th th' : Thread)
    (e' : scopesCacheEntry) (lk' : option nat) (ck' : Z)
    (env' : Env) (ths' : list Thread)
    (h' : list (nat * reply (option AccessToken * option error))) :
  consistent p ->
  threads p !! t = Some th ->
  moved (threads p) ths' t th' ->
  (holds_lock th = false -> holds_lock th' = true -> lock p = None) ->
  lk' = (if holds_lock th' then Some t
         else if holds_lock th then None else lock p) ->
  (in_refresh th = false -> in_refresh th' = true ->
   refreshing (entry p) = false) ->
  refreshing e' = (if in_refresh th' then true
                   else if in_refresh th then false
                        else refreshing (entry p)) ->
  consistent {| entry := e'; lock := lk'; clock := ck'; env := env';
                threads := ths'; history := h' |}.
Proof.
  intros (I1 & I2 & I3 & I4) Ht Hm Hacq -> Hclaim Hr.
  assert (forall i y, ths' !! i = Some y -> i <> t ->
            exists x, threads p !! i = Some x
                      /\ holds_lock y = holds_lock x
                      /\ in_refresh y = in_refresh x) as Hold.
  { intros i y Hi Hne.
    destruct (moved_lookup _ _ _ _ _ _ _ Hm Ht Hi) as [[? _]|(_ & x & Hx & Hy)];
      [done|].
    exists x. split; [done|]. destruct Hy as [->| ->]; [done|apply wake_flags]. }
  assert (forall i x, threads p !! i = Some x -> i <> t ->
            exists y, ths' !! i = Some y
                      /\ holds_lock y = holds_lock x
                      /\ in_refresh y = in_refresh x) as Hnew.
  { intros i x Hi Hne.
    destruct (moved_lookup_old _ _ _ _ _ _ Hm Hne Hi) as (y & Hy & Hyx).
    exists y. split; [done|]. destruct Hyx as [->| ->]; [done|apply wake_flags]. }
  pose proof (moved_lookup_eq _ _ _ _ _ Hm Ht) as Ht'.
  unfold consistent. simpl. split; [|split; [|split]].
  - intros i y Hi Hy. destruct (decide (i = t)) as [->|Hne].
    + rewrite Ht' in Hi. injection Hi as <-. by rewrite Hy.
    + destruct (Hold _ _ Hi Hne) as (x & Hx & Hh & _). rewrite Hh in Hy.
      pose proof (I1 _ _ Hx Hy) as Hl.
      destruct (holds_lock th') eqn:Hh'; destruct (holds_lock th) eqn:Hht.
      * pose proof (I1 _ _ Ht Hht). congruence.
      * rewrite Hacq in Hl; done.
      * pose proof (I1 _ _ Ht Hht). congruence.
      * done.
  - intros i Hi. destruct (holds_lock th') eqn:Hh'.
    + injection Hi as <-. eauto.
    + destruct (holds_lock th) eqn:Hht; [done|].
      destruct (I2 _ Hi) as (x & Hx & Hhx).
      assert (i <> t) as Hne by (intros ->; congruence).
      destruct (Hnew _ _ Hx Hne) as (y & Hy & Hh & _).
      exists y. split; [done|congruence].
  - intros i j y1 y2 Hi Hj Hy1 Hy2.
    destruct (decide (i = t)) as [->|Hni]; destruct (decide (j = t)) as [->|Hnj];
      [done| | |].
    + rewrite Ht' in Hi. injection Hi as <-.
      destruct (Hold _ _ Hj Hnj) as (x & Hx & _ & Hrx). rewrite Hrx in Hy2.
      destruct (in_refresh th) eqn:Hrt; [by apply (I3 _ _ _ _ Ht Hx)|].
      assert (refreshing (entry p) = true) as Hrr by (apply I4; eauto).
      rewrite Hclaim in Hrr; done.
    + rewrite Ht' in Hj. injection Hj as <-.
      destruct (Hold _ _ Hi Hni) as (x & Hx & _ & Hrx). rewrite Hrx in Hy1.
      destruct (in_refresh th) eqn:Hrt; [by apply (I3 _ _ _ _ Hx Ht)|].
      assert (refreshing (entry p) = true) as Hrr by (apply I4; eauto).
      rewrite Hclaim in Hrr; done.
    + destruct (Hold _ _ Hi Hni) as (x1 & Hx1 & _ & Hr1).
      destruct (Hold _ _ Hj Hnj) as (x2 & Hx2 & _ & Hr2).
      rewrite Hr1 in Hy1. rewrite Hr2 in Hy2. by apply (I3 _ _ _ _ Hx1 Hx2).
  - rewrite Hr. destruct (in_refresh th') eqn:Hr'.
    + split; [eauto|done].
    + destruct (in_refresh th) eqn:Hrt.
      * split; [done|]. intros (i & y & Hi & Hy).
        assert (i <> t) as Hne by (intros ->; congruence).
        destruct (Hold _ _ Hi Hne) as (x & Hx & _ & Hrx). rewrite Hrx in Hy.
        by destruct (Hne (I3 _ _ _ _ Hx Ht Hy Hrt)).
      * rewrite I4. split.
        -- intros (i & x & Hx & Hrx).
           assert (i <> t) as Hne by (intros ->; congruence).
           destruct (Hnew _ _ Hx Hne) as (y & Hy & _ & Hry).
           exists i, y. split; [done|congruence].
        -- intros (i & y & Hi & Hy).
           assert (i <> t) as Hne by (intros ->; congruence).
           destruct (Hold _ _ Hi Hne) as (x & Hx & _ & Hrx).
           exists i, x. split; [done|congruence].
Qed.

Lemma step_consistent (t : nat) (p p' : Pool) :
  consistent p -> step t p = Some p' -> consistent p'.
Proof.
  intros Hc Hs. unfold step in Hs.
  destruct (threads p !! t) as [th|] eqn:Ht; [|done].
  pose proof Hc as (I1 & I2 & I3 & I4).
  assert (in_refresh th = true -> refreshing (entry p) = true) as Hin
    by (intros ?; apply I4; eauto).
  assert (holds_lock th = true -> lock p = Some t) as Hh by (apply I1; done).
  destruct th as [| | | |tok sr| |local ret|local ret|r]; simpl in *.
  - destruct (lock p) eqn:Hl; [done|]. injection Hs as <-.
    eapply consistent_moved; [exact Hc|exact Ht|by left|..]; simpl; try done.
  - unfold loop_body in Hs.
    destruct (still_fresh (clock p) (accessToken (entry p))) eqn:Hf;
      [|destruct (refreshing (entry p)) eqn:Hr]; simpl in Hs;
      injection Hs as <-;
      (eapply consistent_moved; [exact Hc|exact Ht|by left|..]); simpl;
      try done; by apply Hh.
  - done.
  - destruct (lock p) eqn:Hl; [done|]. injection Hs as <-.
    eapply consistent_moved; [exact Hc|exact Ht|by left|..]; simpl; try done.
  - injection Hs as <-.
    eapply consistent_moved; [exact Hc|exact Ht|by left|..]; simpl;
      destruct sr; simpl; try done. by apply Hin.
  - destruct (call_GetAccessToken _ _ _) as [env' r].
    destruct (refresh_body r) as [local ret]. injection Hs as <-.
    eapply consistent_moved; [exact Hc|exact Ht|by left|..]; simpl; try done.
    by apply Hin.
  - destruct (lock p) eqn:Hl; [done|]. injection Hs as <-.
    eapply consistent_moved; [exact Hc|exact Ht|by left|..]; simpl; try done.
    by apply Hin.
  - injection Hs as <-.
    eapply consistent_moved; [exact Hc|exact Ht|by right|..]; simpl; try done.
  - done.
Qed.

Lemma exec_consistent (a : action) (p p' : Pool) :
  consistent p -> exec a p = Some p' -> consistent p'.
Proof.
  destruct a as [d|t]; simpl; [|apply step_consistent].
  intros Hc. destruct (0 <=? d); [|done]. by intros [= <-].
Qed.

Lemma start_consistent (c : scopesCacheEntry) (now : Z)
    (e : Env) (n : nat) :
  refreshing c = false -> consistent (start c now e n).
Proof.
  intros Hr. unfold consistent, start. simpl.
  split; [|split; [|split]].
  - by intros t th [-> _]%lookup_replicate.
  - done.
  - by intros t1 t2 th1 th2 [-> _]%lookup_replicate.
  - rewrite Hr. split; [done|]. by intros (t & th & [-> _]%lookup_replicate & ?).
Qed.

(** What holds at the start and is kept by every action holds after every
    run. *)
Lemma run_invariant (I : Pool -> Prop) (acts : list action) (p0 p : Pool) :
  (forall a q q', I q -> exec a q = Some q' -> I q') ->
  I p0 -> run acts p0 = Some p -> I p.
Proof.
  intros Hstep. revert p0. induction acts as [|a acts IH]; intros p0 H0 Hrun.
  - by injection Hrun as <-.
  - simpl in Hrun. destruct (exec a p0) as [p1|] eqn:E; [|done].
    eapply IH; [|done]. by eapply Hstep.
Qed.

Lemma carries_own_wake (h : list (nat * reply (option AccessToken * option error)))
    (t : nat) (th : Thread) :
  carries_own h t th -> carries_own h t (wake th).
Proof. by destruct th. Qed.

Lemma carries_own_mono (h h' : list (nat * reply (option AccessToken * option error)))
    (t : nat) (th : Thread) :
  carries_own h t th -> carries_own (h ++ h') t th.
Proof.
  destruct th as [| | | |tok sr| |local ret|local ret|[[s [err|]]| |]]; simpl;
    try done.
  - intros (rep & Hin & Hb). exists rep. split; [|done]. apply elem_of_app. by left.
  - intros (rep & Hin & Hb). exists rep. split; [|done]. apply elem_of_app. by left.
  - intros (-> & tok & Hin). split; [done|]. exists tok. apply elem_of_app. by left.
Qed.

Lemma attributed_moved (p : Pool) (t : nat) (th th' : Thread)
    (e' : scopesCacheEntry) (lk' : option nat) (ck' : Z)
    (env' : Env) (ths' : list Thread)
    (h' : list (nat * reply (option AccessToken * option error))) :
  attributed p ->
  threads p !! t = Some th ->
  moved (threads p) ths' t th' ->
  carries_own (history p ++ h') t th' ->
  attributed {| entry := e'; lock := lk'; clock := ck'; env := env';
                threads := ths'; history := history p ++ h' |}.
Proof.
  intros Ha Ht Hm Hown i y Hi. simpl in *.
  destruct (moved_lookup _ _ _ _ _ _ _ Hm Ht Hi)
    as [[-> ->]|(_ & x & Hx & [->| ->])]; [done|..].
  - apply carries_own_mono. by apply Ha.
  - apply carries_own_mono, carries_own_wake. by apply Ha.
Qed.

Lemma step_attributed (t : nat) (p p' : Pool) :
  attributed p -> step t p = Some p' -> attributed p'.
Proof.
  intros Ha Hs. unfold step in Hs.
  destruct (threads p !! t) as [th|] eqn:Ht; [|done].
  pose proof (Ha _ _ Ht) as Hown.
  destruct th as [| | | |tok sr| |local ret|local ret|r]; simpl in *.
  - destruct (lock p) eqn:Hl; [done|]. injection Hs as <-.
    rewrite <- (app_nil_r (history p)).
    eapply attributed_moved; [exact Ha|exact Ht|by left|done].
  - destruct (loop_body (clock p) (entry p)) as [c [tok| |]];
      injection Hs as <-; rewrite <- (app_nil_r (history p));
      (eapply attributed_moved; [exact Ha|exact Ht|by left|done]).
  - done.
  - destruct (lock p) eqn:Hl; [done|]. injection Hs as <-.
    rewrite <- (app_nil_r (history p)).
    eapply attributed_moved; [exact Ha|exact Ht|by left|done].
  - injection Hs as <-. rewrite <- (app_nil_r (history p)).
    eapply attributed_moved; [exact Ha|exact Ht|by left|].
    destruct sr; [done|]. by destruct tok.
  - destruct (call_GetAccessToken _ _ _) as [env' r].
    destruct (refresh_body r) as [local ret] eqn:Hb. injection Hs as <-.
    eapply attributed_moved; [exact Ha|exact Ht|by left|].
    simpl. exists r. split; [|done]. apply elem_of_app. right.
    by apply list_elem_of_singleton.
  - destruct (lock p) eqn:Hl; [done|]. injection Hs as <-.
    rewrite <- (app_nil_r (history p)).
    eapply attributed_moved; [exact Ha|exact Ht|by left|].
    rewrite app_nil_r. done.
  - injection Hs as <-. rewrite <- (app_nil_r (history p)).
    eapply attributed_moved; [exact Ha|exact Ht|by right|].
    rewrite app_nil_r. destruct Hown as (rep & Hin & Hb).
    destruct rep as [[tok [err|]]|]; simpl in Hb; injection Hb as <- <-; simpl.
    + eauto.
    + by destruct tok.
    + done.
  - done.
Qed.

Lemma loop_body_keeps (now : Z) (c : scopesCacheEntry) :
  sc_credential (loop_body now c).1 = sc_credential c
  /\ sc_scopes (loop_body now c).1 = sc_scopes c
  /\ accessToken (loop_body now c).1 = accessToken c.
Proof.
  unfold loop_body. destruct (still_fresh _ _); [done|].
  by destruct (refreshing c).
Qed.

(** What a step leaves alone: the clock always; the history and the world
    unless it is the call to the credential. *)
Lemma step_frame (t : nat) (p p' : Pool) :
  step t p = Some p' ->
  clock p' = clock p
  /\ sc_credential (entry p') = sc_credential (entry p)
  /\ sc_scopes (entry p') = sc_scopes (entry p)
  /\ (history p' = history p /\ env p' = env p
      \/ exists w rep,
          threads p !! t = Some AtAcquire
          /\ GetAccessToken (sc_credential (entry p)) (sc_scopes (entry p))
               (world (env p)) = (w, rep)
          /\ history p' = history p ++ [(t, rep)]
          /\ env p'
             = {| world := w;
                  trace := trace (env p)
                           ++ [EvGetAccessToken (sc_credential (entry p))
                                 (sc_scopes (entry p)) rep] |}).
Proof.
  intros Hs. unfold step in Hs.
  destruct (threads p !! t) as [th|] eqn:Ht; [|done].
  destruct th as [| | | |tok sr| |local ret|local ret|r]; simpl in *;
    try done.
  - destruct (lock p); [done|]. injection Hs as <-. simpl. do 3 (split; [done|]). by left.
  - pose proof (loop_body_keeps (clock p) (entry p)) as (Hc & Hsc & _).
    destruct (loop_body (clock p) (entry p)) as [c [tok| |]];
      injection Hs as <-; simpl in *; (do 3 (split; [done|])); by left.
  - destruct (lock p); [done|]. injection Hs as <-. simpl. do 3 (split; [done|]). by left.
  - injection Hs as <-. simpl. do 3 (split; [done|]). by left.
  - unfold call_GetAccessToken in Hs.
    destruct (GetAccessToken _ _ _) as [w rep] eqn:E.
    destruct (refresh_body rep) as [local ret]. injection Hs as <-. simpl.
    do 3 (split; [done|]). right. by exists w, rep.
  - destruct (lock p); [done|]. injection Hs as <-. simpl. do 3 (split; [done|]). by left.
  - injection Hs as <-. simpl. do 3 (split; [done|]). by left.
Qed.

Lemma exec_tracks (c0 : scopesCacheEntry) (now0 : Z)
    (env0 : Env) (a : action) (p p' : Pool) :
  tracks c0 now0 env0 p -> exec a p = Some p' -> tracks c0 now0 env0 p'.
Proof.
  intros (Hc & Hs & Hn & Htr). destruct a as [d|t]; simpl.
  - destruct (0 <=? d) eqn:Hd; [|done]. intros [= <-].
    unfold tracks. simpl. apply Z.leb_le in Hd. repeat split; try done. lia.
  - intros (Hck & Hc' & Hs' & Hh)%step_frame. unfold tracks.
    rewrite Hck, Hc', Hs'. do 3 (split; [done|]).
    destruct Hh as [[-> ->]|(w & rep & _ & _ & -> & ->)]; [done|].
    simpl. rewrite fmap_app, app_assoc, Htr, Hc, Hs. done.
Qed.

Lemma start_tracks (c : scopesCacheEntry) (now : Z)
    (e : Env) (n : nat) :
  tracks c now e (start c now e n).
Proof. unfold tracks, start. simpl. by rewrite app_nil_r. Qed.

(** With time and with calls, [all_fresh] only gets harder to meet. *)
Lemma exec_all_fresh (a : action) (p p' : Pool) :
  exec a p = Some p' -> all_fresh p' -> all_fresh p.
Proof.
  intros He Hf t rep Hin.
  assert (clock p <= clock p'
          /\ forall x, x ∈ history p -> x ∈ history p') as [Hck Hh].
  { destruct a as [d|i]; simpl in He.
    - destruct (0 <=? d) eqn:Hd; [|done]. injection He as <-. simpl.
      apply Z.leb_le in Hd. split; [lia|done].
    - apply step_frame in He as (-> & _ & _ & Hh). split; [done|].
      destruct Hh as [[-> _]|(w & r & _ & _ & -> & _)]; [done|].
      intros x Hx. apply elem_of_app. by left. }
  destruct (Hf t rep (Hh _ Hin)) as (tok & -> & Hfr).
  exists tok. split; [done|]. by eapply still_fresh_mono.
Qed.

Lemma Forall_moved (Q Q' : Thread -> Prop) (ths ths' : list Thread) (t : nat)
    (th th' : Thread) :
  Forall Q ths -> ths !! t = Some th -> moved ths ths' t th' -> Q' th' ->
  (forall i x, i <> t -> ths !! i = Some x -> Q x -> Q' x /\ Q' (wake x)) ->
  Forall Q' ths'.
Proof.
  intros Hall Ht Hm Hth' Himp. apply Forall_lookup. intros i y Hi.
  destruct (moved_lookup _ _ _ _ _ _ _ Hm Ht Hi)
    as [[-> ->]|(Hne & x & Hx & Hy)]; [done|].
  pose proof (Forall_lookup_1 _ _ _ _ Hall Hx) as HQ.
  destruct (Himp _ _ Hne Hx HQ) as [? ?]. by destruct Hy as [->| ->].
Qed.

Lemma waits_or_acquires_wake (th : Thread) :
  waits_or_acquires th -> waits_or_acquires (wake th).
Proof. by destruct th. Qed.

Lemma waits_or_publishes_wake (tok : AccessToken) (th : Thread) :
  waits_or_publishes tok th -> waits_or_publishes tok (wake th).
Proof. by destruct th. Qed.

Lemma waits_or_has_wake (tok : AccessToken) (th : Thread) :
  waits_or_has tok th -> waits_or_has tok (wake th).
Proof. by destruct th. Qed.

(** The other callers while caller [t] is the one refreshing. *)
Lemma others_not_refreshing (p : Pool) (t i : nat) (th x : Thread) :
  consistent p -> threads p !! t = Some th -> in_refresh th = true ->
  i <> t -> threads p !! i = Some x -> in_refresh x = false.
Proof.
  intros (_ & _ & I3 & _) Ht Hr Hne Hx.
  destruct (in_refresh x) eqn:E; [|done]. by destruct (Hne (I3 _ _ _ _ Hx Ht E Hr)).
Qed.

Lemma step_single_flight (c0 : scopesCacheEntry) (now0 : Z)
    (env0 : Env) (t : nat) (p p' : Pool) :
  consistent p -> tracks c0 now0 env0 p ->
  still_fresh now0 (accessToken c0) = false ->
  all_fresh p' -> single_flight c0 p -> step t p = Some p' ->
  single_flight c0 p'.
Proof.
  intros Hc (_ & _ & Hnow & _) Hst Hf Hsf Hs.
  assert (still_fresh (clock p) (accessToken c0) = false) as Hstale.
  { destruct (still_fresh (clock p) (accessToken c0)) eqn:E; [|done].
    by rewrite (still_fresh_mono _ _ _ Hnow E) in Hst. }
  pose proof (step_frame _ _ _ Hs) as (Hck & _ & _ & _).
  unfold step in Hs. destruct (threads p !! t) as [th|] eqn:Ht; [|done].
  destruct Hsf as [(Hh & Htok & Hall)
                  |(t0 & tok & Hh & [(Htok & Hr & Hall)|(Htok & Hr & Hall)])];
    pose proof (Forall_lookup_1 _ _ _ _ Hall Ht) as Hth.
  - (* nobody has called the credential *)
    destruct th as [| | | |a sr| |local ret|local ret|r]; simpl in Hth;
      try done.
    + destruct (lock p); [done|]. injection Hs as <-. left. simpl.
      do 2 (split; [done|]).
      eapply Forall_moved; [exact Hall|exact Ht|by left|done|].
      intros i x _ _ Hx. split; [done|by apply waits_or_acquires_wake].
    + unfold loop_body in Hs. rewrite Htok, Hstale in Hs.
      destruct (refreshing (entry p)); simpl in Hs; injection Hs as <-;
        left; simpl; (do 2 (split; [done|]));
        (eapply Forall_moved; [exact Hall|exact Ht|by left|done|]);
        intros i x _ _ Hx; (split; [done|by apply waits_or_acquires_wake]).
    + destruct (lock p); [done|]. injection Hs as <-. left. simpl.
      do 2 (split; [done|]).
      eapply Forall_moved; [exact Hall|exact Ht|by left|done|].
      intros i x _ _ Hx. split; [done|by apply waits_or_acquires_wake].
    + destruct a; [done|]. destruct sr; [|done]. injection Hs as <-.
      left. simpl. do 2 (split; [done|]).
      eapply Forall_moved; [exact Hall|exact Ht|by left|done|].
      intros i x _ _ Hx. split; [done|by apply waits_or_acquires_wake].
    + destruct (call_GetAccessToken _ _ _) as [env' r].
      destruct (refresh_body r) as [local ret] eqn:Hb. injection Hs as <-.
      destruct (Hf t r) as (tok & -> & _).
      { simpl. rewrite Hh. by apply list_elem_of_singleton. }
      simpl in Hb. injection Hb as <- <-.
      right. exists t, tok. simpl. rewrite Hh. split; [done|]. left.
      split; [done|]. split; [by apply Hc; eauto|].
      eapply Forall_moved; [exact Hall|exact Ht|by left|done|].
      intros i x Hne Hx HQ.
      pose proof (others_not_refreshing _ _ _ _ _ Hc Ht eq_refl Hne Hx) as Hn.
      by destruct x as [| | | |[?|] [|]| | | |].
  - (* one caller is about to publish the token *)
    destruct th as [| | | |a sr| |local ret|local ret|r]; simpl in Hth;
      try done.
    + destruct (lock p); [done|]. injection Hs as <-. right.
      exists t0, tok. simpl. split; [done|]. left. do 2 (split; [done|]).
      eapply Forall_moved; [exact Hall|exact Ht|by left|done|].
      intros i x _ _ Hx. split; [done|by apply waits_or_publishes_wake].
    + unfold loop_body in Hs. rewrite Htok, Hstale, Hr in Hs. simpl in Hs.
      injection Hs as <-. right.
      exists t0, tok. simpl. split; [done|]. left. do 2 (split; [done|]).
      eapply Forall_moved; [exact Hall|exact Ht|by left|done|].
      intros i x _ _ Hx. split; [done|by apply waits_or_publishes_wake].
    + destruct (lock p); [done|]. injection Hs as <-. right.
      exists t0, tok. simpl. split; [done|]. left. do 2 (split; [done|]).
      eapply Forall_moved; [exact Hall|exact Ht|by left|done|].
      intros i x _ _ Hx. split; [done|by apply waits_or_publishes_wake].
    + destruct (lock p); [done|]. injection Hs as <-. right.
      exists t0, tok. simpl. split; [done|]. left. do 2 (split; [done|]).
      eapply Forall_moved; [exact Hall|exact Ht|by left|done|].
      intros i x _ _ Hx. split; [done|by apply waits_or_publishes_wake].
    + destruct Hth as [-> ->]. injection Hs as <-. right.
      exists t0, tok. simpl. split; [done|]. right. do 2 (split; [done|]).
      eapply Forall_moved; [exact Hall|exact Ht|by right|done|].
      intros i x Hne Hx HQ.
      pose proof (others_not_refreshing _ _ _ _ _ Hc Ht eq_refl Hne Hx) as Hn.
      by destruct x as [| | | |[?|] [|]| | | |].
  - (* the token is published *)
    assert (still_fresh (clock p) (Some tok) = true) as Hfr.
    { destruct (Hf t0 (Reply (Some tok, None))) as (tok' & [= <-] & Hfr).
      - destruct (step_frame t p p') as (_ & _ & _ & [[-> _]|(w & r & _ & _ & -> & _)]).
        + unfold step. by rewrite Ht.
        + rewrite Hh. by apply list_elem_of_singleton.
        + rewrite Hh. apply elem_of_app. left. by apply list_elem_of_singleton.
      - by rewrite <- Hck. }
    destruct th as [| | | |a sr| |local ret|local ret|r]; simpl in Hth;
      try done.
    + destruct (lock p); [done|]. injection Hs as <-. right.
      exists t0, tok. simpl. split; [done|]. right. do 2 (split; [done|]).
      eapply Forall_moved; [exact Hall|exact Ht|by left|done|].
      intros i x _ _ Hx. split; [done|by apply waits_or_has_wake].
    + unfold loop_body in Hs. rewrite Htok, Hfr in Hs. simpl in Hs.
      injection Hs as <-. right.
      exists t0, tok. simpl. split; [done|]. right. do 2 (split; [done|]).
      eapply Forall_moved; [exact Hall|exact Ht|by left|done|].
      intros i x _ _ Hx. split; [done|by apply waits_or_has_wake].
    + destruct (lock p); [done|]. injection Hs as <-. right.
      exists t0, tok. simpl. split; [done|]. right. do 2 (split; [done|]).
      eapply Forall_moved; [exact Hall|exact Ht|by left|done|].
      intros i x _ _ Hx. split; [done|by apply waits_or_has_wake].
    + destruct Hth as [-> ->]. injection Hs as <-. right.
      exists t0, tok. simpl. split; [done|]. right. do 2 (split; [done|]).
      eapply Forall_moved; [exact Hall|exact Ht|by left|done|].
      intros i x _ _ Hx. split; [done|by apply waits_or_has_wake].
Qed.

Lemma run_app (acts1 acts2 : list action) (p : Pool) :
  run (acts1 ++ acts2) p
  = match run acts1 p with Some p' => run acts2 p' | None => None end.
Proof.
  revert p. induction acts1 as [|a acts1 IH]; intros p; simpl; [done|].
  by destruct (exec a p).
Qed.

(** Whoever holds [cond.L] lets go of it within two steps, without
    touching a caller that is refreshing. *)
Lemma lock_released (p : Pool) (t : nat) (th : Thread) :
  consistent p -> threads p !! t = Some th ->
  in_refresh th = true -> holds_lock th = false ->
  exists acts p',
    run acts p = Some p' /\ lock p' = None /\ threads p' !! t = Some th
    /\ consistent p'.
Proof.
  intros Hc Ht Hr Hh. destruct (lock p) as [t'|] eqn:Hl.
  2: { by exists [], p. }
  pose proof Hc as (_ & I2 & I3 & _).
  destruct (I2 _ Hl) as (th' & Ht' & Hh').
  assert (t' <> t) as Hne by (intros ->; congruence).
  assert (forall x q, step t' p = Some q ->
            threads q = <[t' := x]> (threads p) -> threads q !! t = Some th)
    as Hkeep.
  { intros x q _ ->. by rewrite list_lookup_insert_ne. }
  destruct th' as [| | | |a sr| |local ret|local ret|r]; try done.
  - destruct (step t' p) as [p1|] eqn:Hs1.
    2: { unfold step in Hs1. rewrite Ht' in Hs1.
         by destruct (loop_body _ _) as [c [?| |]]. }
    pose proof (step_consistent _ _ _ Hc Hs1) as Hc1.
    pose proof Hs1 as Hs1'. unfold step in Hs1'. rewrite Ht' in Hs1'.
    destruct (loop_body (clock p) (entry p)) as [c [tok| |]];
      injection Hs1' as Hp1.
    + assert (threads p1 !! t' = Some (AtUnlock tok false)) as Ht1.
      { rewrite <- Hp1. simpl. apply list_lookup_insert_eq.
        by eapply lookup_lt_Some. }
      assert (threads p1 !! t = Some th) as Htt.
      { rewrite <- Hp1. simpl. by rewrite list_lookup_insert_ne. }
      destruct (step t' p1) as [p2|] eqn:Hs2.
      2: { unfold step in Hs2. by rewrite Ht1 in Hs2. }
      exists [Run t'; Run t'], p2. simpl. rewrite Hs1, Hs2.
      split; [done|]. unfold step in Hs2. rewrite Ht1 in Hs2.
      injection Hs2 as <-. simpl. split; [done|].
      split; [by rewrite list_lookup_insert_ne|].
      eapply step_consistent; [exact Hc1|].
      unfold step. by rewrite Ht1.
    + assert (threads p1 !! t' = Some (AtUnlock None true)) as Ht1.
      { rewrite <- Hp1. simpl. apply list_lookup_insert_eq.
        by eapply lookup_lt_Some. }
      assert (threads p1 !! t = Some th) as Htt.
      { rewrite <- Hp1. simpl. by rewrite list_lookup_insert_ne. }
      destruct (step t' p1) as [p2|] eqn:Hs2.
      2: { unfold step in Hs2. by rewrite Ht1 in Hs2. }
      exists [Run t'; Run t'], p2. simpl. rewrite Hs1, Hs2.
      split; [done|]. unfold step in Hs2. rewrite Ht1 in Hs2.
      injection Hs2 as <-. simpl. split; [done|].
      split; [by rewrite list_lookup_insert_ne|].
      eapply step_consistent; [exact Hc1|].
      unfold step. by rewrite Ht1.
    + exists [Run t'], p1. simpl. rewrite Hs1. split; [done|].
      rewrite <- Hp1. simpl. split; [done|].
      split; [by rewrite list_lookup_insert_ne|]. by rewrite Hp1.
  - destruct (step t' p) as [p1|] eqn:Hs1.
    2: { unfold step in Hs1. by rewrite Ht' in Hs1. }
    pose proof (step_consistent _ _ _ Hc Hs1) as Hc1.
    exists [Run t'], p1. simpl. rewrite Hs1. split; [done|].
    unfold step in Hs1. rewrite Ht' in Hs1. injection Hs1 as <-. simpl.
    split; [done|]. split; [by rewrite list_lookup_insert_ne|done].
  - by destruct (Hne (I3 _ _ _ _ Ht' Ht eq_refl Hr)).
Qed.

(** From the deferred function's [Lock()] on, two steps of the refresher
    finish the refresh. *)
Lemma deferred_runs (p : Pool) (t : nat)
    (local : option AccessToken)
    (ret : reply (option AccessToken * option error)) :
  threads p !! t = Some (AtDeferLock local ret) -> lock p = None ->
  exists p',
    run [Run t; Run t] p = Some p'
    /\ threads p' !! t = Some (Finished (after_refresh ret))
    /\ refreshing (entry p') = false.
Proof.
  intros Ht Hl. pose proof (lookup_lt_Some _ _ _ Ht) as Hlen.
  simpl. unfold step at 1. rewrite Ht, Hl.
  unfold step. simpl. rewrite list_lookup_insert_eq by done.
  eexists. split; [done|]. simpl. split; [|done].
  apply list_lookup_insert_eq. unfold Broadcast.
  by rewrite length_fmap, length_insert.
Qed.

(** A caller that is refreshing can always be run to the end of its
    refresh, and the flag is clear when it gets there. *)
Lemma refresh_can_finish (p : Pool) (t : nat) (th : Thread) :
  consistent p -> threads p !! t = Some th -> in_refresh th = true ->
  exists acts p' r,
    run acts p = Some p' /\ threads p' !! t = Some (Finished r)
    /\ refreshing (entry p') = false.
Proof.
  intros Hc Ht Hr. pose proof (lookup_lt_Some _ _ _ Ht) as Hlen.
  destruct th as [| | | |a sr| |local ret|local ret|r]; try done.
  - (* line 138 *)
    destruct sr; [|done].
    destruct (call_GetAccessToken (sc_credential (entry p))
                (sc_scopes (entry p)) (env p)) as [env' rep] eqn:Ecall.
    destruct (refresh_body rep) as [local ret] eqn:Eb.
    set (p2 := {| entry := entry p; lock := None; clock := clock p;
                  env := env';
                  threads := <[t := AtDeferLock local ret]> (threads p);
                  history := history p ++ [(t, rep)] |}).
    destruct (deferred_runs p2 t local ret) as (p' & Hrun & Hfin & Hfl).
    { simpl. by apply list_lookup_insert_eq. }
    { done. }
    exists ([Run t; Run t] ++ [Run t; Run t]), p', (after_refresh ret).
    split; [|done]. rewrite run_app.
    assert (run [Run t; Run t] p = Some p2) as ->; [|done].
    simpl. unfold step at 1. rewrite Ht. unfold step. simpl.
    rewrite list_lookup_insert_eq by done. rewrite Ecall, Eb.
    by rewrite list_insert_insert_eq.
  - (* line 167 *)
    destruct (lock_released p t AtAcquire Hc Ht eq_refl eq_refl)
      as (acts1 & p1 & Hrun1 & Hl1 & Ht1 & _).
    destruct (call_GetAccessToken (sc_credential (entry p1))
                (sc_scopes (entry p1)) (env p1)) as [env' rep] eqn:Ecall.
    destruct (refresh_body rep) as [local ret] eqn:Eb.
    set (p2 := {| entry := entry p1; lock := lock p1; clock := clock p1;
                  env := env';
                  threads := <[t := AtDeferLock local ret]> (threads p1);
                  history := history p1 ++ [(t, rep)] |}).
    destruct (deferred_runs p2 t local ret) as (p' & Hrun & Hfin & Hfl).
    { simpl. apply list_lookup_insert_eq. by eapply lookup_lt_Some. }
    { done. }
    exists (acts1 ++ [Run t] ++ [Run t; Run t]), p', (after_refresh ret).
    split; [|done]. rewrite run_app, Hrun1, run_app.
    assert (run [Run t] p1 = Some p2) as ->; [|done].
    simpl. unfold step. by rewrite Ht1, Ecall, Eb.
  - (* line 155 *)
    destruct (lock_released p t _ Hc Ht eq_refl eq_refl)
      as (acts1 & p1 & Hrun1 & Hl1 & Ht1 & _).
    destruct (deferred_runs p1 t local ret Ht1 Hl1) as (p' & Hrun & Hfin & Hfl).
    exists (acts1 ++ [Run t; Run t]), p', (after_refresh ret).
    split; [|done]. by rewrite run_app, Hrun1.
  - (* lines 157-164 *)
    eexists [Run t], _, _. simpl. unfold step. rewrite Ht.
    split; [done|]. simpl. split; [|done].
    apply list_lookup_insert_eq. unfold Broadcast. by rewrite length_fmap.
Qed.

Lemma acquisitions_history (cr : TokenCredential)
    (sc : list string)
    (h : list (nat * reply (option AccessToken * option error))) :
  acquisitions ((fun x => EvGetAccessToken cr sc x.2) <$> h) = length h.
Proof.
  unfold acquisitions. induction h as [|x h IH]; [done|].
  rewrite fmap_cons, filter_cons_True by done. simpl. by rewrite IH.
Qed.

Lemma start_single_flight (c : scopesCacheEntry) (now : Z)
    (e : Env) (n : nat) :
  single_flight c (start c now e n).
Proof. left. simpl. do 2 (split; [done|]). by apply Forall_replicate. Qed.

(** Everything that holds of a pool that [n] callers have got into. *)
Lemma run_invariants (c0 : scopesCacheEntry) (now0 : Z)
    (env0 : Env) (n : nat) (acts : list action) (p : Pool) :
  refreshing c0 = false ->
  run acts (start c0 now0 env0 n) = Some p ->
  consistent p /\ attributed p /\ tracks c0 now0 env0 p
  /\ (still_fresh now0 (accessToken c0) = false -> all_fresh p ->
      single_flight c0 p).
Proof.
  intros Hr Hrun.
  apply (run_invariant
           (fun q => consistent q /\ attributed q /\ tracks c0 now0 env0 q
                     /\ (still_fresh now0 (accessToken c0) = false ->
                         all_fresh q -> single_flight c0 q))
           acts (start c0 now0 env0 n) p); [|split; [|split; [|split]]|done].
  - intros a q q' (Hc & Ha & Ht & Hsf) He.
    split; [by eapply exec_consistent|]. split; [|split].
    + destruct a as [d|t]; simpl in He; [|by eapply step_attributed].
      destruct (0 <=? d); [|done]. by injection He as <-.
    + by eapply exec_tracks.
    + intros Hst Hf. pose proof (exec_all_fresh _ _ _ He Hf) as Hf0.
      destruct a as [d|t]; simpl in He;
        [|by apply (step_single_flight c0 now0 env0 t q q'); auto].
      destruct (0 <=? d); [|done]. injection He as <-. by apply Hsf.
  - by apply start_consistent.
  - by intros t th [-> _]%lookup_replicate.
  - apply start_tracks.
  - intros _ _. apply start_single_flight.
Qed.


(** C2: a refresh whose acquisition returns an error leaves the cached
    token as it was and returns the error; the cached token of an entry
    only ever changes to the token of a successful acquisition, in the
    deferred function of the caller that made it; and a caller to whom an
    error is returned has made the acquisition that failed with it. *)
Theorem failed_refresh_keeps_token :
  (forall (c : scopesCacheEntry) (env : Env)
          (w : World) (tok : option AccessToken) (err : error),
      GetAccessToken (sc_credential c) (sc_scopes c) (world env)
      = (w, Reply (tok, Some err)) ->
      refreshAccessToken c env
      = ({| sc_credential := sc_credential c; sc_scopes := sc_scopes c;
            refreshing := false; accessToken := accessToken c |},
         {| world := w;
            trace := trace env
                     ++ [EvGetAccessToken (sc_credential c) (sc_scopes c)
                           (Reply (tok, Some err))] |},
         Reply (None, Some err)))
  /\ (forall (c : scopesCacheEntry) (env : Env),
        accessToken (refreshAccessToken c env).1.1 <> accessToken c ->
        exists w tok,
          GetAccessToken (sc_credential c) (sc_scopes c) (world env)
          = (w, Reply (Some tok, None))
          /\ accessToken (refreshAccessToken c env).1.1 = Some tok)
  /\ (forall (c0 : scopesCacheEntry) (now0 : Z)
             (env0 : Env) (n : nat) (acts : list action)
             (p : Pool),
        refreshing c0 = false ->
        run acts (start c0 now0 env0 n) = Some p ->
        (forall t s err,
            threads p !! t = Some (Finished (Returns (s, Some err))) ->
            s = ""%string
            /\ exists tok, (t, Reply (tok, Some err)) ∈ history p)
        /\ forall t p',
            step t p = Some p' ->
            accessToken (entry p') <> accessToken (entry p) ->
            exists tok,
              threads p !! t
              = Some (InDefer (Some tok) (Reply (Some tok, None)))
              /\ (t, Reply (Some tok, None)) ∈ history p
              /\ accessToken (entry p') = Some tok).
Proof.
  split; [|split].
  - intros c env w tok err HG.
    unfold refreshAccessToken, call_GetAccessToken. by rewrite HG.
  - intros c env. unfold refreshAccessToken, call_GetAccessToken.
    destruct (GetAccessToken _ _ _) as [w [[[tok|] [err|]]|]]; simpl;
      try done.
    intros _. by exists w, tok.
  - intros c0 now0 env0 n acts p Hr Hrun.
    destruct (run_invariants _ _ _ _ _ _ Hr Hrun) as (_ & Ha & _).
    split; [intros t s err Ht; by apply (Ha _ _ Ht)|].
    intros t p' Hs Hne. unfold step in Hs.
    destruct (threads p !! t) as [th|] eqn:Ht; [|done].
    pose proof (Ha _ _ Ht) as Hown.
    destruct th as [| | | |a sr| |local ret|local ret|r]; simpl in *;
      try done.
    + destruct (lock p); [done|]. by injection Hs as <-.
    + pose proof (loop_body_keeps (clock p) (entry p)) as (_ & _ & Hk).
      destruct (loop_body (clock p) (entry p)) as [c [tok| |]];
        by injection Hs as <-.
    + destruct (lock p); [done|]. by injection Hs as <-.
    + by injection Hs as <-.
    + destruct (call_GetAccessToken _ _ _) as [env' r].
      destruct (refresh_body r) as [local ret]. by injection Hs as <-.
    + destruct (lock p); [done|]. by injection Hs as <-.
    + injection Hs as <-. simpl in Hne.
      destruct local as [tok|]; [|done]. exists tok.
      destruct Hown as (rep & Hin & Hb).
      destruct rep as [[tok' [err|]]|]; simpl in Hb; try done.
      injection Hb as -> <-. done.
Qed.

(** C3: however the credential's call ends (a token, an error, a panic),
    [refreshAccessToken] exits through the deferred function, which clears
    [refreshing]; the step by which a caller stops refreshing leaves the
    flag clear, the mutex free and no caller parked, every caller that was
    parked having been woken; and a caller that is refreshing can always
    be run to that step. *)
Theorem refresh_always_cleans_up :
  (forall (c : scopesCacheEntry) (env : Env)
          (w : World) (rep : reply (option AccessToken * option error)),
      GetAccessToken (sc_credential c) (sc_scopes c) (world env) = (w, rep) ->
      refreshAccessToken c env
      = (refresh_deferred c (refresh_body rep).1,
         {| world := w;
            trace := trace env
                     ++ [EvGetAccessToken (sc_credential c) (sc_scopes c) rep]
         |},
         (refresh_body rep).2)
      /\ refreshing (refreshAccessToken c env).1.1 = false)
  /\ (forall (t : nat) (p p' : Pool) (th th' : Thread),
        step t p = Some p' ->
        threads p !! t = Some th -> threads p' !! t = Some th' ->
        in_refresh th = true -> in_refresh th' = false ->
        refreshing (entry p') = false /\ lock p' = None
        /\ (forall i, threads p !! i = Some Parked ->
              threads p' !! i = Some Notified)
        /\ forall i, threads p' !! i <> Some Parked)
  /\ (forall (c0 : scopesCacheEntry) (now0 : Z)
             (env0 : Env) (n : nat) (acts : list action)
             (p : Pool) (t : nat) (th : Thread),
        refreshing c0 = false ->
        run acts (start c0 now0 env0 n) = Some p ->
        threads p !! t = Some th -> in_refresh th = true ->
        exists acts' p' r,
          run acts' p = Some p' /\ threads p' !! t = Some (Finished r)
          /\ refreshing (entry p') = false).
Proof.
  split; [|split].
  - intros c env w rep HG.
    unfold refreshAccessToken, call_GetAccessToken. rewrite HG.
    by destruct (refresh_body rep).
  - intros t p p' th th' Hs Ht Ht' Hr Hr'.
    pose proof (lookup_lt_Some _ _ _ Ht) as Hlen.
    unfold step in Hs. rewrite Ht in Hs.
    destruct th as [| | | |a sr| |local ret|local ret|r]; simpl in *;
      try done.
    + destruct sr; [|done]. injection Hs as <-. simpl in Ht'.
      rewrite list_lookup_insert_eq in Ht' by done. by injection Ht' as <-.
    + destruct (call_GetAccessToken _ _ _) as [env' r].
      destruct (refresh_body r) as [local ret]. injection Hs as <-.
      simpl in Ht'. rewrite list_lookup_insert_eq in Ht' by done.
      by injection Ht' as <-.
    + destruct (lock p); [done|]. injection Hs as <-. simpl in Ht'.
      rewrite list_lookup_insert_eq in Ht' by done. by injection Ht' as <-.
    + injection Hs as <-. simpl. do 2 (split; [done|]). split.
      * intros i Hi. assert (i <> t) as Hne by (intros ->; congruence).
        rewrite list_lookup_insert_ne by done. unfold Broadcast.
        by rewrite list_lookup_fmap, Hi.
      * intros i Hi. destruct (decide (i = t)) as [->|Hne].
        -- rewrite list_lookup_insert_eq in Hi; [done|].
           unfold Broadcast. by rewrite length_fmap.
        -- rewrite list_lookup_insert_ne in Hi by done. unfold Broadcast in Hi.
           rewrite list_lookup_fmap in Hi.
           destruct (threads p !! i) as [[| | | |? ?| |? ?|? ?|?]|]; done.
  - intros c0 now0 env0 n acts p t th Hr Hrun Ht Hin.
    destruct (run_invariants _ _ _ _ _ _ Hr Hrun) as (Hc & _).
    by eapply refresh_can_finish.
Qed.

(** One caller alone in the pool does what [scopesCacheEntry.getAccessToken]
    does for one caller at a time. *)
Lemma alone_agrees (c : scopesCacheEntry) (now : Z)
    (e : Env) :
  exists acts p,
    run acts (start c now e 1) = Some p
    /\ (entry p, env p) = (scopesCacheEntry_getAccessToken now c e).1
    /\ threads p
       = [match (scopesCacheEntry_getAccessToken now c e).2 with
          | Blocks => Parked
          | r => Finished r
          end].
Proof.
  destruct (scopesCacheEntry_getAccessToken_cases now c e)
    as [[Hf ->]|[(Hf & Hr & ->)|(Hf & Hr & w & rep & HG & ->)]].
  - exists [Run 0; Run 0; Run 0]%nat. eexists. simpl. unfold step. simpl.
    rewrite loop_body_fresh by done. simpl. split; [done|]. split; [done|].
    destruct (accessToken c); [done|]. by simpl in Hf.
  - exists [Run 0; Run 0]%nat. eexists. simpl. unfold step. simpl.
    by rewrite loop_body_wait.
  - destruct (refresh_body rep) as [local ret] eqn:Eb.
    exists [Run 0; Run 0; Run 0; Run 0; Run 0; Run 0]%nat. eexists. simpl.
    unfold step, refresh_deferred. simpl. rewrite loop_body_claim by done.
    simpl. unfold call_GetAccessToken. simpl. rewrite HG, Eb. simpl.
    split; [reflexivity|]. simpl. split; [reflexivity|].
    pose proof (after_refresh_not_Blocks ret). by destruct (after_refresh ret).
Qed.

End Properties.

(** ** The properties at work *)


(** A credential that answers with an empty token string: the facade
    returns the empty string and no error. *)
Lemma blank_token_returned :
  (tokenCacheImpl_GetAccessToken 0 NewConcurrentTokenCache env0 blank
     ["s"%string]).2
  = Returns (""%string, None).
Proof. vm_compute. reflexivity. Qed.

(** [["b"; "a"]] and [["a"; "b"]] both get the key ["a b"]. *)
Lemma getKeyForScopes_normalises_witness :
  (1 < length ["b"; "a"]%string)%nat
  /\ ["b"; "a"]%string ≡ₚ ["a"; "b"]%string
  /\ getKeyForScopes ["b"; "a"]%string = "a b"%string
  /\ getKeyForScopes ["b"; "a"]%string = getKeyForScopes ["a"; "b"]%string.
Proof.
  destruct (@getKeyForScopes_normalises nat string) as (H1 & _ & _ & H4).
  assert (1 < length ["b"; "a"]%string)%nat as Hl by (simpl; lia).
  assert (["b"; "a"]%string ≡ₚ ["a"; "b"]%string) as Hp by apply perm_swap.
  split; [exact Hl|]. split; [exact Hp|]. split.
  - destruct (H1 _ Hl) as [-> _]. vm_compute. reflexivity.
  - apply (H4 _ _ Hp).
Defined.

(** One nanosecond either side of the two-minute buffer: short of it the
    cached ["T0"] gives way to the credential's ["T1"], beyond it ["T0"] is
    served and the credential is not called. *)
Lemma freshness_boundary_witness :
  scopesCacheEntry_getAccessToken 0
    (entry_for hourly (Some {| Token := "T0"; ExpiresOn := 2 * Minute - 1 |}))
    env0
  = (entry_for hourly (Some {| Token := "T1"; ExpiresOn := Hour |}),
     {| world := 1%nat;
        trace := [EvGetAccessToken hourly ["s"%string]
                    (Reply (Some {| Token := "T1"; ExpiresOn := Hour |},
                            None))] |},
     Returns ("T1"%string, None))
  /\ scopesCacheEntry_getAccessToken 0
       (entry_for hourly (Some {| Token := "T0"; ExpiresOn := 2 * Minute + 1 |}))
       env0
     = (entry_for hourly (Some {| Token := "T0"; ExpiresOn := 2 * Minute + 1 |}),
        env0, Returns ("T0"%string, None)).
Proof.
  split.
  - destruct (freshness_boundary 0
                (entry_for hourly
                   (Some {| Token := "T0"; ExpiresOn := 2 * Minute - 1 |}))
                env0 {| Token := "T0"; ExpiresOn := 2 * Minute - 1 |} eq_refl)
      as [Hm _].
    destruct (Hm eq_refl) as (_ & Hr & _).
    destruct (Hr eq_refl) as (w & rep & Hcall & Hres).
    vm_compute in Hcall. injection Hcall as <- <-. exact Hres.
  - destruct (freshness_boundary 0
                (entry_for hourly
                   (Some {| Token := "T0"; ExpiresOn := 2 * Minute + 1 |}))
                env0 {| Token := "T0"; ExpiresOn := 2 * Minute + 1 |} eq_refl)
      as [_ Hp].
    exact (Hp eq_refl).
Defined.

(** A first call acquires ["T1"]; calls one and two minutes later get it
    from the cache. *)
Lemma cached_token_reused_witness :
  exists c1 env1,
    tokenCacheImpl_GetAccessToken 0 NewConcurrentTokenCache env0 hourly
      ["s"%string]
    = (c1, env1, Returns ("T1"%string, None))
    /\ still_fresh Minute (cached_token c1 (GetCacheKey hourly) ["s"%string])
       = true
    /\ tokenCacheImpl_GetAccessToken Minute c1 env1 hourly ["s"%string]
       = (c1, env1, Returns ("T1"%string, None))
    /\ (acquisitions (trace env1) <= S (acquisitions (trace env0)))%nat
    /\ tokenCacheImpl_GetAccessToken (2 * Minute) c1 env1 hourly ["s"%string]
       = (c1, env1, Returns ("T1"%string, None)).
Proof.
  eexists. eexists.
  split; [vm_compute; reflexivity|].
  split; [vm_compute; reflexivity|].
  match goal with
  | |- tokenCacheImpl_GetAccessToken _ ?c1 ?e1 _ _ = _ /\ _ =>
      pose proof (cached_token_reused 0 Minute NewConcurrentTokenCache c1
                    env0 e1 hourly ["s"%string]
                    {| Token := "T1"; ExpiresOn := Hour |} "T1") as [_ H2];
      pose proof (cached_token_reused (2 * Minute) 0 c1 c1
                    e1 e1 hourly ["s"%string]
                    {| Token := "T1"; ExpiresOn := Hour |} "T1") as [H1 _]
  end.
  destruct H2 as [Ha Hb]; [vm_compute; reflexivity..|].
  split; [exact Ha|]. split; [exact Hb|].
  apply H1; [|vm_compute; reflexivity..].
  eapply (tokenCacheImpl_GetAccessToken_wf 0 NewConcurrentTokenCache _ env0 _
            hourly ["s"%string]); [vm_compute; reflexivity|apply wf_empty].
Defined.

(** [Init] fails once, is tried again, succeeds, and is left alone from
    then on. *)
Lemma ensureInitialized_retries_until_success_witness :
  ensureInitialized (uninitialised flaky) env0
  = (uninitialised flaky,
     {| world := 1%nat;
        trace := [EvInit flaky (Reply (Some "no identity"%string))] |},
     Reply (Some "no identity"%string))
  /\ ensureInitialized (uninitialised flaky)
       {| world := 1%nat;
          trace := [EvInit flaky (Reply (Some "no identity"%string))] |}
     = ({| cc_credential := flaky; credInit := 1; cc_cache := ∅ |},
        {| world := 2%nat;
           trace := [EvInit flaky (Reply (Some "no identity"%string));
                     EvInit flaky (Reply None)] |},
        Reply None)
  /\ ensureInitialized
       {| cc_credential := flaky; credInit := 1; cc_cache := ∅ |} env0
     = ({| cc_credential := flaky; credInit := 1; cc_cache := ∅ |}, env0,
        Reply None)
  /\ exists e',
      tc_cache
        (calls [(0, flaky, ["s"%string]); (Minute, flaky, ["t"%string])]
           {| tc_cache :=
                {[ "azr1"%string :=
                     {| cc_credential := flaky; credInit := 1;
                        cc_cache := ∅ |} ]} |} env0).1
        !! "azr1"%string = Some e'
      /\ credInit e' = 1.
Proof.
  destruct (@ensureInitialized_retries_until_success nat string)
    as (Ha & Hb & Hc & Hd).
  split; [|split; [|split]].
  - apply (Ha (uninitialised flaky) env0 1%nat "no identity"%string);
      reflexivity.
  - apply (Hb (uninitialised flaky)
             {| world := 1%nat;
                trace := [EvInit flaky (Reply (Some "no identity"%string))] |}
             2%nat); reflexivity.
  - apply (Hc {| cc_credential := flaky; credInit := 1; cc_cache := ∅ |} env0).
    simpl. lia.
  - destruct (Hd [(0, flaky, ["s"%string]); (Minute, flaky, ["t"%string])]
                {| tc_cache :=
                     {[ "azr1"%string :=
                          {| cc_credential := flaky; credInit := 1;
                             cc_cache := ∅ |} ]} |} env0 "azr1"%string
                {| cc_credential := flaky; credInit := 1; cc_cache := ∅ |})
      as [(e' & He' & Hi' & _) _].
    + intros k e. simpl. intros [<- <-]%lookup_singleton_Some. simpl.
      split; [done|]. intros ks se. by rewrite lookup_empty.
    + simpl. apply lookup_singleton_eq.
    + simpl. lia.
    + by exists e'.
Defined.

(** After [hourly] has been registered under its key, a call that passes
    [impostor] gets a token of [hourly]. *)
Lemma first_registered_credential_wins_witness :
  exists c1 env1,
    tokenCacheImpl_GetAccessToken 0 NewConcurrentTokenCache env0 hourly
      ["s"%string]
    = (c1, env1, Returns ("T1"%string, None))
    /\ (exists e, tc_cache c1 !! "azr1"%string = Some e
                  /\ cc_credential e = hourly)
    /\ tokenCacheImpl_GetAccessToken (2 * Hour) c1 env1 impostor ["s"%string]
       = tokenCacheImpl_GetAccessToken (2 * Hour) c1 env1 hourly ["s"%string]
    /\ (tokenCacheImpl_GetAccessToken (2 * Hour) c1 env1 impostor
          ["s"%string]).2
       = Returns ("T1"%string, None).
Proof.
  eexists. eexists.
  split; [vm_compute; reflexivity|].
  match goal with
  | |- _ /\ tokenCacheImpl_GetAccessToken _ ?c1 ?e1 _ _ = _ /\ _ =>
      pose proof (first_registered_credential_wins 0 NewConcurrentTokenCache
                    env0 hourly ["s"%string]) as [H1 _];
      pose proof (first_registered_credential_wins (2 * Hour) c1 e1 impostor
                    ["s"%string]) as [_ H2];
      assert (wf c1) as Hwf
  end.
  { eapply (tokenCacheImpl_GetAccessToken_wf 0 NewConcurrentTokenCache _ env0 _
              hourly ["s"%string]); [vm_compute; reflexivity|apply wf_empty]. }
  split.
  - destruct H1 as (e' & He' & Hc'); [reflexivity|].
    exists e'. split; [|exact Hc']. exact He'.
  - destruct H1 as (e' & He' & Hc'); [reflexivity|].
    destruct (H2 e' Hwf He') as (Heq & _). rewrite Hc' in Heq.
    split; [exact Heq|]. rewrite Heq. vm_compute. reflexivity.
Defined.

(** A call that fails in [Init], then one that succeeds with the
    credential's ["T1"]. *)
Lemma GetAccessToken_result_witness :
  exists c1 env1,
    tokenCacheImpl_GetAccessToken 0 NewConcurrentTokenCache env0 flaky
      ["s"%string]
    = (c1, env1, Returns (""%string, Some "no identity"%string))
    /\ wf c1 /\ idle c1
    /\ exists c2 env2 s,
        tokenCacheImpl_GetAccessToken 0 c1 env1 flaky ["s"%string]
        = (c2, env2, Returns (s, None))
        /\ s <> ""%string
        /\ exists tok, cached_token c2 (GetCacheKey flaky) ["s"%string]
                       = Some tok
                       /\ s = Token tok.
Proof.
  destruct (tokenCacheImpl_GetAccessToken 0 NewConcurrentTokenCache env0 flaky
              ["s"%string]) as [[c1 env1] r1] eqn:E1.
  assert (r1 = Returns (""%string, Some "no identity"%string)) as ->.
  { vm_compute in E1. by injection E1 as _ _ <-. }
  destruct (GetAccessToken_result _ _ _ _ _ _ _ _ E1)
    as (_ & _ & _ & _ & Hw & Hi).
  exists c1, env1. split; [reflexivity|].
  split; [exact (Hw wf_empty)|]. split; [exact (proj1 (Hi idle_empty))|].
  destruct (tokenCacheImpl_GetAccessToken 0 c1 env1 flaky ["s"%string])
    as [[c2 env2] r2] eqn:E2.
  assert (r2 = Returns ("T1"%string, None)) as ->.
  { vm_compute in E1. injection E1 as <- <-. vm_compute in E2.
    by injection E2 as _ _ <-. }
  destruct (GetAccessToken_result _ _ _ _ _ _ _ _ E2) as (Hs & Hn & _).
  exists c2, env2, "T1"%string. split; [reflexivity|].
  split; [|exact (Hs _ eq_refl)].
  apply (Hn _ [EvInit flaky (Reply None);
               EvGetAccessToken flaky ["s"%string]
                 (Reply (Some {| Token := "T1"; ExpiresOn := Hour |}, None))]
            eq_refl).
  - vm_compute in E1. injection E1 as <- <-. vm_compute in E2.
    injection E2 as _ <-. vm_compute. reflexivity.
  - intros tok. vm_compute in E1. injection E1 as <- <-. vm_compute.
    discriminate.
  - intros cr sc tok Hev.
    apply elem_of_cons in Hev as [Hev|Hev]; [discriminate Hev|].
    apply list_elem_of_singleton in Hev. injection Hev as _ _ ->.
    discriminate.
Defined.


(** A failing acquisition keeps the old token, and the caller that made it
    is the one that gets the error. *)
Lemma failed_refresh_keeps_token_witness :
  accessToken
    (refreshAccessToken
       (entry_for flaky (Some {| Token := "T0"; ExpiresOn := Minute |}))
       env0).1.1
  = Some {| Token := "T0"; ExpiresOn := Minute |}
  /\ exists p,
      run second_waits (start (entry_for flaky None) 0 env0 2) = Some p
      /\ threads p !! 0%nat
         = Some (Finished (Returns (""%string, Some "timeout"%string)))
      /\ exists tok, (0%nat, Reply (tok, Some "timeout"%string)) ∈ history p.
Proof.
  destruct (@failed_refresh_keeps_token nat string) as (Ha & _ & Hc).
  split.
  - rewrite (Ha (entry_for flaky (Some {| Token := "T0"; ExpiresOn := Minute |}))
               env0 1%nat None "timeout"%string eq_refl).
    reflexivity.
  - destruct (run second_waits (start (entry_for flaky None) 0 env0 2))
      as [p|] eqn:E; [|by vm_compute in E].
    exists p. split; [reflexivity|].
    destruct (Hc (entry_for flaky None) 0 env0 2%nat second_waits p eq_refl E)
      as [Herr _].
    assert (threads p !! 0%nat
            = Some (Finished (Returns (""%string, Some "timeout"%string))))
      as Ht.
    { vm_compute in E. by injection E as <-. }
    split; [exact Ht|]. exact (proj2 (Herr _ _ _ Ht)).
Defined.

(** With caller 0 about to call the credential and caller 1 parked, caller
    0 can be run to the end of its refresh. *)
Lemma refresh_always_cleans_up_witness :
  refreshing (refreshAccessToken (entry_for flaky None) env0).1.1 = false
  /\ exists p,
      run [Run 0; Run 0; Run 0; Run 1; Run 1]%nat
        (start (entry_for flaky None) 0 env0 2) = Some p
      /\ threads p = [AtAcquire; Parked]
      /\ exists acts' p' r,
          run acts' p = Some p' /\ threads p' !! 0%nat = Some (Finished r)
          /\ refreshing (entry p') = false.
Proof.
  destruct (@refresh_always_cleans_up nat string) as (Ha & _ & Hc).
  split.
  - exact (proj2 (Ha (entry_for flaky None) env0 1%nat
                    (Reply (None, Some "timeout"%string)) eq_refl)).
  - destruct (run [Run 0; Run 0; Run 0; Run 1; Run 1]%nat
                (start (entry_for flaky None) 0 env0 2))
      as [p|] eqn:E; [|by vm_compute in E].
    exists p. split; [reflexivity|].
    assert (threads p = [AtAcquire; Parked]) as Ht.
    { vm_compute in E. by injection E as <-. }
    split; [exact Ht|].
    apply (Hc (entry_for flaky None) 0 env0 2%nat
             [Run 0; Run 0; Run 0; Run 1; Run 1]%nat p 0%nat AtAcquire eq_refl E).
    + by rewrite Ht.
    + reflexivity.
Defined.

(** * More properties *)

(** ** Keys of plain scopes *)

Lemma append_String (a : ascii) (s r : string) :
  String a s +:+ r = String a (s +:+ r).
Proof. reflexivity. Qed.

Lemma append_Empty (r : string) : EmptyString +:+ r = r.
Proof. reflexivity. Qed.

Lemma has_space_app (s1 s2 : string) :
  has_space (s1 +:+ s2) = has_space s1 || has_space s2.
Proof.
  induction s1 as [|a s1 IH]; [done|].
  rewrite append_String. simpl. by rewrite IH, orb_assoc.
Qed.

Lemma has_space_joined (x sep_rest : string) :
  has_space (x +:+ " " +:+ sep_rest) = true.
Proof.
  rewrite has_space_app, append_String. simpl. by rewrite orb_true_r.
Qed.

Lemma append_space_inj (x y r r' : string) :
  has_space x = false -> has_space y = false ->
  x +:+ " " +:+ r = y +:+ " " +:+ r' -> x = y /\ r = r'.
Proof.
  revert y. induction x as [|a x IH]; intros [|b y];
    rewrite ?append_String, ?append_Empty; simpl.
  - intros _ _ [= ->]. done.
  - intros _ Hy [= <- _]. done.
  - intros Hx _ [= -> _]. done.
  - intros [_ Hx]%orb_false_elim [_ Hy]%orb_false_elim [= -> H].
    destruct (IH y Hx Hy H) as [-> ->]. done.
Qed.

(** On plain scopes [strings.Join] with a space loses nothing. *)
Lemma Join_plain_inj (l1 l2 : list string) :
  Forall plain l1 -> Forall plain l2 ->
  Join l1 " " = Join l2 " " -> l1 = l2.
Proof.
  revert l2. induction l1 as [|x l1 IH]; intros l2 H1 H2 HJ.
  - destruct l2 as [|y [|z l2]]; [done|..]; simpl in HJ.
    + apply Forall_cons in H2 as [[Hy _] _]. by destruct Hy.
    + apply (f_equal has_space) in HJ. by rewrite has_space_joined in HJ.
  - apply Forall_cons in H1 as [[Hx Hxs] H1].
    destruct l1 as [|x2 l1].
    + destruct l2 as [|y [|z l2]]; simpl in HJ.
      * by destruct Hx.
      * by rewrite HJ.
      * apply (f_equal has_space) in HJ.
        by rewrite has_space_joined, Hxs in HJ.
    + destruct l2 as [|y [|z l2]].
      * apply (f_equal has_space) in HJ. simpl in HJ.
        by rewrite has_space_joined in HJ.
      * apply Forall_cons in H2 as [[_ Hys] _].
        apply (f_equal has_space) in HJ. simpl in HJ.
        by rewrite has_space_joined, Hys in HJ.
      * apply Forall_cons in H2 as [[_ Hys] H2].
        change (x +:+ " " +:+ Join (x2 :: l1) " "
                = y +:+ " " +:+ Join (z :: l2) " ") in HJ.
        destruct (append_space_inj _ _ _ _ Hxs Hys HJ) as [-> HJ'].
        f_equal. by apply IH.
Qed.

(** X1: for scope lists whose scopes are non-empty and contain no space,
    two lists get the same key exactly when they are permutations of each
    other. *)
Theorem plain_scopes_key_iff_permutation (l1 l2 : list string) :
  Forall plain l1 -> Forall plain l2 ->
  (getKeyForScopes l1 = getKeyForScopes l2 <-> l1 ≡ₚ l2).
Proof.
  intros H1 H2. rewrite !getKeyForScopes_sorted. split.
  - intros HJ. apply Join_plain_inj in HJ.
    + by rewrite <- (sort_Strings_Permutation l1), HJ, sort_Strings_Permutation.
    + by rewrite sort_Strings_Permutation.
    + by rewrite sort_Strings_Permutation.
  - intros Hp. by rewrite (sort_Strings_perm_eq l1 l2).
Qed.

(** Two plain scopes in either order. *)
Lemma plain_scopes_key_iff_permutation_witness :
  Forall plain ["https://x/.default"; "offline_access"]%string
  /\ Forall plain ["offline_access"; "https://x/.default"]%string
  /\ getKeyForScopes ["https://x/.default"; "offline_access"]%string
     = getKeyForScopes ["offline_access"; "https://x/.default"]%string.
Proof.
  assert (Forall plain ["https://x/.default"; "offline_access"]%string) as H1
    by (repeat constructor; done).
  assert (Forall plain ["offline_access"; "https://x/.default"]%string) as H2
    by (repeat constructor; done).
  split; [exact H1|]. split; [exact H2|].
  apply (plain_scopes_key_iff_permutation _ _ H1 H2). apply perm_swap.
Defined.

Section MoreProperties.

Context {World error : Type}.

Local Abbreviation TokenCredential := (TokenCredential World error).
Local Abbreviation Env := (Env World error).
Local Abbreviation scopesCacheEntry := (scopesCacheEntry World error).
Local Abbreviation credentialCacheEntry := (credentialCacheEntry World error).
Local Abbreviation tokenCacheImpl := (tokenCacheImpl World error).
Local Abbreviation Pool := (Pool World error).
Local Abbreviation Thread := (Thread error).

(** ** More on one caller at a time *)

Lemma acquisitions_snoc (tr : list (Event World error))
    (cr : TokenCredential) (sc : list string)
    (rep : reply (option AccessToken * option error)) :
  acquisitions (tr ++ [EvGetAccessToken cr sc rep]) = S (acquisitions tr).
Proof. rewrite acquisitions_app. unfold acquisitions at 2. simpl. lia. Qed.

(** A call on an entry with no refresh marked as running makes an
    acquisition exactly when the cached token is missing or not fresh. *)
Lemma acquires_iff_not_fresh (now : Z) (c : scopesCacheEntry) (env : Env) :
  refreshing c = false ->
  (still_fresh now (accessToken c) = true ->
   acquisitions (trace (scopesCacheEntry_getAccessToken now c env).1.2)
   = acquisitions (trace env))
  /\ (still_fresh now (accessToken c) = false ->
      acquisitions (trace (scopesCacheEntry_getAccessToken now c env).1.2)
      = S (acquisitions (trace env))).
Proof.
  intros Hr.
  destruct (scopesCacheEntry_getAccessToken_cases now c env)
    as [[Hf ->]|[(Hf & Hr' & ->)|(Hf & _ & w & rep & _ & ->)]]; simpl.
  - split; [done|]. congruence.
  - congruence.
  - split; [congruence|]. intros _. apply acquisitions_snoc.
Qed.

(** X2: with a token cached and no refresh running, the call is served
    from the cache, entry and world untouched, exactly when the token
    expires more than two minutes after now; a token that expires in
    exactly two minutes already causes an acquisition. *)
Theorem cache_hit_iff_beyond_buffer (now : Z) (c : scopesCacheEntry)
    (env : Env) (tok : AccessToken) :
  accessToken c = Some tok -> refreshing c = false ->
  (now + 2 * Minute < ExpiresOn tok ->
   scopesCacheEntry_getAccessToken now c env
   = (c, env, Returns (Token tok, None)))
  /\ (acquisitions (trace (scopesCacheEntry_getAccessToken now c env).1.2)
      = acquisitions (trace env)
      <-> now + 2 * Minute < ExpiresOn tok)
  /\ (ExpiresOn tok = now + 2 * Minute ->
      acquisitions (trace (scopesCacheEntry_getAccessToken now c env).1.2)
      = S (acquisitions (trace env))).
Proof.
  intros Htok Hr.
  destruct (acquires_iff_not_fresh now c env Hr) as [Hhit Hmiss].
  rewrite Htok in Hhit, Hmiss.
  split; [|split].
  - intros Hf. unfold scopesCacheEntry_getAccessToken.
    rewrite loop_body_fresh; rewrite Htok; [done|by apply still_fresh_Some].
  - split.
    + intros Heq. destruct (still_fresh now (Some tok)) eqn:E.
      * by apply still_fresh_Some.
      * rewrite Hmiss in Heq by done. lia.
    + intros Hf. apply Hhit. by apply still_fresh_Some.
  - intros He. apply Hmiss. apply not_true_is_false.
    rewrite still_fresh_Some. lia.
Qed.

(** X3: the caller that refreshes gets the token it acquired and the entry
    caches it, whatever its expiry: also when it has expired already.  The
    next call on an entry whose token is not fresh acquires again. *)
Theorem refresher_returns_acquired_token (now now2 : Z)
    (c : scopesCacheEntry) (env env2 : Env) (w : World) (tok : AccessToken) :
  still_fresh now (accessToken c) = false -> refreshing c = false ->
  GetAccessToken (sc_credential c) (sc_scopes c) (world env)
  = (w, Reply (Some tok, None)) ->
  scopesCacheEntry_getAccessToken now c env
  = ({| sc_credential := sc_credential c; sc_scopes := sc_scopes c;
        refreshing := false; accessToken := Some tok |},
     {| world := w;
        trace := trace env
                 ++ [EvGetAccessToken (sc_credential c) (sc_scopes c)
                       (Reply (Some tok, None))] |},
     Returns (Token tok, None))
  /\ (ExpiresOn tok <= now2 + 2 * Minute ->
      acquisitions
        (trace (scopesCacheEntry_getAccessToken now2
                  (scopesCacheEntry_getAccessToken now c env).1.1 env2).1.2)
      = S (acquisitions (trace env2))).
Proof.
  intros Hf Hr HG.
  assert (scopesCacheEntry_getAccessToken now c env
          = ({| sc_credential := sc_credential c; sc_scopes := sc_scopes c;
                refreshing := false; accessToken := Some tok |},
             {| world := w;
                trace := trace env
                         ++ [EvGetAccessToken (sc_credential c) (sc_scopes c)
                               (Reply (Some tok, None))] |},
             Returns (Token tok, None))) as Heq.
  { unfold scopesCacheEntry_getAccessToken. rewrite loop_body_claim by done.
    unfold refreshAccessToken, call_GetAccessToken. simpl. by rewrite HG. }
  split; [done|]. intros Hexp. rewrite Heq. simpl.
  apply acquires_iff_not_fresh; [done|].
  apply not_true_is_false.
  change (still_fresh now2 (Some tok) <> true). rewrite still_fresh_Some. lia.
Qed.

(** X4: when [Init] does not succeed (an error or a panic), the call ends
    there: the credential entry is registered as it was (uninitialised and
    without scope entries when it is new), no scope entry is created and
    the credential is not asked for a token. *)
Theorem failed_Init_ends_the_call (now : Z) (c : tokenCacheImpl) (env : Env)
    (credential : TokenCredential) (scopes : list string) (w : World)
    (rep : reply (option error)) :
  let e0 := default {| cc_credential := credential; credInit := 0;
                       cc_cache := ∅ |}
              (tc_cache c !! GetCacheKey credential) in
  credInit e0 = 0 ->
  Init (cc_credential e0) (world env) = (w, rep) ->
  rep <> Reply None ->
  tokenCacheImpl_GetAccessToken now c env credential scopes
  = ({| tc_cache := <[GetCacheKey credential := e0]> (tc_cache c) |},
     {| world := w; trace := trace env ++ [EvInit (cc_credential e0) rep] |},
     match rep with
     | Reply (Some err) => Returns (EmptyString, Some err)
     | _ => Panics
     end).
Proof.
  intros e0 Hi HI Hrep. rewrite tokenCacheImpl_GetAccessToken_eq. fold e0.
  simpl.
  destruct (credentialCacheEntry_getAccessToken_init now e0 env scopes Hi)
    as (w' & rep' & HI' & ->).
  rewrite HI in HI'. injection HI' as <- <-.
  by destruct rep as [[err|]|].
Qed.

(** X5: a call touches one credential entry and, in it, one scope entry:
    the entries under every other credential key and the scope entries
    under every other scope key are what they were; and whatever the
    outcome, the credential key of the call is registered afterwards. *)
Theorem call_touches_one_entry (now : Z) (c c' : tokenCacheImpl)
    (env env' : Env) (credential : TokenCredential) (scopes : list string)
    (r : outcome (string * option error)) :
  tokenCacheImpl_GetAccessToken now c env credential scopes = (c', env', r) ->
  (forall k, k <> GetCacheKey credential ->
     tc_cache c' !! k = tc_cache c !! k)
  /\ (exists e',
        tc_cache c' !! GetCacheKey credential = Some e'
        /\ forall ks, ks <> getKeyForScopes scopes ->
             cc_cache e' !! ks
             = match tc_cache c !! GetCacheKey credential with
               | Some e => cc_cache e !! ks
               | None => None
               end).
Proof.
  intros (e' & He & Hc')%tokenCacheImpl_GetAccessToken_inv. split.
  - intros k Hne. by rewrite Hc', lookup_insert_ne.
  - exists e'. rewrite Hc', lookup_insert_eq. split; [done|]. intros ks Hne.
    apply credentialCacheEntry_getAccessToken_inv in He
      as [(_ & -> & _)|(env1 & se' & _ & _ & ->)].
    + destruct (tc_cache c !! GetCacheKey credential); [done|].
      simpl. apply lookup_empty.
    + simpl. rewrite lookup_insert_ne by done.
      destruct (tc_cache c !! GetCacheKey credential); [done|].
      simpl. apply lookup_empty.
Qed.


(** ** More on the facade *)

(** X6: when a credential call made during a call to the facade panics, or
    [GetAccessToken] answers with neither a token nor an error (the nil
    pointer is then dereferenced at line 147), the call to the facade
    panics; and a call that panics leaves the token cached for the scopes
    as it was. *)
Theorem credential_panics_propagate (now : Z) (c c' : tokenCacheImpl)
    (env env' : Env) (credential : TokenCredential) (scopes : list string)
    (r : outcome (string * option error)) (new : list (Event World error)) :
  tokenCacheImpl_GetAccessToken now c env credential scopes = (c', env', r) ->
  trace env' = trace env ++ new ->
  ((exists ev, ev ∈ new /\ panicking ev = true) -> r = Panics)
  /\ (r = Panics ->
      cached_token c' (GetCacheKey credential) scopes
      = cached_token c (GetCacheKey credential) scopes).
Proof.
  intros H Htr.
  destruct (tokenCacheImpl_GetAccessToken_full _ _ _ _ _ _ _ _ H)
    as [Hct [(Hi & Hc' & w & rep & HI & -> & Hr)
            |(env1 & se' & e' & He1 & Hs & Hk' & Hi' & Hcr' & Hs')]].
  - simpl in Htr. apply app_inv_head in Htr as <-.
    destruct Hr as [[-> ->]|(err & -> & ->)].
    + split; [done|].
      intros _. unfold cached_token. rewrite Hc', lookup_insert_eq.
      destruct (tc_cache c !! GetCacheKey credential) as [e|] eqn:E; [done|].
      simpl. by rewrite lookup_empty.
    + split; [|done].
      intros (ev & Hev & Hp). apply list_elem_of_singleton in Hev as ->. done.
  - rewrite (cached_token_after _ _ _ _ _ Hk' Hs'), Hct.
    assert (exists mid, trace env1 = trace env ++ mid
                        /\ forall ev, ev ∈ mid -> panicking ev = false)
      as (mid & Hmid & Hmidp).
    { destruct He1 as [[_ ->]|(_ & w & _ & ->)].
      - exists []. rewrite app_nil_r. split; [done|]. by intros ev ?%elem_of_nil.
      - eexists [_]. split; [done|]. by intros ev ->%list_elem_of_singleton. }
    set (se0 := default _ (cc_cache _ !! getKeyForScopes scopes)) in *.
    destruct (scopesCacheEntry_getAccessToken_cases now se0 env1)
      as [[Hf Heq]|[(Hf & Hrf & Heq)|(Hf & Hrf & w & rep & HG & Heq)]];
      rewrite Heq in Hs; injection Hs as <- <- <-.
    + rewrite Hmid in Htr. apply app_inv_head in Htr as <-.
      split; [|done].
      intros (ev & Hev & Hp). by rewrite (Hmidp _ Hev) in Hp.
    + rewrite Hmid in Htr. apply app_inv_head in Htr as <-.
      split; [|done].
      intros (ev & Hev & Hp). by rewrite (Hmidp _ Hev) in Hp.
    + simpl in Htr. rewrite Hmid, <- app_assoc in Htr.
      apply app_inv_head in Htr as <-. split.
      * intros (ev & [Hev|Hev]%elem_of_app & Hp).
        -- by rewrite (Hmidp _ Hev) in Hp.
        -- apply list_elem_of_singleton in Hev as ->.
           destruct rep as [[[a|] [err|]]|]; done.
      * intros Hr. destruct rep as [[[a|] [err|]]|]; done.
Qed.

(** A call for scopes whose entry exists, on an initialised credential,
    is the call on that scope entry. *)
Lemma tokenCacheImpl_GetAccessToken_existing (now : Z) (c : tokenCacheImpl)
    (env : Env) (credential : TokenCredential) (scopes : list string)
    (e : credentialCacheEntry) (se : scopesCacheEntry) :
  tc_cache c !! GetCacheKey credential = Some e -> credInit e <> 0 ->
  cc_cache e !! getKeyForScopes scopes = Some se ->
  (tokenCacheImpl_GetAccessToken now c env credential scopes).1.2
  = (scopesCacheEntry_getAccessToken now se env).1.2
  /\ (tokenCacheImpl_GetAccessToken now c env credential scopes).2
     = (scopesCacheEntry_getAccessToken now se env).2.
Proof.
  intros Hk Hi Hs. rewrite tokenCacheImpl_GetAccessToken_eq, Hk. simpl.
  rewrite credentialCacheEntry_getAccessToken_eq, Hs by done. simpl.
  by destruct (scopesCacheEntry_getAccessToken now se env) as [[se' env'] r].
Qed.

(** X7: an error from the acquisition is not remembered: when a call has
    returned the error of an acquisition, the next call for the same
    credential and scopes, at that time or later, asks the credential
    again. *)
Theorem acquisition_errors_are_not_cached (now now2 : Z)
    (c c1 : tokenCacheImpl) (env env1 : Env) (credential : TokenCredential)
    (scopes : list string) (s : string) (err : error) :
  tokenCacheImpl_GetAccessToken now c env credential scopes
  = (c1, env1, Returns (s, Some err)) ->
  acquisitions (trace env1) = S (acquisitions (trace env)) ->
  now <= now2 ->
  acquisitions
    (trace (tokenCacheImpl_GetAccessToken now2 c1 env1 credential scopes).1.2)
  = S (acquisitions (trace env1)).
Proof.
  intros H Hacq Hnow.
  destruct (tokenCacheImpl_GetAccessToken_full _ _ _ _ _ _ _ _ H)
    as [_ [(_ & _ & w & rep & _ & -> & _)
          |(env2 & se' & e' & He2 & Hs & Hk' & Hi' & _ & Hs')]].
  { simpl in Hacq. rewrite acquisitions_app in Hacq.
    unfold acquisitions at 2 in Hacq. simpl in Hacq. lia. }
  destruct (tokenCacheImpl_GetAccessToken_existing now2 c1 env1 credential
              scopes e' se' Hk' Hi' Hs') as [-> _].
  set (se0 := default _ _) in Hs.
  destruct (scopesCacheEntry_getAccessToken_cases now se0 env2)
    as [[Hf Heq]|[(Hf & Hrf & Heq)|(Hf & Hrf & w & rep & HG & Heq)]];
    rewrite Heq in Hs; injection Hs as <- <- Hr.
  - by apply return_token_Returns in Hr as [[=] _].
  - done.
  - apply after_refresh_Returns in Hr as (_ & Hl & _). rewrite Hl.
    apply acquires_iff_not_fresh; [done|]. simpl.
    destruct (still_fresh now2 (accessToken se0)) eqn:E; [|done].
    by rewrite (still_fresh_mono _ _ _ Hnow E) in Hf.
Qed.

(** Scope entries keep their credential and their scope list. *)
Lemma tokenCacheImpl_GetAccessToken_keeps_scopes (now : Z)
    (c c' : tokenCacheImpl) (env env' : Env) (credential : TokenCredential)
    (scopes : list string) (r : outcome (string * option error)) (k ks : string)
    (e : credentialCacheEntry) (se : scopesCacheEntry) :
  tokenCacheImpl_GetAccessToken now c env credential scopes = (c', env', r) ->
  tc_cache c !! k = Some e -> cc_cache e !! ks = Some se ->
  exists e' se',
    tc_cache c' !! k = Some e' /\ cc_cache e' !! ks = Some se'
    /\ sc_scopes se' = sc_scopes se /\ sc_credential se' = sc_credential se.
Proof.
  intros (e' & He & Hc')%tokenCacheImpl_GetAccessToken_inv Hk Hs.
  destruct (decide (GetCacheKey credential = k)) as [<-|Hne].
  2: { exists e, se. by rewrite Hc', lookup_insert_ne. }
  rewrite Hk in He. simpl in He. exists e'. rewrite Hc', lookup_insert_eq.
  apply credentialCacheEntry_getAccessToken_inv in He
    as [(_ & -> & _)|(env1 & se' & _ & Hsc & ->)]; [by exists se|].
  simpl. destruct (decide (getKeyForScopes scopes = ks)) as [<-|Hnes].
  - rewrite Hs in Hsc. simpl in Hsc.
    apply scopesCacheEntry_getAccessToken_frame in Hsc as (Hcr & Hsp & _).
    exists se'. by rewrite lookup_insert_eq.
  - exists se. by rewrite lookup_insert_ne.
Qed.

(** After a write to the shared slice the entry is where it was. *)
Lemma write_shared_scopes_lookup (c : tokenCacheImpl) (k ks : string)
    (i : nat) (v : string) (e : credentialCacheEntry) (se : scopesCacheEntry) :
  tc_cache c !! k = Some e -> cc_cache e !! ks = Some se ->
  exists e',
    tc_cache (write_shared_scopes c k ks i v) !! k = Some e'
    /\ credInit e' = credInit e /\ cc_credential e' = cc_credential e
    /\ cc_cache e' !! ks
       = Some {| sc_credential := sc_credential se;
                 sc_scopes := <[i := v]> (sc_scopes se);
                 refreshing := refreshing se;
                 accessToken := accessToken se |}.
Proof.
  intros Hk Hs. unfold write_shared_scopes. rewrite Hk, Hs. simpl.
  eexists. rewrite lookup_insert_eq. split; [done|]. simpl.
  by rewrite lookup_insert_eq.
Qed.

(** An acquisition made through an existing scope entry is made with the
    entry's credential and scopes. *)
Lemma tokenCacheImpl_GetAccessToken_asks_stored (now : Z)
    (c c' : tokenCacheImpl) (env env' : Env) (credential : TokenCredential)
    (scopes : list string) (r : outcome (string * option error))
    (e : credentialCacheEntry) (se : scopesCacheEntry)
    (new : list (Event World error)) :
  tokenCacheImpl_GetAccessToken now c env credential scopes = (c', env', r) ->
  tc_cache c !! GetCacheKey credential = Some e ->
  cc_cache e !! getKeyForScopes scopes = Some se ->
  trace env' = trace env ++ new ->
  forall ev, ev ∈ new -> is_EvGetAccessToken ev = true ->
    exists rep, ev = EvGetAccessToken (sc_credential se) (sc_scopes se) rep.
Proof.
  intros H Hk Hs Htr ev Hev Hacq.
  destruct (tokenCacheImpl_GetAccessToken_full _ _ _ _ _ _ _ _ H)
    as [_ [(_ & _ & w & rep & _ & -> & _)
          |(env1 & se' & e' & He1 & Hsc & _)]].
  { simpl in Htr. apply app_inv_head in Htr as <-.
    apply list_elem_of_singleton in Hev as ->. done. }
  rewrite Hk in Hsc. simpl in Hsc. rewrite Hs in Hsc. simpl in Hsc.
  apply scopesCacheEntry_getAccessToken_frame in Hsc as (_ & _ & _ & Hnew).
  assert (exists mid, trace env1 = trace env ++ mid
                      /\ forall x, x ∈ mid -> is_EvGetAccessToken x = false)
    as (mid & Hmid & Hmidp).
  { destruct He1 as [[_ ->]|(_ & w & _ & ->)].
    - exists []. rewrite app_nil_r. split; [done|]. by intros x ?%elem_of_nil.
    - eexists [_]. split; [done|]. by intros x ->%list_elem_of_singleton. }
  destruct Hnew as [Hnew|(rep & Hnew & _)]; rewrite Hnew, Hmid in Htr.
  + apply app_inv_head in Htr as <-. by rewrite (Hmidp _ Hev) in Hacq.
  + rewrite <- app_assoc in Htr. apply app_inv_head in Htr as <-.
    apply elem_of_app in Hev as [Hev|Hev].
    * by rewrite (Hmidp _ Hev) in Hacq.
    * apply list_elem_of_singleton in Hev as ->. by exists rep.
Qed.

(** X8: a scope entry is created holding the slice of the call that creates
    it, as given; no call of the cache changes the entry's slice or its
    credential; a call that resolves to an existing scope entry has the
    credential asked with the entry's slice, not with its own; and since
    the slice is shared with the caller that created the entry, after that
    caller writes to it the entry sits under its old key, with its token,
    and the credential is asked with the slice as written. *)
Theorem scope_entry_shares_first_scopes :
  (forall (c : credentialCacheEntry) (scopes : list string),
      cc_cache c !! getKeyForScopes scopes = None ->
      sc_scopes (credentialCacheEntry_getEntryFor c scopes).2 = scopes)
  /\ (forall (cs : list (Z * TokenCredential * list string))
             (c : tokenCacheImpl) (env : Env) (k ks : string)
             (e : credentialCacheEntry) (se : scopesCacheEntry),
        tc_cache c !! k = Some e -> cc_cache e !! ks = Some se ->
        exists e' se',
          tc_cache (calls cs c env).1 !! k = Some e'
          /\ cc_cache e' !! ks = Some se'
          /\ sc_scopes se' = sc_scopes se
          /\ sc_credential se' = sc_credential se)
  /\ (forall (now : Z) (c c' : tokenCacheImpl) (env env' : Env)
             (credential : TokenCredential) (scopes : list string)
             (r : outcome (string * option error))
             (e : credentialCacheEntry) (se : scopesCacheEntry)
             (new : list (Event World error)),
        tokenCacheImpl_GetAccessToken now c env credential scopes
        = (c', env', r) ->
        tc_cache c !! GetCacheKey credential = Some e ->
        cc_cache e !! getKeyForScopes scopes = Some se ->
        trace env' = trace env ++ new ->
        forall ev, ev ∈ new -> is_EvGetAccessToken ev = true ->
          exists rep,
            ev = EvGetAccessToken (sc_credential se) (sc_scopes se) rep)
  /\ (forall (now : Z) (c c' : tokenCacheImpl) (env env' : Env)
             (credential : TokenCredential) (scopes : list string)
             (r : outcome (string * option error))
             (e : credentialCacheEntry) (se : scopesCacheEntry)
             (i : nat) (v : string) (new : list (Event World error)),
        tc_cache c !! GetCacheKey credential = Some e ->
        cc_cache e !! getKeyForScopes scopes = Some se ->
        let c1 := write_shared_scopes c (GetCacheKey credential)
                    (getKeyForScopes scopes) i v in
        cached_token c1 (GetCacheKey credential) scopes = accessToken se
        /\ (tokenCacheImpl_GetAccessToken now c1 env credential scopes
            = (c', env', r) ->
            trace env' = trace env ++ new ->
            forall ev, ev ∈ new -> is_EvGetAccessToken ev = true ->
              exists rep,
                ev = EvGetAccessToken (sc_credential se)
                       (<[i := v]> (sc_scopes se)) rep)).
Proof.
  split; [|split; [|split]].
  - intros c scopes Hs.
    unfold credentialCacheEntry_getEntryFor, Load, LoadOrStore. by rewrite Hs.
  - intros cs. induction cs as [|[[now cr] sc] cs IH];
      intros c env k ks e se Hk Hs.
    { by exists e, se. }
    rewrite calls_cons.
    destruct (tokenCacheImpl_GetAccessToken now c env cr sc)
      as [[c' env'] r] eqn:E. simpl.
    destruct (tokenCacheImpl_GetAccessToken_keeps_scopes _ _ _ _ _ _ _ _ _ _
                _ _ E Hk Hs) as (e1 & se1 & Hk1 & Hs1 & Hsp1 & Hcr1).
    destruct (IH c' env' k ks e1 se1 Hk1 Hs1) as (e2 & se2 & ? & ? & ? & ?).
    exists e2, se2. repeat split; congruence.
  - intros now c c' env env' credential scopes r e se new H Hk Hs Htr.
    by eapply tokenCacheImpl_GetAccessToken_asks_stored.
  - intros now c c' env env' credential scopes r e se i v new Hk Hs c1.
    destruct (write_shared_scopes_lookup c _ _ i v e se Hk Hs)
      as (e1 & Hk1 & _ & _ & Hs1).
    fold c1 in Hk1. split.
    + by rewrite (cached_token_after _ _ _ _ _ Hk1 Hs1).
    + intros H Htr ev Hev Hacq.
      by destruct (tokenCacheImpl_GetAccessToken_asks_stored _ _ _ _ _ _ _ _
                     _ _ _ H Hk1 Hs1 Htr ev Hev Hacq) as (rep & ->); exists rep.
Qed.

Lemma successful_inits_app (k : string) (tr1 tr2 : list (Event World error)) :
  successful_inits k (tr1 ++ tr2)
  = (successful_inits k tr1 + successful_inits k tr2)%nat.
Proof. unfold successful_inits. by rewrite filter_app, length_app. Qed.

Lemma successful_inits_Init (k : string) (cr : TokenCredential) :
  successful_inits k [EvInit cr (Reply None)]
  = if String.eqb (GetCacheKey cr) k then 1%nat else 0%nat.
Proof.
  unfold successful_inits. destruct (String.eqb (GetCacheKey cr) k) eqn:Eb.
  - rewrite filter_cons_True; [done|]. simpl. by rewrite Eb.
  - rewrite filter_cons_False; [done|]. simpl. rewrite Eb. by intros [].
Qed.

(** What one call adds to the successful [Init]s for a key: nothing, or
    one, and then the key is that of the call and its entry is flagged. *)
Lemma tokenCacheImpl_GetAccessToken_inits (now : Z) (c c' : tokenCacheImpl)
    (env env' : Env) (credential : TokenCredential) (scopes : list string)
    (r : outcome (string * option error)) (k : string) :
  wf c ->
  tokenCacheImpl_GetAccessToken now c env credential scopes = (c', env', r) ->
  successful_inits k (trace env') = successful_inits k (trace env)
  \/ successful_inits k (trace env') = S (successful_inits k (trace env))
     /\ GetCacheKey credential = k
     /\ (forall e, tc_cache c !! k = Some e -> credInit e = 0)
     /\ exists e', tc_cache c' !! k = Some e' /\ credInit e' <> 0.
Proof.
  intros Hwf H.
  destruct (tokenCacheImpl_GetAccessToken_full _ _ _ _ _ _ _ _ H)
    as [_ [(_ & _ & w & rep & _ & -> & Hr)
          |(env1 & se' & e' & He1 & Hsc & Hk' & Hi' & _)]].
  { left. simpl. rewrite successful_inits_app.
    destruct Hr as [[-> _]|(err & -> & _)]; unfold successful_inits at 2;
      simpl; lia. }
  apply scopesCacheEntry_getAccessToken_frame in Hsc as (_ & _ & _ & Hnew).
  assert (successful_inits k (trace env') = successful_inits k (trace env1))
    as ->.
  { destruct Hnew as [->|(rep & -> & _)]; [done|].
    rewrite successful_inits_app. unfold successful_inits at 2. simpl. lia. }
  destruct He1 as [[_ ->]|(Hi & w & _ & ->)]; [by left|].
  simpl. rewrite successful_inits_app.
  set (e0 := default _ _) in *.
  assert (GetCacheKey (cc_credential e0) = GetCacheKey credential) as Hkey.
  { subst e0. destruct (tc_cache c !! GetCacheKey credential) as [e|] eqn:E;
      [|done]. simpl. by destruct (Hwf _ _ E). }
  rewrite successful_inits_Init.
  destruct (String.eqb (GetCacheKey (cc_credential e0)) k) eqn:Eb.
  - right. apply String.eqb_eq in Eb. rewrite Hkey in Eb.
    split; [lia|]. split; [done|]. split; [|subst k; by exists e'].
    intros e E. subst e0 k. by rewrite E in Hi.
  - left. lia.
Qed.

(** X9: through any sequence of calls on a well-formed cache, [Init]
    succeeds at most once more for each credential key. *)
Theorem Init_succeeds_once_per_key
    (cs : list (Z * TokenCredential * list string)) (c : tokenCacheImpl)
    (env : Env) (k : string) :
  wf c ->
  (successful_inits k (trace (calls cs c env).2)
   <= S (successful_inits k (trace env)))%nat.
Proof.
  intros Hwf.
  assert (forall c1 env1,
            wf c1 ->
            successful_inits k (trace env1) = successful_inits k (trace env)
            \/ successful_inits k (trace env1)
               = S (successful_inits k (trace env))
               /\ (exists e, tc_cache c1 !! k = Some e /\ credInit e <> 0) ->
            (successful_inits k (trace (calls cs c1 env1).2)
             <= S (successful_inits k (trace env)))%nat) as Hgen.
  { induction cs as [|[[now cr] sc] cs IH]; intros c1 env1 Hwf1 Hcount.
    { simpl. destruct Hcount as [->|[-> _]]; lia. }
    rewrite calls_cons.
    destruct (tokenCacheImpl_GetAccessToken now c1 env1 cr sc)
      as [[c2 env2] r] eqn:E. simpl.
    pose proof (tokenCacheImpl_GetAccessToken_wf _ _ _ _ _ _ _ _ E Hwf1) as Hwf2.
    apply IH; [done|].
    destruct (tokenCacheImpl_GetAccessToken_inits _ _ _ _ _ _ _ _ k Hwf1 E)
      as [->|(-> & Hkey & Hunset & e2 & Hk2 & Hi2)].
    - destruct Hcount as [->|[-> (e & Hk & Hi)]]; [by left|]. right.
      split; [done|].
      destruct (tokenCacheImpl_GetAccessToken_keeps _ _ _ _ _ _ _ _ _ _ E Hk)
        as (e' & Hk' & _ & Hi').
      exists e'. split; [done|]. by rewrite Hi'.
    - destruct Hcount as [->|[_ (e & Hk & Hi)]].
      + right. split; [done|]. by exists e2.
      + by destruct (Hi (Hunset _ Hk)). }
  apply Hgen; [done|by left].
Qed.


(** X15: any number of calls for the same credential and scopes, each made
    while the cached token is more than two minutes from its expiry, change
    neither the cache nor the world: no credential is called. *)
Theorem calls_within_validity_change_nothing (times : list Z)
    (c : tokenCacheImpl) (env : Env) (credential : TokenCredential)
    (scopes : list string) (tok : AccessToken) :
  wf c ->
  cached_token c (GetCacheKey credential) scopes = Some tok ->
  Forall (fun now => now + 2 * Minute < ExpiresOn tok) times ->
  calls ((fun now => (now, credential, scopes)) <$> times) c env = (c, env).
Proof.
  intros Hwf Hct Hall. unfold cached_token in Hct.
  destruct (tc_cache c !! GetCacheKey credential) as [e|] eqn:E; [|done].
  destruct (cc_cache e !! getKeyForScopes scopes) as [se|] eqn:Es; [|done].
  destruct (Hwf _ _ E) as [_ Hs]. destruct (Hs _ _ Es) as [_ Hi].
  induction Hall as [|now times Hnow _ IH]; [done|].
  rewrite fmap_cons, calls_cons.
  by rewrite (fresh_token_served now c env credential scopes e se tok).
Qed.

End MoreProperties.

Section MorePool.

Context {World error : Type}.

Local Abbreviation TokenCredential := (TokenCredential World error).
Local Abbreviation Env := (Env World error).
Local Abbreviation scopesCacheEntry := (scopesCacheEntry World error).
Local Abbreviation Pool := (Pool World error).
Local Abbreviation Thread := (Thread error).

(** ** More on many callers *)

Lemma Broadcast_not_Parked (ths : list Thread) (i : nat) :
  Broadcast ths !! i <> Some Parked.
Proof.
  unfold Broadcast. rewrite list_lookup_fmap.
  by destruct (ths !! i) as [[| | | |? ?| |? ?|? ?|?]|].
Qed.

Lemma insert_Parked (ths : list Thread) (t i : nat) (th' : Thread) :
  <[t := th']> ths !! i = Some Parked -> th' <> Parked ->
  ths !! i = Some Parked.
Proof.
  rewrite list_lookup_insert. case_decide as H; [|done].
  intros [= ->]. done.
Qed.

Lemma step_no_lost_wakeup (t : nat) (p p' : Pool) :
  no_lost_wakeup p -> step t p = Some p' -> no_lost_wakeup p'.
Proof.
  intros Hw Hs i Hi. unfold step in Hs.
  destruct (threads p !! t) as [th|] eqn:Ht; [|done].
  destruct th as [| | | |tok sr| |local ret|local ret|r]; simpl in *;
    try done.
  - destruct (lock p); [done|]. injection Hs as <-. simpl in *.
    apply insert_Parked in Hi; [by apply (Hw i)|done].
  - unfold loop_body in Hs.
    destruct (still_fresh (clock p) (accessToken (entry p)));
      [|destruct (refreshing (entry p)) eqn:Hr]; simpl in Hs;
      injection Hs as <-; simpl in *; try done.
    apply insert_Parked in Hi; [by apply (Hw i)|done].
  - destruct (lock p); [done|]. injection Hs as <-. simpl in *.
    apply insert_Parked in Hi; [by apply (Hw i)|done].
  - injection Hs as <-. simpl in *.
    apply insert_Parked in Hi; [by apply (Hw i)|by destruct sr].
  - destruct (call_GetAccessToken _ _ _) as [env' r].
    destruct (refresh_body r) as [local ret]. injection Hs as <-. simpl in *.
    apply insert_Parked in Hi; [by apply (Hw i)|done].
  - destruct (lock p); [done|]. injection Hs as <-. simpl in *.
    apply insert_Parked in Hi; [by apply (Hw i)|done].
  - injection Hs as <-. simpl in *.
    apply insert_Parked in Hi; [|done]. by apply Broadcast_not_Parked in Hi.
Qed.

(** Whoever holds [cond.L] can move. *)
Lemma holder_can_step (p : Pool) (t : nat) (th : Thread) :
  threads p !! t = Some th -> holds_lock th = true -> is_Some (step t p).
Proof.
  intros Ht Hh. unfold step. rewrite Ht.
  destruct th as [| | | |tok sr| |local ret|local ret|r]; try done.
  by destruct (loop_body _ _) as [c [?| |]].
Qed.

(** With [cond.L] free, every caller that is neither parked nor finished
    can move. *)
Lemma free_lock_can_step (p : Pool) (t : nat) (th : Thread) :
  lock p = None -> threads p !! t = Some th ->
  th <> Parked -> finished th = false -> is_Some (step t p).
Proof.
  intros Hl Ht Hp Hf. unfold step. rewrite Ht, Hl.
  destruct th as [| | | |tok sr| |local ret|local ret|r]; try done.
  - by destruct (loop_body _ _) as [c [?| |]].
  - destruct (call_GetAccessToken _ _ _) as [env' r].
    by destruct (refresh_body r).
Qed.

Lemma run_more_invariants (c0 : scopesCacheEntry) (now0 : Z) (env0 : Env)
    (n : nat) (acts : list action) (p : Pool) :
  refreshing c0 = false ->
  run acts (start c0 now0 env0 n) = Some p ->
  no_lost_wakeup p /\ length (threads p) = n.
Proof.
  intros Hr Hrun.
  apply (run_invariant
           (fun q => no_lost_wakeup q /\ length (threads q) = n)
           acts (start c0 now0 env0 n) p); [| |done].
  - intros a q q' [Hw Hlen] He. destruct a as [d|t]; simpl in He.
    + destruct (0 <=? d); [|done]. by injection He as <-.
    + split; [by eapply step_no_lost_wakeup|].
      unfold step in He. destruct (threads q !! t) as [th|]; [|done].
      destruct th as [| | | |tok sr| |local ret|local ret|r]; try done.
      * destruct (lock q); [done|]. injection He as <-. simpl.
        by rewrite length_insert.
      * destruct (loop_body _ _) as [c [?| |]]; injection He as <-; simpl;
          by rewrite length_insert.
      * destruct (lock q); [done|]. injection He as <-. simpl.
        by rewrite length_insert.
      * injection He as <-. simpl. by rewrite length_insert.
      * destruct (call_GetAccessToken _ _ _) as [env' r].
        destruct (refresh_body r). injection He as <-. simpl.
        by rewrite length_insert.
      * destruct (lock q); [done|]. injection He as <-. simpl.
        by rewrite length_insert.
      * injection He as <-. simpl. unfold Broadcast.
        by rewrite length_insert, length_fmap.
  - split; [|apply length_replicate].
    by intros t [[=] _]%lookup_replicate.
Qed.

(** X10: no wake-up is lost and the callers never deadlock: whenever a
    caller is parked in [Wait] a refresh is running, whose end will wake
    it; and as long as some caller has not returned, some caller can take a
    step. *)
Theorem callers_never_deadlock (c0 : scopesCacheEntry) (now0 : Z) (env0 : Env)
    (n : nat) (acts : list action) (p : Pool) :
  refreshing c0 = false ->
  run acts (start c0 now0 env0 n) = Some p ->
  (forall t, threads p !! t = Some Parked ->
     exists t' th', threads p !! t' = Some th' /\ in_refresh th' = true)
  /\ ((exists t th, threads p !! t = Some th /\ finished th = false) ->
      exists t, is_Some (step t p)).
Proof.
  intros Hr Hrun.
  destruct (run_invariants _ _ _ _ _ _ Hr Hrun) as ((I1 & I2 & I3 & I4) & _).
  destruct (run_more_invariants _ _ _ _ _ _ Hr Hrun) as [Hw _].
  assert (forall t, threads p !! t = Some Parked ->
            exists t' th', threads p !! t' = Some th' /\ in_refresh th' = true)
    as Hpark.
  { intros t Ht. apply I4. by apply (Hw t). }
  split; [done|]. intros (t & th & Ht & Hf).
  destruct (lock p) as [t'|] eqn:Hl.
  - destruct (I2 _ eq_refl) as (th' & Ht' & Hh'). exists t'.
    by eapply holder_can_step.
  - assert (th = Parked \/ th <> Parked) as [->|Hnp]
      by (destruct th; (by left) || (by right)).
    + destruct (Hpark _ Ht) as (t2 & th2 & Ht2 & Hr2). exists t2.
      eapply free_lock_can_step; [done|exact Ht2|..]; by destruct th2.
    + exists t. by eapply free_lock_can_step.
Qed.


(** X11: the fields of the entry are written only by the caller that holds
    [cond.L], and the credential is called only by a caller that does not
    hold it, so that the others can take the mutex while the call is
    running. *)
Theorem entry_written_under_lock (c0 : scopesCacheEntry) (now0 : Z)
    (env0 : Env) (n : nat) (acts : list action) (p p' : Pool) (t : nat) :
  refreshing c0 = false ->
  run acts (start c0 now0 env0 n) = Some p ->
  step t p = Some p' ->
  (entry p' <> entry p -> lock p = Some t)
  /\ (history p' <> history p -> lock p <> Some t /\ lock p' = lock p).
Proof.
  intros Hr Hrun Hs.
  destruct (run_invariants _ _ _ _ _ _ Hr Hrun) as ((I1 & I2 & _) & _).
  unfold step in Hs. destruct (threads p !! t) as [th|] eqn:Ht; [|done].
  destruct th as [| | | |tok sr| |local ret|local ret|r]; simpl in *;
    try done.
  - destruct (lock p); [done|]. by injection Hs as <-.
  - pose proof (I1 _ _ Ht eq_refl) as Hl.
    destruct (loop_body (clock p) (entry p)) as [c [tok| |]];
      by injection Hs as <-.
  - destruct (lock p); [done|]. by injection Hs as <-.
  - by injection Hs as <-.
  - destruct (call_GetAccessToken _ _ _) as [env' r].
    destruct (refresh_body r) as [local ret]. injection Hs as <-. simpl.
    split; [done|]. intros _. split; [|done]. intros Hl.
    destruct (I2 _ Hl) as (th & Ht' & Hh). rewrite Ht in Ht'.
    by injection Ht' as <-.
  - destruct (lock p); [done|]. by injection Hs as <-.
  - pose proof (I1 _ _ Ht eq_refl) as Hl. by injection Hs as <-.
Qed.

Lemma from_run_mono (c0 : scopesCacheEntry)
    (h h' : list (nat * reply (option AccessToken * option error)))
    (a : AccessToken) :
  from_run c0 h a -> from_run c0 (h ++ h') a.
Proof.
  intros [?|(t & Hin)]; [by left|]. right. exists t. apply elem_of_app. by left.
Qed.

Lemma carries_known_mono (c0 : scopesCacheEntry)
    (h h' : list (nat * reply (option AccessToken * option error)))
    (th : Thread) :
  carries_known c0 h th -> carries_known c0 (h ++ h') th.
Proof.
  destruct th as [| | | |[a|] sr| |local ret|local ret|[[s [err|]]| |]]; simpl;
    try done.
  - apply from_run_mono.
  - intros (a & -> & Hf). exists a. split; [done|]. by apply from_run_mono.
Qed.

Lemma carries_known_wake (c0 : scopesCacheEntry)
    (h : list (nat * reply (option AccessToken * option error)))
    (th : Thread) :
  carries_known c0 h th -> carries_known c0 h (wake th).
Proof. by destruct th. Qed.

Lemma provenance_moved (c0 : scopesCacheEntry) (p : Pool) (t : nat)
    (th th' : Thread) (e' : scopesCacheEntry) (lk' : option nat) (ck' : Z)
    (env' : Env) (ths' : list Thread)
    (h' : list (nat * reply (option AccessToken * option error))) :
  provenance c0 p ->
  threads p !! t = Some th ->
  moved (threads p) ths' t th' ->
  (forall a, accessToken e' = Some a -> from_run c0 (history p ++ h') a) ->
  carries_known c0 (history p ++ h') th' ->
  provenance c0 {| entry := e'; lock := lk'; clock := ck'; env := env';
                   threads := ths'; history := history p ++ h' |}.
Proof.
  intros [_ Hth] Ht Hm He Hown. split; [done|]. simpl. intros i y Hi.
  destruct (moved_lookup _ _ _ _ _ _ _ Hm Ht Hi)
    as [[-> ->]|(_ & x & Hx & [->| ->])]; [done|..].
  - apply carries_known_mono. by eapply Hth.
  - apply carries_known_mono, carries_known_wake. by eapply Hth.
Qed.

Lemma step_provenance (c0 : scopesCacheEntry) (t : nat) (p p' : Pool) :
  attributed p -> provenance c0 p -> step t p = Some p' -> provenance c0 p'.
Proof.
  intros Ha Hp Hs. pose proof Hp as [He Hth]. unfold step in Hs.
  destruct (threads p !! t) as [th|] eqn:Ht; [|done].
  pose proof (Hth _ _ Ht) as Hown. pose proof (Ha _ _ Ht) as Hatt.
  assert (forall a, accessToken (entry p) = Some a ->
            from_run c0 (history p ++ []) a) as He0
    by (intros a Hacc; rewrite app_nil_r; by apply He).
  destruct th as [| | | |tok sr| |local ret|local ret|r]; simpl in *.
  - destruct (lock p) eqn:Hl; [done|]. injection Hs as <-.
    rewrite <- (app_nil_r (history p)).
    eapply provenance_moved; [exact Hp|exact Ht|by left|done|done].
  - pose proof (loop_body_keeps (clock p) (entry p)) as (_ & _ & Hk).
    unfold loop_body in Hs, Hk.
    destruct (still_fresh (clock p) (accessToken (entry p)));
      [|destruct (refreshing (entry p))]; simpl in Hs, Hk;
      injection Hs as <-; rewrite <- (app_nil_r (history p));
      (eapply provenance_moved; [exact Hp|exact Ht|by left|done|]); simpl;
      try done.
    destruct (accessToken (entry p)) as [a|] eqn:Ea; [|done].
    rewrite app_nil_r. by apply He.
  - done.
  - destruct (lock p) eqn:Hl; [done|]. injection Hs as <-.
    rewrite <- (app_nil_r (history p)).
    eapply provenance_moved; [exact Hp|exact Ht|by left|done|done].
  - injection Hs as <-. rewrite <- (app_nil_r (history p)).
    eapply provenance_moved; [exact Hp|exact Ht|by left|done|].
    destruct sr; [done|]. destruct tok as [a|]; [|done]. simpl.
    exists a. split; [done|]. rewrite app_nil_r. exact Hown.
  - destruct (call_GetAccessToken _ _ _) as [env' r].
    destruct (refresh_body r) as [local ret] eqn:Hb. injection Hs as <-.
    eapply provenance_moved; [exact Hp|exact Ht|by left| |done].
    intros a Hacc. apply from_run_mono. by apply He.
  - destruct (lock p) eqn:Hl; [done|]. injection Hs as <-.
    rewrite <- (app_nil_r (history p)).
    eapply provenance_moved; [exact Hp|exact Ht|by left|done|done].
  - injection Hs as <-. rewrite <- (app_nil_r (history p)).
    destruct Hatt as (rep & Hin & Hb).
    eapply provenance_moved; [exact Hp|exact Ht|by right| |].
    + intros a. simpl. rewrite app_nil_r.
      destruct local as [b|]; [|by apply He]. intros [= ->].
      destruct rep as [[tok' [err|]]|]; simpl in Hb; try done.
      injection Hb as -> _. right. by exists t.
    + rewrite app_nil_r.
      destruct rep as [[tok' [err|]]|]; simpl in Hb; injection Hb as <- <-;
        simpl; [done| |done].
      destruct tok' as [a|]; [|done]. simpl. exists a. split; [done|].
      right. by exists t.
  - done.
Qed.

(** X12: no caller is handed a token string that is not the [Token] of an
    access token that was cached when the callers started or that an
    acquisition of this run answered with; and the same holds of the token
    the entry caches. *)
Theorem returned_tokens_come_from_the_credential (c0 : scopesCacheEntry)
    (now0 : Z) (env0 : Env) (n : nat) (acts : list action) (p : Pool) :
  refreshing c0 = false ->
  run acts (start c0 now0 env0 n) = Some p ->
  (forall t s, threads p !! t = Some (Finished (Returns (s, None))) ->
     exists a, s = Token a /\ from_run c0 (history p) a)
  /\ forall a, accessToken (entry p) = Some a -> from_run c0 (history p) a.
Proof.
  intros Hr Hrun.
  assert (attributed p /\ provenance c0 p) as [_ [He Hth]].
  { apply (run_invariant (fun q => attributed q /\ provenance c0 q)
             acts (start c0 now0 env0 n) p); [| |done].
    - intros a q q' [Ha Hp] Hex. destruct a as [d|t]; simpl in Hex.
      + destruct (0 <=? d); [|done]. by injection Hex as <-.
      + split; [by eapply step_attributed|by eapply step_provenance].
    - split.
      + by intros t th [-> _]%lookup_replicate.
      + split; [by left|]. by intros t th [-> _]%lookup_replicate. }
  split; [|done]. intros t s Ht. exact (Hth _ _ Ht).
Qed.


Lemma acquired_once_moved (p : Pool) (t : nat) (th th' : Thread)
    (e' : scopesCacheEntry) (lk' : option nat) (ck' : Z) (env' : Env)
    (ths' : list Thread) :
  acquired_once p ->
  threads p !! t = Some th ->
  moved (threads p) ths' t th' ->
  (has_acquired th = true -> has_acquired th' = true) ->
  acquired_once {| entry := e'; lock := lk'; clock := ck'; env := env';
                   threads := ths'; history := history p |}.
Proof.
  intros [Hnd Hin] Ht Hm Hkeep. split; [done|]. simpl. intros i Hi.
  destruct (Hin _ Hi) as (x & Hx & Hax).
  destruct (decide (i = t)) as [->|Hne].
  - exists th'. split; [by eapply moved_lookup_eq|].
    rewrite Ht in Hx. injection Hx as ->. by apply Hkeep.
  - destruct (moved_lookup_old _ _ _ _ _ _ Hm Hne Hx) as (y & Hy & [->| ->]).
    + by exists x.
    + exists (wake x). split; [done|]. by destruct x.
Qed.

Lemma step_acquired_once (t : nat) (p p' : Pool) :
  acquired_once p -> step t p = Some p' -> acquired_once p'.
Proof.
  intros Ha Hs. unfold step in Hs.
  destruct (threads p !! t) as [th|] eqn:Ht; [|done].
  destruct th as [| | | |tok sr| |local ret|local ret|r]; simpl in *;
    try done.
  - destruct (lock p); [done|]. injection Hs as <-.
    eapply acquired_once_moved; [exact Ha|exact Ht|by left|done].
  - destruct (loop_body (clock p) (entry p)) as [c [tok| |]];
      injection Hs as <-;
      (eapply acquired_once_moved; [exact Ha|exact Ht|by left|done]).
  - destruct (lock p); [done|]. injection Hs as <-.
    eapply acquired_once_moved; [exact Ha|exact Ht|by left|done].
  - injection Hs as <-.
    eapply acquired_once_moved; [exact Ha|exact Ht|by left|done].
  - destruct (call_GetAccessToken _ _ _) as [env' r].
    destruct (refresh_body r) as [local ret]. injection Hs as <-.
    destruct Ha as [Hnd Hin]. pose proof (lookup_lt_Some _ _ _ Ht) as Hlen.
    split; simpl.
    + rewrite fmap_app. apply NoDup_app. split; [done|]. split.
      * intros i Hi Hi2. apply list_elem_of_singleton in Hi2. simpl in Hi2.
        rewrite Hi2 in Hi.
        destruct (Hin _ Hi) as (x & Hx & Hax). rewrite Ht in Hx.
        by injection Hx as <-.
      * apply NoDup_singleton.
    + rewrite fmap_app. intros i [Hi|Hi]%elem_of_app.
      * destruct (Hin _ Hi) as (x & Hx & Hax).
        assert (i <> t) as Hne.
        { intros ->. rewrite Ht in Hx. by injection Hx as <-. }
        exists x. by rewrite list_lookup_insert_ne.
      * apply list_elem_of_singleton in Hi. simpl in Hi. rewrite Hi.
        eexists. by rewrite list_lookup_insert_eq.
  - destruct (lock p); [done|]. injection Hs as <-.
    eapply acquired_once_moved; [exact Ha|exact Ht|by left|done].
  - injection Hs as <-.
    eapply acquired_once_moved; [exact Ha|exact Ht|by right|done].
Qed.

(** X13: a caller calls the credential at most once in one call of
    [getAccessToken], so [n] callers cause at most [n] acquisitions. *)
Theorem one_acquisition_per_caller (c0 : scopesCacheEntry) (now0 : Z)
    (env0 : Env) (n : nat) (acts : list action) (p : Pool) :
  refreshing c0 = false ->
  run acts (start c0 now0 env0 n) = Some p ->
  NoDup (history p).*1
  /\ (acquisitions (trace (env p)) <= acquisitions (trace env0) + n)%nat.
Proof.
  intros Hr Hrun.
  destruct (run_invariants _ _ _ _ _ _ Hr Hrun) as (_ & _ & (_ & _ & _ & Htr) & _).
  destruct (run_more_invariants _ _ _ _ _ _ Hr Hrun) as [_ Hlen].
  assert (acquired_once p) as [Hnd Hin].
  { apply (run_invariant acquired_once acts (start c0 now0 env0 n) p);
      [| |done].
    - intros a q q' Ha Hex. destruct a as [d|t]; simpl in Hex.
      + destruct (0 <=? d); [|done]. by injection Hex as <-.
      + by eapply step_acquired_once.
    - split; [apply NoDup_nil_2|]. by intros t ?%elem_of_nil. }
  split; [done|].
  rewrite Htr, acquisitions_app, acquisitions_history.
  assert (length (history p).*1 <= length (seq 0 n))%nat as Hle.
  { apply submseteq_length, NoDup_submseteq; [done|].
    intros t Ht. destruct (Hin _ Ht) as (th & Hth & _).
    apply lookup_lt_Some in Hth. apply elem_of_seq. lia. }
  rewrite length_fmap, length_seq in Hle. lia.
Qed.


Lemma step_served_from_cache (c0 : scopesCacheEntry) (env0 : Env)
    (tok : AccessToken) (t : nat) (p p' : Pool) :
  accessToken c0 = Some tok ->
  still_fresh (clock p) (Some tok) = true ->
  served_from_cache c0 env0 tok p -> step t p = Some p' ->
  served_from_cache c0 env0 tok p'.
Proof.
  intros Htok Hf (Hh & Hen & He & Hall) Hs. unfold step in Hs.
  destruct (threads p !! t) as [th|] eqn:Ht; [|done].
  pose proof (Forall_lookup_1 _ _ _ _ Hall Ht) as Hth.
  assert (forall th', waits_or_has tok th' ->
            Forall (waits_or_has tok) (<[t := th']> (threads p))) as Hins
    by (intros th' Hth'; by apply Forall_insert).
  destruct th as [| | | |a sr| |local ret|local ret|r]; simpl in Hth;
    try done.
  - destruct (lock p); [done|]. injection Hs as <-.
    do 3 (split; [done|]). by apply Hins.
  - unfold loop_body in Hs. rewrite He, Htok, Hf in Hs. simpl in Hs.
    injection Hs as <-. do 3 (split; [done|]). by apply Hins.
  - destruct (lock p); [done|]. injection Hs as <-.
    do 3 (split; [done|]). by apply Hins.
  - destruct Hth as [-> ->]. injection Hs as <-.
    do 3 (split; [done|]). by apply Hins.
Qed.

(** X14: callers that find a token cached that is still more than two
    minutes from its expiry never call the credential, leave the entry as
    it was, and each one that has returned has returned that token. *)
Theorem fresh_token_served_to_all (c0 : scopesCacheEntry) (now0 : Z)
    (env0 : Env) (n : nat) (acts : list action) (p : Pool)
    (tok : AccessToken) :
  accessToken c0 = Some tok ->
  run acts (start c0 now0 env0 n) = Some p ->
  clock p + 2 * Minute < ExpiresOn tok ->
  history p = [] /\ env p = env0 /\ entry p = c0
  /\ forall t r, threads p !! t = Some (Finished r) ->
       r = Returns (Token tok, None).
Proof.
  intros Htok Hrun Hf. apply still_fresh_Some in Hf.
  assert (still_fresh (clock p) (Some tok) = true ->
          served_from_cache c0 env0 tok p) as Hserved.
  { apply (run_invariant
             (fun q => still_fresh (clock q) (Some tok) = true ->
                       served_from_cache c0 env0 tok q)
             acts (start c0 now0 env0 n) p); [| |done].
    - intros a q q' Hsv Hex. destruct a as [d|t]; simpl in Hex.
      + destruct (0 <=? d) eqn:Hd; [|done]. injection Hex as <-. simpl.
        intros Hf'. apply Hsv.
        apply Z.leb_le in Hd. eapply still_fresh_mono; [|exact Hf']. lia.
      + pose proof (step_frame _ _ _ Hex) as (Hck & _). rewrite Hck.
        intros Hf'.
        by apply (step_served_from_cache c0 env0 tok t q q'); auto.
    - intros _. do 3 (split; [done|]). by apply Forall_replicate. }
  destruct (Hserved Hf) as (Hh & Hen & He & Hall).
  do 3 (split; [done|]). intros t r Ht.
  exact (Forall_lookup_1 _ _ _ _ Hall Ht).
Qed.

End MorePool.

(** ** More properties at work *)

(** A token that expires in exactly two minutes is not served. *)
Lemma cache_hit_iff_beyond_buffer_witness :
  acquisitions
    (trace (scopesCacheEntry_getAccessToken 0
              (entry_for hourly
                 (Some {| Token := "T0"; ExpiresOn := 2 * Minute |}))
              env0).1.2)
  = 1%nat.
Proof.
  exact (proj2 (proj2 (cache_hit_iff_beyond_buffer 0
                         (entry_for hourly
                            (Some {| Token := "T0"; ExpiresOn := 2 * Minute |}))
                         env0 {| Token := "T0"; ExpiresOn := 2 * Minute |}
                         eq_refl eq_refl)) eq_refl).
Defined.

(** At time one hour, [short_lived] answers with a token that expired at
    minute one; the caller gets it all the same. *)
Lemma refresher_returns_acquired_token_witness :
  (scopesCacheEntry_getAccessToken Hour (entry_for short_lived None) env0).2
  = Returns ("T1"%string, None)
  /\ acquisitions
       (trace (scopesCacheEntry_getAccessToken Hour
                 (scopesCacheEntry_getAccessToken Hour
                    (entry_for short_lived None) env0).1.1 env0).1.2)
     = 1%nat.
Proof.
  destruct (refresher_returns_acquired_token Hour Hour
              (entry_for short_lived None) env0 env0 1%nat
              {| Token := "T1"; ExpiresOn := Minute |} eq_refl eq_refl eq_refl)
    as [Heq Hnext].
  split; [by rewrite Heq|]. apply Hnext. vm_compute. by intros [=].
Defined.

(** [flaky] fails to initialise: its key is registered, nothing else. *)
Lemma failed_Init_ends_the_call_witness :
  tokenCacheImpl_GetAccessToken 0 NewConcurrentTokenCache env0 flaky
    ["s"%string]
  = ({| tc_cache := {[ "azr1"%string := uninitialised flaky ]} |},
     {| world := 1%nat;
        trace := [EvInit flaky (Reply (Some "no identity"%string))] |},
     Returns (EmptyString, Some "no identity"%string)).
Proof.
  rewrite (failed_Init_ends_the_call 0 NewConcurrentTokenCache env0 flaky
             ["s"%string] 1%nat (Reply (Some "no identity"%string))
             eq_refl eq_refl); [reflexivity|done].
Defined.

(** A call for the scope ["t"] leaves the entry of the scope ["s"] alone. *)
Lemma call_touches_one_entry_witness :
  exists c1 env1 r1 c2 env2 r2 e2,
    tokenCacheImpl_GetAccessToken 0 NewConcurrentTokenCache env0 hourly
      ["s"%string] = (c1, env1, r1)
    /\ tokenCacheImpl_GetAccessToken 0 c1 env1 hourly ["t"%string]
       = (c2, env2, r2)
    /\ tc_cache c2 !! "azr1"%string = Some e2
    /\ cc_cache e2 !! "s"%string
       = Some (entry_for hourly (Some {| Token := "T1"; ExpiresOn := Hour |})).
Proof.
  destruct (tokenCacheImpl_GetAccessToken 0 NewConcurrentTokenCache env0
              hourly ["s"%string]) as [[c1 env1] r1] eqn:E1.
  destruct (tokenCacheImpl_GetAccessToken 0 c1 env1 hourly ["t"%string])
    as [[c2 env2] r2] eqn:E2.
  destruct (call_touches_one_entry _ _ _ _ _ _ _ _ E2) as (_ & e2 & Hk & Hs).
  exists c1, env1, r1, c2, env2, r2, e2.
  split; [reflexivity|]. split; [exact E2|]. split; [exact Hk|].
  rewrite (Hs "s"%string); [|done].
  vm_compute in E1. injection E1 as <- _ _. vm_compute. reflexivity.
Defined.

(** [silent] answers with nothing: the call panics. *)
Lemma credential_panics_propagate_witness :
  (tokenCacheImpl_GetAccessToken 0 NewConcurrentTokenCache env0 silent
     ["s"%string]).2 = Panics
  /\ cached_token
       (tokenCacheImpl_GetAccessToken 0 NewConcurrentTokenCache env0 silent
          ["s"%string]).1.1 "azr1"%string ["s"%string]
     = None.
Proof.
  destruct (tokenCacheImpl_GetAccessToken 0 NewConcurrentTokenCache env0
              silent ["s"%string]) as [[c1 env1] r1] eqn:E1.
  assert (trace env1
          = trace env0
            ++ [EvInit silent (Reply None);
                EvGetAccessToken silent ["s"%string] (Reply (None, None))])
    as Htr.
  { vm_compute in E1. by injection E1 as _ <- _. }
  destruct (credential_panics_propagate _ _ _ _ _ _ _ _ _ E1 Htr)
    as [Hp Hkeep].
  assert (r1 = Panics) as Hr.
  { apply Hp.
    exists (EvGetAccessToken silent ["s"%string] (Reply (None, None))).
    split; [|reflexivity].
    apply elem_of_cons. right. by apply list_elem_of_singleton. }
  split; [exact Hr|]. exact (Hkeep Hr).
Defined.

(** The first acquisition of [slow_start] times out; the next call asks
    again. *)
Lemma acquisition_errors_are_not_cached_witness :
  exists c1 env1,
    tokenCacheImpl_GetAccessToken 0 NewConcurrentTokenCache env0 slow_start
      ["s"%string]
    = (c1, env1, Returns (EmptyString, Some "timeout"%string))
    /\ acquisitions
         (trace (tokenCacheImpl_GetAccessToken Minute c1 env1 slow_start
                   ["s"%string]).1.2)
       = 2%nat.
Proof.
  destruct (tokenCacheImpl_GetAccessToken 0 NewConcurrentTokenCache env0
              slow_start ["s"%string]) as [[c1 env1] r1] eqn:E1.
  assert (r1 = Returns (EmptyString, Some "timeout"%string)
          /\ acquisitions (trace env1) = 1%nat) as [-> Hacq].
  { vm_compute in E1. by injection E1 as _ <- <-. }
  exists c1, env1. split; [reflexivity|].
  rewrite (acquisition_errors_are_not_cached 0 Minute _ _ _ _ _ _ _ _ E1);
    [by rewrite Hacq|by rewrite Hacq|done].
Defined.

(** The entry made for [["b"; "a"]] holds that slice: a later call for
    [["a"; "b"]] has the credential asked for [["b"; "a"]]; and once the
    first caller has written ["z"] over its ["b"], for [["z"; "a"]], under
    the key ["a b"] still. *)
Lemma scope_entry_shares_first_scopes_witness :
  exists c1 env1 r1,
    tokenCacheImpl_GetAccessToken 0 NewConcurrentTokenCache env0 hourly
      ["b"; "a"]%string = (c1, env1, r1)
    /\ (exists rep,
          last (trace (tokenCacheImpl_GetAccessToken (2 * Hour) c1 env1 hourly
                         ["a"; "b"]%string).1.2)
          = Some (EvGetAccessToken hourly ["b"; "a"]%string rep))
    /\ (exists rep,
          last (trace (tokenCacheImpl_GetAccessToken (2 * Hour)
                         (write_shared_scopes c1 "azr1" "a b" 0 "z")
                         env1 hourly ["a"; "b"]%string).1.2)
          = Some (EvGetAccessToken hourly ["z"; "a"]%string rep)).
Proof.
  destruct (@scope_entry_shares_first_scopes nat string) as (_ & _ & Hc & Hw).
  destruct (tokenCacheImpl_GetAccessToken 0 NewConcurrentTokenCache env0
              hourly ["b"; "a"]%string) as [[c1 env1] r1] eqn:E1.
  exists c1, env1, r1. split; [reflexivity|].
  pose (se := {| sc_credential := hourly; sc_scopes := ["b"; "a"]%string;
                 refreshing := false;
                 accessToken := Some {| Token := "T1"; ExpiresOn := Hour |} |}).
  pose (e := {| cc_credential := hourly; credInit := 1;
                cc_cache := {[ "a b"%string := se ]} |}).
  assert (tc_cache c1 !! GetCacheKey hourly = Some e) as Hk.
  { vm_compute in E1. injection E1 as <- _ _. vm_compute. reflexivity. }
  assert (cc_cache e !! getKeyForScopes ["a"; "b"]%string = Some se) as Hs.
  { vm_compute. reflexivity. }
  split.
  - destruct (tokenCacheImpl_GetAccessToken (2 * Hour) c1 env1 hourly
                ["a"; "b"]%string) as [[c2 env2] r2] eqn:E2.
    assert (exists ev, trace env2 = trace env1 ++ [ev]
                       /\ is_EvGetAccessToken ev = true) as (ev & Htr & Hev).
    { vm_compute in E1. injection E1 as <- <- <-.
      vm_compute in E2. injection E2 as _ <- _. eexists. split; reflexivity. }
    destruct (Hc (2 * Hour) c1 c2 env1 env2 hourly ["a"; "b"]%string r2 e se
                [ev] E2 Hk Hs Htr ev) as (rep & ->).
    { by apply list_elem_of_singleton. }
    { exact Hev. }
    exists rep. simpl. rewrite Htr. apply last_snoc.
  - destruct (tokenCacheImpl_GetAccessToken (2 * Hour)
                (write_shared_scopes c1 "azr1" "a b" 0 "z") env1 hourly
                ["a"; "b"]%string) as [[c2 env2] r2] eqn:E2.
    assert (exists ev, trace env2 = trace env1 ++ [ev]
                       /\ is_EvGetAccessToken ev = true) as (ev & Htr & Hev).
    { vm_compute in E1. injection E1 as <- <- <-.
      vm_compute in E2. injection E2 as _ <- _. eexists. split; reflexivity. }
    destruct (Hw (2 * Hour) c1 c2 env1 env2 hourly ["a"; "b"]%string r2 e se
                0%nat "z"%string [ev] Hk Hs) as (_ & Hw').
    destruct (Hw' E2 Htr ev) as (rep & ->).
    { by apply list_elem_of_singleton. }
    { exact Hev. }
    exists rep. simpl. rewrite Htr. apply last_snoc.
Defined.

(** Three calls with [flaky]: [Init] fails, then succeeds, then is left
    alone. *)
Lemma Init_succeeds_once_per_key_witness :
  (successful_inits "azr1"
     (trace (calls [(0%Z, flaky, ["s"%string]); (0%Z, flaky, ["s"%string]);
                    (0%Z, flaky, ["t"%string])]
               NewConcurrentTokenCache env0).2) <= 1)%nat.
Proof.
  exact (Init_succeeds_once_per_key
           [(0, flaky, ["s"%string]); (0, flaky, ["s"%string]);
            (0, flaky, ["t"%string])]
           NewConcurrentTokenCache env0 "azr1" wf_empty).
Defined.

(** Caller 0 is calling the credential, caller 1 is parked: a step can be
    taken. *)
Lemma callers_never_deadlock_witness :
  exists p,
    run [Run 0; Run 0; Run 0; Run 1; Run 1]%nat
      (start (entry_for hourly None) 0 env0 2) = Some p
    /\ threads p = [AtAcquire; Parked]
    /\ exists t, is_Some (step t p).
Proof.
  destruct (run [Run 0; Run 0; Run 0; Run 1; Run 1]%nat
              (start (entry_for hourly None) 0 env0 2)) as [p|] eqn:E;
    [|by vm_compute in E].
  exists p. split; [reflexivity|].
  assert (threads p = [AtAcquire; Parked]) as Ht.
  { vm_compute in E. by injection E as <-. }
  split; [exact Ht|].
  apply (callers_never_deadlock (entry_for hourly None) 0 env0 2
           [Run 0; Run 0; Run 0; Run 1; Run 1]%nat p eq_refl E).
  exists 1%nat, Parked. by rewrite Ht.
Defined.

(** Caller 0 calls the credential while nobody holds the mutex. *)
Lemma entry_written_under_lock_witness :
  exists p p',
    run [Run 0; Run 0; Run 0]%nat (start (entry_for hourly None) 0 env0 2)
    = Some p
    /\ step 0%nat p = Some p'
    /\ lock p <> Some 0%nat /\ lock p' = lock p.
Proof.
  destruct (run [Run 0; Run 0; Run 0]%nat
              (start (entry_for hourly None) 0 env0 2)) as [p|] eqn:E;
    [|by vm_compute in E].
  destruct (step 0%nat p) as [p'|] eqn:Es.
  2: { vm_compute in E. injection E as <-. by vm_compute in Es. }
  exists p, p'. split; [reflexivity|]. split; [exact Es|].
  apply (entry_written_under_lock (entry_for hourly None) 0 env0 2
           [Run 0; Run 0; Run 0]%nat p p' 0%nat eq_refl E Es).
  vm_compute in E. injection E as <-. vm_compute in Es. injection Es as <-.
  done.
Defined.

(** Both callers return ["T1"], the token of the one acquisition. *)
Lemma returned_tokens_come_from_the_credential_witness :
  exists p,
    run second_reuses (start (entry_for hourly None) 0 env0 2) = Some p
    /\ threads p !! 1%nat = Some (Finished (Returns ("T1"%string, None)))
    /\ exists a, "T1"%string = Token a
                 /\ from_run (entry_for hourly None) (history p) a.
Proof.
  destruct (run second_reuses (start (entry_for hourly None) 0 env0 2))
    as [p|] eqn:E; [|by vm_compute in E].
  exists p. split; [reflexivity|].
  assert (threads p !! 1%nat = Some (Finished (Returns ("T1"%string, None))))
    as Ht.
  { vm_compute in E. by injection E as <-. }
  split; [exact Ht|].
  exact (proj1 (returned_tokens_come_from_the_credential
                  (entry_for hourly None) 0 env0 2 second_reuses p eq_refl E)
           _ _ Ht).
Defined.

(** Two callers of [short_lived]: two acquisitions, no more. *)
Lemma one_acquisition_per_caller_witness :
  exists p,
    run second_waits (start (entry_for short_lived None) 0 env0 2) = Some p
    /\ (acquisitions (trace (env p)) <= 2)%nat.
Proof.
  destruct (run second_waits (start (entry_for short_lived None) 0 env0 2))
    as [p|] eqn:E; [|by vm_compute in E].
  exists p. split; [reflexivity|].
  exact (proj2 (one_acquisition_per_caller (entry_for short_lived None) 0 env0
                  2 second_waits p eq_refl E)).
Defined.

(** Two callers find ["T0"] cached for another hour: no acquisition. *)
Lemma fresh_token_served_to_all_witness :
  exists p,
    run [Run 0; Tick Minute; Run 0; Run 0; Run 1; Run 1; Run 1]%nat
      (start (entry_for hourly (Some {| Token := "T0"; ExpiresOn := Hour |}))
         0 env0 2) = Some p
    /\ history p = [] /\ env p = env0.
Proof.
  destruct (run [Run 0; Tick Minute; Run 0; Run 0; Run 1; Run 1; Run 1]%nat
              (start (entry_for hourly
                        (Some {| Token := "T0"; ExpiresOn := Hour |}))
                 0 env0 2)) as [p|] eqn:E; [|by vm_compute in E].
  exists p. split; [reflexivity|].
  assert (clock p + 2 * Minute < Hour) as Hck.
  { vm_compute in E. injection E as <-. done. }
  destruct (fresh_token_served_to_all
              (entry_for hourly (Some {| Token := "T0"; ExpiresOn := Hour |}))
              0 env0 2 _ p {| Token := "T0"; ExpiresOn := Hour |} eq_refl E Hck)
    as (Hh & He & _).
  by split.
Defined.

(** Three more calls within the hour of the token: nothing changes. *)
Lemma calls_within_validity_change_nothing_witness :
  exists c1 env1,
    tokenCacheImpl_GetAccessToken 0 NewConcurrentTokenCache env0 hourly
      ["s"%string]
    = (c1, env1, Returns ("T1"%string, None))
    /\ calls [(Minute, hourly, ["s"%string]); (2 * Minute, hourly, ["s"%string]);
              (3 * Minute, hourly, ["s"%string])] c1 env1
       = (c1, env1).
Proof.
  destruct (tokenCacheImpl_GetAccessToken 0 NewConcurrentTokenCache env0
              hourly ["s"%string]) as [[c1 env1] r1] eqn:E1.
  assert (r1 = Returns ("T1"%string, None)) as ->.
  { vm_compute in E1. by injection E1 as _ _ <-. }
  exists c1, env1. split; [reflexivity|].
  apply (calls_within_validity_change_nothing
           [Minute; 2 * Minute; 3 * Minute] c1 env1 hourly ["s"%string]
           {| Token := "T1"; ExpiresOn := Hour |}).
  - by apply (tokenCacheImpl_GetAccessToken_wf _ _ _ _ _ _ _ _ E1), wf_empty.
  - vm_compute in E1. injection E1 as <- _. vm_compute. reflexivity.
  - repeat constructor; done.
Defined.
